(** * A pointer-level model of the libgo skip list (skiplist.go)

    The Go program keeps its nodes on the garbage-collected heap and links
    them with pointers.  The model below keeps the heap explicit: a store of
    node records indexed by address, with [None] for Go's [nil].  Every
    dereference and every slice access is checked, so that a [nil]
    dereference or an index out of range (a Go panic) shows up as [None],
    as does a loop that would not end.  All operations are executable. *)

From stdpp Require Import base option list sorting strings.
From Stdlib Require Import ZArith Lia OrderedTypeEx.

Local Open Scope Z_scope.

(** ** Key and value types *)

(** [constraints.Ordered] restricted to its totally ordered members (the
    integer and string types): [ltb] is Go's [<], equality is Go's [==]. *)
Class Ordered (K : Type) := {
  ltb : K → K → bool;
  ordered_eq_dec :: EqDecision K;
  ltb_irrefl : ∀ a, ltb a a = false;
  ltb_trans : ∀ a b c, ltb a b = true → ltb b c = true → ltb a c = true;
  ltb_total : ∀ a b, ltb a b = false → ltb b a = false → a = b;
}.

(** Go's zero value of a type ([var zeroK K]). *)
Class Zero (A : Type) := zero : A.

(** Go's [a > b] and [a <= b] on a totally ordered type. *)
Definition gtb {K} `{Ordered K} (a b : K) : bool := ltb b a.
Definition leb {K} `{Ordered K} (a b : K) : bool := negb (ltb b a).

(** ** Machine integers *)

(** Go's [int] on a 64-bit platform: arithmetic wraps around. *)
Definition MinInt : Z := - 2 ^ 63.
Definition MaxInt : Z := 2 ^ 63 - 1.
Definition wrap (z : Z) : Z := (z + 2 ^ 63) mod 2 ^ 64 - 2 ^ 63.
Definition is_int (z : Z) : Prop := MinInt ≤ z ≤ MaxInt.

(** ** Constants *)

Definition MaxLevel : Z := 12.

(** ** Errors *)

(** A Go [error] is [None] for [nil] and [Some msg] for [errors.New(msg)]. *)
Definition error := option string.
Definition KeyNotFound : error := Some "Not Found"%string.
Definition InvalidRange : error := Some "START key is great than END key"%string.
Definition ZeroCount : error := Some "Zero COUNT"%string.
Definition IndexOutOfRange : error := Some "Out of range"%string.

(** ** Generic loop over [i, i+1, ..., i+cnt-1] in the panic monad *)

Fixpoint for_loop {St : Type} (i cnt : nat) (body : nat → St → option St) (s : St)
  : option St :=
  match cnt with
  | O => Some s
  | S cnt' => s' ← body i s; for_loop (S i) cnt' body s'
  end.

(** Addresses of heap cells; a pointer is an address or [nil]. *)
Abbreviation addr := nat (only parsing).
Abbreviation ptr := (option nat) (only parsing).

Section Model.
Context {K V : Type} {OrdK : Ordered K} {ZeroK : Zero K} {ZeroV : Zero V}.

(** ** Data model *)

Record skiplistNode := mkNode {
  key : K;
  value : V;
  level : Z;
  forward : list ptr;
  backward : ptr;
}.

(** The [Skiplist] struct; its fields [level] and [length] carry the prefix
    [sl_] because the node has a [level] too. *)
Record Skiplist := mkSkiplist {
  header : ptr;
  tail : ptr;
  sl_level : Z;
  sl_length : Z;
}.

(** A program state: the node heap and the container struct. *)
Record state := mkState {
  heap : list skiplistNode;
  sl : Skiplist;
}.

Definition set_value (n : skiplistNode) (v : V) : skiplistNode :=
  mkNode (key n) v (level n) (forward n) (backward n).
Definition set_forward (n : skiplistNode) (fw : list ptr) : skiplistNode :=
  mkNode (key n) (value n) (level n) fw (backward n).
Definition set_backward (n : skiplistNode) (b : ptr) : skiplistNode :=
  mkNode (key n) (value n) (level n) (forward n) b.

(** ** Heap access *)

(** [*p] *)
Definition deref (h : list skiplistNode) (p : ptr) : option skiplistNode :=
  a ← p; h !! a.

(** [*p = n] *)
Definition store (h : list skiplistNode) (p : ptr) (n : skiplistNode)
  : option (list skiplistNode) :=
  a ← p; _ ← h !! a; Some (<[a := n]> h).

(** [&skiplistNode{...}]: the new cell gets the next free address. *)
Definition alloc (h : list skiplistNode) (n : skiplistNode)
  : list skiplistNode * ptr :=
  (h ++ [n], Some (length h)).

(** [make([]*skiplistNode, n)] *)
Definition make (n : Z) : option (list ptr) :=
  if decide (0 ≤ n) then Some (replicate (Z.to_nat n) None) else None.

(** [p.forward[i]] *)
Definition get_forward (h : list skiplistNode) (p : ptr) (i : nat) : option ptr :=
  n ← deref h p; forward n !! i.

(** [p.forward[i] = q] *)
Definition put_forward (h : list skiplistNode) (p : ptr) (i : nat) (q : ptr)
  : option (list skiplistNode) :=
  n ← deref h p;
  if decide (i < length (forward n))%nat
  then store h p (set_forward n (<[i := q]> (forward n)))
  else None.

(** [p.backward = q] *)
Definition put_backward (h : list skiplistNode) (p : ptr) (q : ptr)
  : option (list skiplistNode) :=
  n ← deref h p; store h p (set_backward n q).

(** ** [New] *)

Definition New : state :=
  let header := mkNode zero zero MaxLevel (replicate (Z.to_nat MaxLevel) None) None in
  mkState [header] (mkSkiplist (Some 0%nat) None 1 0).

(** ** [find] *)

(** The inner loop of [find] at level [i]:
    [for ; c.forward[i] != nil && c.forward[i].key < key; c = c.forward[i] {}] *)
Fixpoint find_forward (fuel : nat) (h : list skiplistNode) (i : nat) (k : K)
  (c : ptr) : option ptr :=
  match fuel with
  | O => None
  | S fuel' =>
      nx ← get_forward h c i;
      match nx with
      | None => Some c
      | Some _ =>
          nn ← deref h nx;
          if ltb (key nn) k then find_forward fuel' h i k nx else Some c
      end
  end.

(** The outer loop [for i := MaxLevel - 1; i >= 0; i--], with [n = i + 1]. *)
Fixpoint find_loop (n : nat) (h : list skiplistNode) (k : K) (c : ptr)
  (found : bool) (node : ptr) (updates : list ptr)
  : option (bool * ptr * list ptr) :=
  match n with
  | O => Some (found, node, updates)
  | S i =>
      c' ← find_forward (S (length h)) h i k c;
      nx ← get_forward h c' i;
      '(found', node') ←
        match nx with
        | None => Some (found, node)
        | Some _ =>
            nn ← deref h nx;
            Some (if decide (key nn = k) then (true, nx) else (found, node))
        end;
      find_loop i h k c' found' node' (<[i := c']> updates)
  end.

Definition find (k : K) (s : state) : option (bool * ptr * list ptr) :=
  find_loop (Z.to_nat MaxLevel) (heap s) k (header (sl s)) false None
    (replicate (Z.to_nat MaxLevel) None).

(** ** [Put] *)

(** One turn of the splice loop:
    [n.forward[i] = updates[i].forward[i]; updates[i].forward[i] = n] *)
Definition Put_splice (n : ptr) (updates : list ptr) (i : nat)
  (h : list skiplistNode) : option (list skiplistNode) :=
  u ← updates !! i;
  uf ← get_forward h u i;
  h1 ← put_forward h n i uf;
  put_forward h1 u i n.

(** [rl] is the value that the call [randomLevel()] returns when the
    insertion path reaches it (see [randomLevel] below). *)
Definition Put (rl : Z) (k : K) (v : V) (s : state) : option state :=
  let h := heap s in
  let l := sl s in
  if decide (sl_length l = 0) then
    fw ← make 1;
    let '(h1, n) := alloc h (mkNode k v 1 fw (header l)) in
    h2 ← put_forward h1 (header l) 0 n;
    Some (mkState h2 (mkSkiplist (header l) n (sl_level l) 1))
  else
    '(found, node, updates) ← find k s;
    if found : bool then
      nn ← deref h node;
      h1 ← store h node (set_value nn v);
      Some (mkState h1 l)
    else
      let level := rl in
      fw ← make level;
      let '(h1, n) := alloc h (mkNode k v level fw None) in
      h2 ← for_loop 0 (Z.to_nat level) (Put_splice n updates) h1;
      u0 ← updates !! 0%nat;
      h3 ← put_backward h2 n u0;
      f0 ← get_forward h3 n 0;
      match f0 with
      | Some _ =>
          h4 ← put_backward h3 f0 n;
          Some (mkState h4 (mkSkiplist (header l) (tail l) (sl_level l) (wrap (sl_length l + 1))))
      | None =>
          Some (mkState h3 (mkSkiplist (header l) n (sl_level l) (wrap (sl_length l + 1))))
      end.

(** ** [Get] *)

Definition Get (k : K) (s : state) : option (V * error) :=
  '(found, node, _) ← find k s;
  if found : bool then
    nn ← deref (heap s) node;
    Some (value nn, None)
  else Some (zero, KeyNotFound).

(** ** [Del] *)

(** One turn of the unlink loop: [updates[i].forward[i] = node.forward[i]] *)
Definition Del_unlink (node : ptr) (updates : list ptr) (i : nat)
  (h : list skiplistNode) : option (list skiplistNode) :=
  u ← updates !! i;
  nf ← get_forward h node i;
  put_forward h u i nf.

Definition Del (k : K) (s : state) : option (state * error) :=
  let h := heap s in
  let l := sl s in
  '(found, node, updates) ← find k s;
  if negb found then Some (s, KeyNotFound)
  else
    f0 ← get_forward h node 0;
    nn ← deref h node;
    '(h1, tl) ←
      match f0 with
      | Some _ => h1 ← put_backward h f0 (backward nn); Some (h1, tail l)
      | None => Some (h, backward nn)
      end;
    nn1 ← deref h1 node;
    h2 ← for_loop 0 (Z.to_nat (level nn1)) (Del_unlink node updates) h1;
    Some (mkState h2 (mkSkiplist (header l) tl (sl_level l) (wrap (sl_length l - 1))), None).

(** ** [Length] *)

Definition Length (s : state) : Z := sl_length (sl s).

(** ** Range queries *)

(** The result [map[K]V] is kept as the list of its entries in the order in
    which their keys were first assigned; [result[k] = v] overwrites the
    entry of a key that is present and appends one otherwise.  The [nil] map
    returned next to an error is the empty list. *)
Fixpoint assign (m : list (K * V)) (k : K) (v : V) : list (K * V) :=
  match m with
  | [] => [(k, v)]
  | (k', v') :: m' =>
      if decide (k' = k) then (k, v) :: m' else (k', v') :: assign m' k v
  end.

(** [for ; node != nil && node.key <= end; node = node.forward[0]] *)
Fixpoint RangeByKey_loop (fuel : nat) (h : list skiplistNode) (end_ : K)
  (node : ptr) (result : list (K * V)) : option (list (K * V)) :=
  match fuel with
  | O => None
  | S fuel' =>
      match node with
      | None => Some result
      | Some _ =>
          n ← deref h node;
          if leb (key n) end_ then
            nx ← forward n !! 0%nat;
            RangeByKey_loop fuel' h end_ nx (assign result (key n) (value n))
          else Some result
      end
  end.

Definition RangeByKey (start end_ : K) (s : state) : option (list (K * V) * error) :=
  if gtb start end_ then Some ([], InvalidRange)
  else
    '(found, node, updates) ← find start s;
    node ← (if found : bool then Some node
            else u0 ← updates !! 0%nat; get_forward (heap s) u0 0);
    result ← RangeByKey_loop (S (length (heap s))) (heap s) end_ node [];
    Some (result, None).

(** The collecting loop shared (as duplicated text) by [RangeByCount] and
    [RangeByIndex]:
    [for c := 0; node != nil && node != sl.header && c < count; c++] *)
Fixpoint collect (fuel : nat) (h : list skiplistNode) (hdr : ptr) (fwd : bool)
  (c count : Z) (node : ptr) (result : list (K * V)) : option (list (K * V)) :=
  match fuel with
  | O => None
  | S fuel' =>
      if bool_decide (node ≠ None) && bool_decide (node ≠ hdr) && (c <? count) then
        n ← deref h node;
        let result := assign result (key n) (value n) in
        nx ← (if fwd then forward n !! 0%nat else Some (backward n));
        collect fuel' h hdr fwd (c + 1) count nx result
      else Some result
  end.

Definition RangeByCount (start : K) (count : Z) (s : state)
  : option (list (K * V) * error) :=
  if decide (count = 0) then Some ([], ZeroCount)
  else
    let '(count, fwd) :=
      if decide (count < 0) then (wrap (0 - count), false) else (count, true) in
    '(found, node, updates) ← find start s;
    node ← (if found : bool then Some node
            else
              u0 ← updates !! 0%nat;
              if fwd : bool then get_forward (heap s) u0 0 else Some u0);
    result ← collect (S (length (heap s))) (heap s) (header (sl s)) fwd 0 count node [];
    Some (result, None).

(** [for i := 0; node != nil && i < start; i++ { node = node.forward[0] }] *)
Fixpoint seek_forward (fuel : nat) (h : list skiplistNode) (i start : Z)
  (node : ptr) : option ptr :=
  match fuel with
  | O => None
  | S fuel' =>
      if bool_decide (node ≠ None) && (i <? start) then
        n ← deref h node;
        nx ← forward n !! 0%nat;
        seek_forward fuel' h (i + 1) start nx
      else Some node
  end.

(** [for i := -1; node != sl.header && i > start; i-- { node = node.backward }] *)
Fixpoint seek_backward (fuel : nat) (h : list skiplistNode) (hdr : ptr)
  (i start : Z) (node : ptr) : option ptr :=
  match fuel with
  | O => None
  | S fuel' =>
      if bool_decide (node ≠ hdr) && (start <? i) then
        n ← deref h node;
        seek_backward fuel' h hdr (i - 1) start (backward n)
      else Some node
  end.

Definition RangeByIndex (start count : Z) (s : state)
  : option (list (K * V) * error) :=
  let h := heap s in
  let l := sl s in
  if decide (count = 0) then Some ([], ZeroCount)
  else if decide (sl_length l ≤ start ∨ start < 0 - sl_length l)
  then Some ([], IndexOutOfRange)
  else
    let '(count, fwd) :=
      if decide (count < 0) then (wrap (0 - count), false) else (count, true) in
    node ← get_forward h (header l) 0;
    node ← (if decide (0 ≤ start)
            then seek_forward (S (length h)) h 0 start node
            else seek_backward (S (length h)) h (header l) (-1) start (tail l));
    result ← collect (S (length h)) h (header l) fwd 0 count node [];
    Some (result, None).


(** ** Calls on a container *)

(** The operations that can return an error.  [Get] and the range queries
    assign to no node and to no field of the container, so their models
    return only a result; [run] pairs it with the state they leave. *)
Inductive call :=
  | GetCall (k : K)
  | DelCall (k : K)
  | RangeByKeyCall (start end_ : K)
  | RangeByCountCall (start : K) (count : Z)
  | RangeByIndexCall (start count : Z).

Definition run (c : call) (s : state) : option (state * error) :=
  match c with
  | GetCall k => '(_, e) ← Get k s; Some (s, e)
  | DelCall k => Del k s
  | RangeByKeyCall a b => '(_, e) ← RangeByKey a b s; Some (s, e)
  | RangeByCountCall a n => '(_, e) ← RangeByCount a n s; Some (s, e)
  | RangeByIndexCall i n => '(_, e) ← RangeByIndex i n s; Some (s, e)
  end.

(** ** Sequences of updates *)

(** A program that only updates a container: a list of calls of [Put],
    each with the level that [randomLevel] returns to it, and of [Del],
    whose error is dropped. *)
Inductive op :=
  | PutOp (rl : Z) (k : K) (v : V)
  | DelOp (k : K).

Fixpoint exec (ops : list op) (s : state) : option state :=
  match ops with
  | [] => Some s
  | PutOp rl k v :: ops' => s' ← Put rl k v s; exec ops' s'
  | DelOp k :: ops' => '(s', _) ← Del k s; exec ops' s'
  end.

End Model.

Arguments skiplistNode : clear implicits.
Arguments state : clear implicits.
Arguments op : clear implicits.

(** ** Key instances *)

Lemma string_ltb_lt (a b : string) : String.ltb a b = true ↔ String_as_OT.lt a b.
Proof.
  unfold String.ltb. rewrite <- String_as_OT.cmp_lt. unfold String_as_OT.cmp.
  destruct (String.compare a b); split; congruence.
Qed.

#[export] Program Instance string_Ordered : Ordered string :=
  {| ltb := String.ltb |}.
Next Obligation.
  intros a. destruct (String.ltb a a) eqn:E; [|done].
  apply string_ltb_lt in E. by apply String_as_OT.lt_not_eq in E.
Qed.
Next Obligation.
  intros a b c ?%string_ltb_lt ?%string_ltb_lt. apply string_ltb_lt.
  eapply String_as_OT.lt_trans; eauto.
Qed.
Next Obligation.
  intros a b. unfold String.ltb. rewrite (String.compare_antisym a b).
  destruct (String.compare b a) eqn:E; simpl; try done.
  intros _ _. symmetry. by apply String.compare_eq_iff.
Qed.

#[export] Instance string_Zero : Zero string := ""%string.

#[export] Program Instance Z_Ordered : Ordered Z := {| ltb := Z.ltb |}.
Next Obligation. intros a. apply Z.ltb_irrefl. Qed.
Next Obligation. intros a b c ?%Z.ltb_lt ?%Z.ltb_lt. apply Z.ltb_lt. lia. Qed.
Next Obligation. intros a b ?%Z.ltb_ge ?%Z.ltb_ge. lia. Qed.

#[export] Instance Z_Zero : Zero Z := 0.

(** ** The scenario of the test suite *)

Fixpoint puts (kvs : list (Z * string * string)) (s : state string string)
  : option (state string string) :=
  match kvs with
  | [] => Some s
  | (rl, k, v) :: kvs' => s' ← Put rl k v s; puts kvs' s'
  end.

(** The calls of [buildSkiplist] in the tests; [l1] ... [l7] are the levels
    that [randomLevel] returns to the seven inserting calls that reach it. *)
Definition scenario (l1 l2 l3 l4 l5 l6 l7 : Z) : list (Z * string * string) :=
  [(1, "000", "000"); (l1, "001", "001"); (l2, "008", "008");
   (l3, "003", "003"); (l4, "005", "005"); (l5, "007", "007");
   (l6, "006", "006"); (l7, "004", "004"); (1, "004", "004-rewrite")]%string.

Definition buildSkiplist (l1 l2 l3 l4 l5 l6 l7 : Z) : option (state string string) :=
  puts (scenario l1 l2 l3 l4 l5 l6 l7) New.

(** ** The tests *)

(** [r[k]] on a result map: a key that is absent reads as the zero value. *)
Definition map_index (r : list (string * string)) (k : string) : string :=
  match list_find (λ x, x.1 = k) r with
  | Some (_, (_, v)) => v
  | None => zero
  end.

(** [*testing.T] as the list of the failures reported so far, each by the
    format string of its [t.Errorf]; [fail_if c msg] is
    [if c { t.Errorf(msg, ...) }]. *)
Definition fail_if (c : bool) (msg : string) (t : list string) : list string :=
  if c then t ++ [msg] else t.

Section Tests.

(** The levels that [randomLevel] returns during [buildSkiplist]. *)
Variables l1 l2 l3 l4 l5 l6 l7 : Z.

Definition TestLength (t : list string) : option (list string) :=
  sl ← buildSkiplist l1 l2 l3 l4 l5 l6 l7;
  let l := Length sl in
  Some (fail_if (bool_decide (l ≠ 8)) "Length() is %d, should be 8" t).

Definition TestGet (t : list string) : option (list string) :=
  sl ← buildSkiplist l1 l2 l3 l4 l5 l6 l7;
  '(v, err) ← Get "004" sl;
  let t := fail_if (bool_decide (err ≠ None) || bool_decide (v ≠ "004-rewrite"))
             "Get(004) is %s and error is %v, should be '004-rewrite'" t in
  '(_, err) ← Get "009" sl;
  Some (fail_if (bool_decide (err = None)) "Get(009) should return error(Not Found)" t).

Definition TestDel (t : list string) : option (list string) :=
  sl ← buildSkiplist l1 l2 l3 l4 l5 l6 l7;
  '(sl, err) ← Del "009" sl;
  let t := fail_if (bool_decide (err = None))
             "Del(009) should return error(Not Found)" t in
  '(sl, err) ← Del "005" sl;
  let t := fail_if (bool_decide (err ≠ None)) "Del(005) should return nil error" t in
  '(sl, err) ← Del "005" sl;
  let t := fail_if (bool_decide (err = None))
             "Del(005) should return error(Not Found)" t in
  '(_, err) ← Get "005" sl;
  Some (fail_if (bool_decide (err = None)) "Get(005) should return error(Not Found)" t).

(** [len(r) != n || r[k1] != v1 || r[k2] != v2 || ...] *)
Definition differs (r : list (string * string)) (n : nat)
  (want : list (string * string)) : bool :=
  bool_decide (length r ≠ n)
  || existsb (λ x, bool_decide (map_index r x.1 ≠ x.2)) want.

Definition TestRange (t : list string) : option (list string) :=
  sl ← buildSkiplist l1 l2 l3 l4 l5 l6 l7;
  '(r, _) ← RangeByKey "001" "003" sl;
  let t := fail_if (differs r 2 [("001", "001"); ("003", "003")])
             "RangeByKey error, the result=%v" t in
  '(r, _) ← RangeByCount "002" 2 sl;
  let t := fail_if (differs r 2 [("003", "003"); ("004", "004-rewrite")])
             "RangeByCount(002, 2) error, the result=%v" t in
  '(r, _) ← RangeByCount "008" 2 sl;
  let t := fail_if (differs r 1 [("008", "008")])
             "RangeByCount(008, 2) error, the result=%v" t in
  '(r, _) ← RangeByCount "002" (-2) sl;
  let t := fail_if (differs r 2 [("000", "000"); ("001", "001")])
             "RangeByCount(002, -2), the result=%v" t in
  '(r, _) ← RangeByCount "008" (-2) sl;
  let t := fail_if (differs r 2 [("008", "008"); ("007", "007")])
             "RangeByCount(008, -2) error, the result=%v" t in
  '(r, _) ← RangeByCount "008" (-2) sl;
  let t := fail_if (differs r 2 [("008", "008"); ("007", "007")])
             "RangeByCount(009, -2) error, the result=%v" t in
  '(r, _) ← RangeByIndex 3 2 sl;
  let t := fail_if (differs r 2 [("004", "004-rewrite"); ("005", "005")])
             "RangeByIndex(3, 2), the result=%v" t in
  '(r, _) ← RangeByIndex (-1) 2 sl;
  let t := fail_if (differs r 1 [("008", "008")])
             "RangeByIndex(-1, 2), the result=%v" t in
  '(r, _) ← RangeByIndex (-2) 2 sl;
  let t := fail_if (differs r 2 [("008", "008"); ("007", "007")])
             "RangeByIndex(-2, 2), the result=%v" t in
  '(r, _) ← RangeByIndex (-3) 2 sl;
  let t := fail_if (differs r 2 [("006", "006"); ("007", "007")])
             "RangeByIndex(-3, 2), the result=%v" t in
  '(r, _) ← RangeByIndex (-1) (-2) sl;
  let t := fail_if (differs r 2 [("008", "008"); ("007", "007")])
             "RangeByIndex(-1, -2), the result=%v" t in
  '(r, _) ← RangeByIndex (-2) (-2) sl;
  let t := fail_if (differs r 2 [("006", "006"); ("007", "007")])
             "RangeByIndex(-2, -2), the result=%v" t in
  '(r, _) ← RangeByIndex (-5) (-5) sl;
  Some (fail_if (differs r 4 [("004", "004-rewrite"); ("003", "003");
                              ("001", "001"); ("000", "000")])
          "RangeByIndex(-5, 5), the result=%v" t).

End Tests.

(** ** [randomLevel] *)

(** What a run does to the pseudorandom generator: it builds one from a
    seed, or it draws the next value of the one it holds. *)
Inductive rand_event :=
  | Seeded (seed : Z)
  | Drawn (v : Z).

Section RandomLevel.

(** [math/rand]: the type [*rand.Rand], [rand.New(rand.NewSource(seed))]
    and [r.Uint32()], which returns the draw and advances [r]. *)
Variable Rand : Type.
Variable NewSource : Z → Rand.
Variable Uint32 : Rand → Z * Rand.

(** The loop of [randomLevel].  [P*0xFFFF] is the constant 19660.5, which
    [float32] holds exactly, as it holds every integer below 65536: the
    test [float32(v&0xFFFF) > float32(P*0xFFFF)] is the exact comparison
    [2 * (v & 0xFFFF) > 39321]. *)
Fixpoint randomLevel_loop (fuel : nat) (r : Rand) (level : Z)
  : option (Z * list rand_event) :=
  match fuel with
  | O => None
  | S fuel' =>
      let '(v, r') := Uint32 r in
      if decide (39321 < 2 * Z.land v 65535) then Some (level, [Drawn v])
      else
        '(l, tr) ← randomLevel_loop fuel' r' (wrap (level + 1));
        Some (l, Drawn v :: tr)
  end.

(** [now] is the value of [time.Now().UnixNano()] at the call. *)
Definition randomLevel (fuel : nat) (now : Z) : option (Z * list rand_event) :=
  '(level, tr) ← randomLevel_loop fuel (NewSource now) 1;
  Some (if decide (MaxLevel < level) then MaxLevel else level, Seeded now :: tr).

(** The calls of [randomLevel] over the lifetime of a container, one for
    each insertion of a new key into a container that is not empty; [clock]
    lists the clock readings of the calls. *)
Fixpoint randomLevel_calls (fuel : nat) (clock : list Z)
  : option (list Z * list rand_event) :=
  match clock with
  | [] => Some ([], [])
  | now :: clock' =>
      '(l, tr) ← randomLevel fuel now;
      '(ls, trs) ← randomLevel_calls fuel clock';
      Some (l :: ls, tr ++ trs)
  end.

End RandomLevel.

(** The seeds of the generators that a run built, in order. *)
Definition seeds (tr : list rand_event) : list Z :=
  omap (λ e, match e with Seeded s => Some s | Drawn _ => None end) tr.

(** A linear congruential generator, to run [randomLevel] on: any generator
    will do where only the seeding matters. *)
Definition lcg_NewSource (seed : Z) : Z := seed mod 2 ^ 64.
Definition lcg_Uint32 (r : Z) : Z * Z :=
  let r' := (r * 6364136223846793005 + 1442695040888963407) mod 2 ^ 64 in
  (Z.shiftr r' 32, r').

(** * Verification *)

Lemma wrap_small z : MinInt ≤ z ≤ MaxInt → wrap z = z.
Proof.
  unfold wrap, MinInt, MaxInt. intros Hz.
  rewrite Z.mod_small by lia. lia.
Qed.

(** ** The abstract view: the level-0 chain as a list of cells *)

Section Abstraction.
Context {K V : Type} {OrdK : Ordered K} {ZeroK : Zero K} {ZeroV : Zero V}.

Local Abbreviation node := (skiplistNode K V).
Local Abbreviation heap_t := (list (skiplistNode K V)).

(** A cell records where a live node sits and what it holds. *)
Record cell := mkCell {
  c_addr : addr;
  c_key : K;
  c_val : V;
  c_lvl : nat;
}.

(** First cell of [s] that takes part in level [i]. *)
Fixpoint next_at (i : nat) (s : list cell) : ptr :=
  match s with
  | [] => None
  | c :: r => if decide (i < c_lvl c)%nat then Some (c_addr c) else next_at i r
  end.

(** Last cell of [s] that takes part in level [i], or [d]. *)
Fixpoint pred_at (i : nat) (d : ptr) (s : list cell) : ptr :=
  match s with
  | [] => d
  | c :: r => pred_at i (if decide (i < c_lvl c)%nat then Some (c_addr c) else d) r
  end.

(** Address of the last cell of [s], or [d]. *)
Fixpoint last_ptr (d : ptr) (s : list cell) : ptr :=
  match s with
  | [] => d
  | c :: r => last_ptr (Some (c_addr c)) r
  end.

(** What lies beyond a segment of the chain is given by the node that
    comes next at each level; beyond the whole chain there is [nobody]. *)
Definition nobody : nat → ptr := λ _, None.

Definition next_or (nx : nat → ptr) (i : nat) (s : list cell) : ptr :=
  match next_at i s with
  | Some a => Some a
  | None => nx i
  end.

Definition fwds (n : nat) (s : list cell) (nx : nat → ptr) : list ptr :=
  (λ i, next_or nx i s) <$> seq 0 n.

(** The node that the heap must hold for cell [c], whose predecessor is
    [prev] and which is followed by the cells [s] and then by [nx]. *)
Definition node_of (prev : ptr) (c : cell) (s : list cell) (nx : nat → ptr) : node :=
  mkNode (c_key c) (c_val c) (Z.of_nat (c_lvl c)) (fwds (c_lvl c) s nx) prev.

(** [repr h prev L nx]: the heap holds the cells [L], which come after
    [prev] and before [nx]. *)
Fixpoint repr (h : heap_t) (prev : ptr) (L : list cell) (nx : nat → ptr) : Prop :=
  match L with
  | [] => True
  | c :: r =>
      h !! c_addr c = Some (node_of prev c r nx) ∧ repr h (Some (c_addr c)) r nx
  end.

Definition key_lt (a b : cell) : Prop := ltb (c_key a) (c_key b) = true.

(** The sentinel seen as a cell. *)
Definition hcell (hd : addr) : cell := mkCell hd zero zero (Z.to_nat MaxLevel).

Definition kv (c : cell) : K * V := (c_key c, c_val c).

(** The representation invariant: the container [s], whose sentinel sits at
    [hd], holds exactly the cells [l], in this order. *)
Record Inv (s : state K V) (hd : addr) (l : list cell) : Prop := {
  inv_header : header (sl s) = Some hd;
  inv_repr : repr (heap s) None (hcell hd :: l) nobody;
  inv_nodup : NoDup (hd :: (c_addr <$> l));
  inv_sorted : StronglySorted key_lt l;
  inv_lvl : Forall (λ c, 1 ≤ c_lvl c ≤ Z.to_nat MaxLevel)%nat l;
  inv_length : sl_length (sl s) = Z.of_nat (length l);
  inv_tail :
    match last l with
    | Some c => tail (sl s) = Some (c_addr c)
    | None => tail (sl s) = None ∨ tail (sl s) = Some hd
    end;
}.

(** Cells with keys below [k], and the rest. *)
Fixpoint below (k : K) (l : list cell) : list cell :=
  match l with
  | [] => []
  | c :: r => if ltb (c_key c) k then c :: below k r else []
  end.

Fixpoint from (k : K) (l : list cell) : list cell :=
  match l with
  | [] => []
  | c :: r => if ltb (c_key c) k then from k r else c :: r
  end.

(** The cell that holds key [k], if there is one: it heads [from k l]. *)
Definition hit (k : K) (l : list cell) : option cell :=
  match from k l with
  | c :: _ => if decide (c_key c = k) then Some c else None
  | [] => None
  end.

(** *** Order *)

Lemma leb_true (a b : K) : leb a b = true ↔ ltb a b = true ∨ a = b.
Proof.
  unfold leb. rewrite negb_true_iff. split.
  - intros Hba. destruct (ltb a b) eqn:Hab; [by left|right]. by apply ltb_total.
  - intros [Hab| ->]; [|apply ltb_irrefl].
    destruct (ltb b a) eqn:Hba; [|done].
    pose proof (ltb_irrefl a) as Hi. by rewrite (ltb_trans _ _ _ Hab Hba) in Hi.
Qed.

Lemma ltb_asym (a b : K) : ltb a b = true → ltb b a = false.
Proof.
  intros Hab. destruct (ltb b a) eqn:Hba; [|done].
  pose proof (ltb_irrefl a) as Hi. by rewrite (ltb_trans _ _ _ Hab Hba) in Hi.
Qed.

Lemma ltb_neq (a b : K) : ltb a b = true → a ≠ b.
Proof. intros Hab ->. by rewrite ltb_irrefl in Hab. Qed.

Lemma ltb_leb_trans (a b c : K) : ltb a b = true → leb b c = true → ltb a c = true.
Proof. intros Hab [Hbc| <-]%leb_true; [by eapply ltb_trans|done]. Qed.

Lemma leb_ltb_trans (a b c : K) : leb a b = true → ltb b c = true → ltb a c = true.
Proof. intros [Hab| ->]%leb_true Hbc; [by eapply ltb_trans|done]. Qed.

Lemma ltb_false_leb (a b : K) : ltb a b = false ↔ leb b a = true.
Proof. unfold leb. by rewrite negb_true_iff. Qed.

(** *** Lists of cells *)

Lemma below_from k l : below k l ++ from k l = l.
Proof. induction l as [|c r IH]; simpl; [done|]. destruct (ltb _ _); simpl; congruence. Qed.

Lemma below_lt k l : Forall (λ c, ltb (c_key c) k = true) (below k l).
Proof.
  induction l as [|c r IH]; simpl; [constructor|].
  destruct (ltb _ _) eqn:E; by constructor.
Qed.

Lemma from_ge k l :
  StronglySorted key_lt l → Forall (λ c, ltb (c_key c) k = false) (from k l).
Proof.
  induction 1 as [|c r Hs IH Hc]; simpl; [constructor|].
  destruct (ltb (c_key c) k) eqn:E; [done|].
  constructor; [done|]. eapply Forall_impl; [exact Hc|]. intros x Hx. simpl.
  destruct (ltb (c_key x) k) eqn:E'; [|done].
  unfold key_lt in Hx. by rewrite (ltb_trans _ _ _ Hx E') in E.
Qed.

Lemma sorted_app_inv (l1 l2 : list cell) :
  StronglySorted key_lt (l1 ++ l2) →
  StronglySorted key_lt l1 ∧ StronglySorted key_lt l2 ∧
  ∀ a b, a ∈ l1 → b ∈ l2 → key_lt a b.
Proof.
  induction l1 as [|c r IH]; simpl; intros Hs.
  - split_and!; [constructor|done|]. intros a b Ha. by apply elem_of_nil in Ha.
  - apply StronglySorted_inv in Hs as [Hs Hc]. destruct (IH Hs) as (H1 & H2 & H3).
    split_and!; [|done|].
    + constructor; [done|]. apply Forall_app in Hc. tauto.
    + intros a b [->|Ha]%elem_of_cons Hb; [|by apply H3].
      rewrite Forall_forall in Hc. apply Hc. apply elem_of_app. by right.
Qed.

Lemma sorted_app (l1 l2 : list cell) :
  StronglySorted key_lt l1 → StronglySorted key_lt l2 →
  (∀ a b, a ∈ l1 → b ∈ l2 → key_lt a b) →
  StronglySorted key_lt (l1 ++ l2).
Proof.
  induction 1 as [|c r Hs IH Hc]; simpl; intros H2 H3; [done|].
  constructor.
  - apply IH; [done|]. intros a b Ha Hb. apply H3; [by right|done].
  - apply Forall_app. split; [done|]. apply Forall_forall. intros b Hb.
    apply H3; [by left|done].
Qed.

Lemma next_at_app i s t :
  next_at i (s ++ t) = match next_at i s with Some a => Some a | None => next_at i t end.
Proof. induction s as [|c r IH]; simpl; [done|]. by case_decide. Qed.

Lemma next_at_None i s : next_at i s = None ↔ Forall (λ c, c_lvl c ≤ i)%nat s.
Proof.
  induction s as [|c r IH]; simpl.
  - split; [constructor|done].
  - case_decide.
    + split; [done|]. intros Hf. apply Forall_cons in Hf as [? _]. lia.
    + rewrite IH. split; [intros; constructor; [lia|done]|]. by intros [_ ?]%Forall_cons.
Qed.

Lemma next_at_Some i s a :
  next_at i s = Some a → ∃ c, c ∈ s ∧ c_addr c = a ∧ (i < c_lvl c)%nat.
Proof.
  induction s as [|c r IH]; simpl; [done|]. case_decide.
  - intros [= <-]. exists c. split_and!; [by left|done|done].
  - intros (x & ? & ? & ?)%IH. exists x. split_and!; [by right|done|done].
Qed.

Lemma next_at_0 s :
  Forall (λ c, 1 ≤ c_lvl c)%nat s → next_at 0 s = c_addr <$> head s.
Proof. intros Hs. destruct Hs as [|c r Hc _]; simpl; [done|]. case_decide; [done|lia]. Qed.

Lemma pred_at_app i d s t : pred_at i d (s ++ t) = pred_at i (pred_at i d s) t.
Proof. revert d. induction s as [|c r IH]; simpl; intros d; [done|]. by rewrite IH. Qed.

Lemma pred_at_clear i d s : next_at i s = None → pred_at i d s = d.
Proof.
  revert d. induction s as [|c r IH]; simpl; intros d; [done|].
  case_decide; [done|]. apply IH.
Qed.

Lemma pred_at_elem i d s :
  pred_at i d s = d ∨ ∃ c, c ∈ s ∧ pred_at i d s = Some (c_addr c) ∧ (i < c_lvl c)%nat.
Proof.
  revert d. induction s as [|c r IH]; simpl; intros d; [by left|].
  destruct (IH (if decide (i < c_lvl c)%nat then Some (c_addr c) else d))
    as [E|(x & Hx & E & Hl)].
  - rewrite E. case_decide; [|by left]. right. exists c. split_and!; [by left|done|done].
  - right. exists x. split_and!; [by right|done|done].
Qed.

(** Where the predecessor at level [i] sits. *)
Lemma pred_at_cases i d s :
  (next_at i s = None ∧ pred_at i d s = d) ∨
  (∃ pre y suf, s = pre ++ y :: suf ∧ (i < c_lvl y)%nat ∧
     next_at i suf = None ∧ pred_at i d s = Some (c_addr y)).
Proof.
  induction s as [|c r IH] using rev_ind; [by left|].
  rewrite next_at_app, pred_at_app. simpl.
  destruct (decide (i < c_lvl c)%nat) as [Hc|Hc].
  - right. exists r, c, []. by split_and!.
  - destruct IH as [[Hn Hp]|(pre & y & suf & -> & Hy & Hn & Hp)].
    + left. by rewrite Hn, Hp.
    + right. exists pre, y, (suf ++ [c]). rewrite <- app_assoc. split_and!; try done.
      rewrite next_at_app, Hn. simpl. by rewrite decide_False.
Qed.

Lemma pred_at_split i d L pre x suf :
  L = pre ++ x :: suf → (i < c_lvl x)%nat →
  ∃ pre' y suf', L = pre' ++ y :: suf' ∧ (i < c_lvl y)%nat ∧
    next_at i suf' = None ∧ pred_at i d L = Some (c_addr y).
Proof.
  intros -> Hx. rewrite pred_at_app. simpl. rewrite decide_True by done.
  destruct (pred_at_cases i (Some (c_addr x)) suf)
    as [[Hn Hp]|(p & y & t & -> & Hy & Hn & Hp)].
  - exists pre, x, suf. by rewrite Hp.
  - exists (pre ++ x :: p), y, t. rewrite <- app_assoc. by rewrite Hp.
Qed.

Lemma pred_at_0 d s : Forall (λ c, 1 ≤ c_lvl c)%nat s → pred_at 0 d s = last_ptr d s.
Proof.
  intros Hs. revert d. induction Hs as [|c r Hc _ IH]; simpl; intros d; [done|].
  case_decide; [apply IH|lia].
Qed.

Lemma last_ptr_app d s t : last_ptr d (s ++ t) = last_ptr (last_ptr d s) t.
Proof. revert d. induction s as [|c r IH]; simpl; intros d; [done|]. by rewrite IH. Qed.

Lemma last_ptr_last d s :
  last_ptr d s = match last s with Some c => Some (c_addr c) | None => d end.
Proof.
  induction s as [|c r IH] using rev_ind; [done|].
  rewrite last_ptr_app, last_snoc. done.
Qed.

Lemma next_or_nobody i s : next_or nobody i s = next_at i s.
Proof. unfold next_or, nobody. by destruct (next_at i s). Qed.

Lemma next_or_app nx i s t : next_or nx i (s ++ t) = next_or (λ j, next_or nx j t) i s.
Proof. unfold next_or. rewrite next_at_app. by destruct (next_at i s). Qed.

Lemma length_fwds n s nx : length (fwds n s nx) = n.
Proof. unfold fwds. by rewrite length_fmap, length_seq. Qed.

Lemma lookup_fwds n s nx i : (i < n)%nat → fwds n s nx !! i = Some (next_or nx i s).
Proof.
  intros Hi. unfold fwds. rewrite list_lookup_fmap, lookup_seq_lt by done. done.
Qed.

Lemma fwds_ext n s s' nx nx' :
  (∀ i, (i < n)%nat → next_or nx i s = next_or nx' i s') → fwds n s nx = fwds n s' nx'.
Proof.
  intros Hi. apply list_eq. intros i. destruct (decide (i < n)%nat).
  - rewrite !lookup_fwds by done. by rewrite Hi.
  - rewrite !lookup_ge_None_2; [done|rewrite length_fwds; lia|rewrite length_fwds; lia].
Qed.

(** *** The representation predicate *)

Lemma repr_app h prev P Q nx :
  repr h prev (P ++ Q) nx ↔
  repr h prev P (λ i, next_or nx i Q) ∧ repr h (last_ptr prev P) Q nx.
Proof.
  revert prev. induction P as [|c r IH]; simpl; intros prev; [tauto|].
  rewrite IH. unfold node_of.
  rewrite (fwds_ext _ (r ++ Q) r nx (λ i, next_or nx i Q)); [tauto|].
  intros i _. apply next_or_app.
Qed.

Lemma repr_lookup h prev pre x suf nx :
  repr h prev (pre ++ x :: suf) nx →
  h !! c_addr x = Some (node_of (last_ptr prev pre) x suf nx).
Proof. intros [_ [Hx _]]%repr_app. done. Qed.

Lemma repr_elem h prev L nx x :
  repr h prev L nx → x ∈ L →
  ∃ p s, h !! c_addr x = Some (node_of p x s nx).
Proof.
  intros Hr (pre & suf & ->)%list_elem_of_split.
  eexists _, _. by eapply repr_lookup.
Qed.

Lemma repr_ext h h' prev L nx :
  (∀ x, x ∈ L → h' !! c_addr x = h !! c_addr x) →
  repr h prev L nx → repr h' prev L nx.
Proof.
  revert prev. induction L as [|c r IH]; simpl; intros prev Hx; [done|].
  intros [Hc Hr]. split.
  - rewrite Hx; [done|by left].
  - apply IH; [|done]. intros x ?. apply Hx. by right.
Qed.

Lemma repr_nx h prev L nx nx' :
  (∀ i, nx i = nx' i) → repr h prev L nx → repr h prev L nx'.
Proof.
  intros Hn. revert prev. induction L as [|c r IH]; simpl; intros prev; [done|].
  intros [Hc Hr]. split; [|by apply IH].
  rewrite Hc. unfold node_of. do 2 f_equal. apply fwds_ext. intros i _.
  unfold next_or. by rewrite Hn.
Qed.

Lemma repr_lt h prev L nx x :
  repr h prev L nx → x ∈ L → (c_addr x < length h)%nat.
Proof.
  intros Hr Hx. destruct (repr_elem _ _ _ _ _ Hr Hx) as (p & s & E).
  by eapply lookup_lt_Some.
Qed.

Lemma repr_length h prev L nx :
  repr h prev L nx → NoDup (c_addr <$> L) → (length L ≤ length h)%nat.
Proof.
  intros Hr Hnd. rewrite <- (length_fmap c_addr L), <- (length_seq (length h) 0).
  apply submseteq_length, NoDup_submseteq; [done|].
  intros a (x & -> & Hx)%list_elem_of_fmap.
  apply elem_of_seq. split; [lia|]. simpl. eapply repr_lt; eauto.
Qed.

(** *** Heap primitives *)

Lemma deref_Some (h : heap_t) a : deref h (Some a) = h !! a.
Proof. done. Qed.

Lemma get_forward_Some (h : heap_t) a n i :
  h !! a = Some n → get_forward h (Some a) i = forward n !! i.
Proof. intros E. unfold get_forward. simpl. by rewrite E. Qed.

Lemma store_Some (h : heap_t) a n n' :
  h !! a = Some n → store h (Some a) n' = Some (<[a := n']> h).
Proof. intros E. unfold store. simpl. by rewrite E. Qed.

Lemma put_forward_Some (h : heap_t) a n i q :
  h !! a = Some n → (i < length (forward n))%nat →
  put_forward h (Some a) i q = Some (<[a := set_forward n (<[i := q]> (forward n))]> h).
Proof.
  intros E Hi. unfold put_forward, store. simpl. rewrite E. simpl.
  by rewrite decide_True by done.
Qed.

Lemma put_backward_Some (h : heap_t) a n q :
  h !! a = Some n →
  put_backward h (Some a) q = Some (<[a := set_backward n q]> h).
Proof. intros E. unfold put_backward, store. simpl. by rewrite E. Qed.

(** *** [find] *)

Lemma hit_from k l y :
  StronglySorted key_lt l → y ∈ from k l → c_key y = k → hit k l = Some y.
Proof.
  intros Hs Hy Hk. pose proof (from_ge k l Hs) as Hge.
  assert (StronglySorted key_lt (from k l)) as Hs'.
  { rewrite <- (below_from k l) in Hs. by apply sorted_app_inv in Hs as (_ & ? & _). }
  unfold hit. destruct (from k l) as [|c r]; [by apply elem_of_nil in Hy|].
  apply elem_of_cons in Hy as [->|Hy]; [by rewrite decide_True|].
  apply StronglySorted_inv in Hs' as [_ Hc]. rewrite Forall_forall in Hc.
  specialize (Hc _ Hy). unfold key_lt in Hc. rewrite Hk in Hc.
  apply Forall_cons in Hge as [Hge _]. congruence.
Qed.

Lemma hit_Some k l y :
  hit k l = Some y → c_key y = k ∧ ∃ r, from k l = y :: r.
Proof.
  unfold hit. destruct (from k l) as [|c r]; [done|].
  case_decide; [|done]. intros [= <-]. eauto.
Qed.

Lemma find_forward_spec (h : heap_t) i k s2 :
  Forall (λ c, ltb (c_key c) k = false) s2 →
  ∀ s1 prev c fuel,
    repr h prev (s1 ++ s2) nobody →
    get_forward h c i = Some (next_at i (s1 ++ s2)) →
    Forall (λ c, ltb (c_key c) k = true) s1 →
    (length s1 < fuel)%nat →
    find_forward fuel h i k c = Some (pred_at i c s1).
Proof.
  intros Hge. induction s1 as [|x r IH]; intros prev c fuel Hr Hg Hlt Hf.
  - destruct fuel as [|f]; [simpl in Hf; lia|]. simpl in *. rewrite Hg. simpl.
    destruct (next_at i s2) as [a|] eqn:E; [|done].
    apply next_at_Some in E as (y & Hy & <- & _). rewrite ?deref_Some.
    destruct (repr_elem _ _ _ _ _ Hr Hy) as (p & s & ->). simpl.
    rewrite Forall_forall in Hge. by rewrite (Hge _ Hy).
  - simpl in Hr. destruct Hr as [Hx Hr]. apply Forall_cons in Hlt as [Hxk Hlt].
    simpl in Hg. simpl pred_at. case_decide as Hl.
    + destruct fuel as [|f]; [simpl in Hf; lia|]. simpl. rewrite Hg. simpl.
      rewrite ?deref_Some, Hx. simpl. rewrite Hxk. eapply IH; [done| |done|simpl in Hf; lia].
      erewrite get_forward_Some by done. simpl.
      by rewrite lookup_fwds, next_or_nobody.
    + eapply IH; [done|done|done|simpl in Hf; lia].
Qed.

(** What the outer loop of [find] leaves in [updates]. *)
Fixpoint set_preds (n : nat) (P : list cell) (updates : list ptr) : list ptr :=
  match n with
  | O => updates
  | S i => set_preds i P (<[i := pred_at i None P]> updates)
  end.

Lemma set_preds_lookup n P u j :
  (n ≤ length u)%nat →
  set_preds n P u !! j = if decide (j < n)%nat then Some (pred_at j None P) else u !! j.
Proof.
  revert u. induction n as [|i IH]; intros u Hn; simpl; [done|].
  rewrite IH by (rewrite length_insert; lia).
  destruct (decide (j = i)) as [->|Hne].
  - rewrite decide_False, decide_True by lia. rewrite list_lookup_insert_eq by lia. done.
  - rewrite list_lookup_insert_ne by done. repeat case_decide; try done; lia.
Qed.

Lemma length_set_preds n P u : length (set_preds n P u) = length u.
Proof. revert u. induction n as [|i IH]; intros u; simpl; [done|]. by rewrite IH, length_insert. Qed.

Lemma suffix_below k hd l pre x suf :
  hcell hd :: below k l = pre ++ x :: suf → ∃ p, below k l = p ++ suf.
Proof.
  destruct pre as [|c pre]; simpl; intros [= _ E]; [by exists []|].
  exists (pre ++ [x]). by rewrite <- app_assoc.
Qed.

Lemma find_loop_spec (h : heap_t) k hd l :
  repr h None (hcell hd :: l) nobody →
  StronglySorted key_lt l →
  Forall (λ c, 1 ≤ c_lvl c)%nat l →
  (length l ≤ length h)%nat →
  ∀ n pre x suf found node updates,
    hcell hd :: below k l = pre ++ x :: suf →
    (n ≤ c_lvl x)%nat →
    find_loop n h k (Some (c_addr x)) found node updates =
      Some (match hit k l with
            | Some y => if decide (0 < n)%nat then (true, Some (c_addr y)) else (found, node)
            | None => (found, node)
            end, set_preds n (hcell hd :: below k l) updates).
Proof.
  intros Hr Hs Hlv Hlen. pose proof (from_ge k l Hs) as Hge.
  pose proof (below_lt k l) as Hlt.
  assert (∀ pre x suf, hcell hd :: below k l = pre ++ x :: suf →
    repr h (Some (c_addr x)) (suf ++ from k l) nobody ∧
    ∃ p, h !! c_addr x = Some (node_of p x (suf ++ from k l) nobody)) as Hdec.
  { intros pre x suf Hd.
    assert (repr h None (pre ++ x :: (suf ++ from k l)) nobody) as Hr'.
    { replace (pre ++ x :: (suf ++ from k l))
        with ((pre ++ x :: suf) ++ from k l) by (by rewrite <- !app_assoc).
      rewrite <- Hd. simpl. by rewrite below_from. }
    apply repr_app in Hr' as [_ [Hpx Hr']]. eauto. }
  induction n as [|i IH]; intros pre x suf found node updates Hd Hx.
  { simpl. by destruct (hit k l). }
  cbn [find_loop].
  destruct (Hdec _ _ _ Hd) as [Hrx [px Hhx]].
  (* the inner loop stops at the predecessor at level [i] *)
  assert (find_forward (S (length h)) h i k (Some (c_addr x))
          = Some (pred_at i None (hcell hd :: below k l))) as ->.
  { destruct (suffix_below _ _ _ _ _ _ Hd) as [p Hp].
    rewrite (find_forward_spec h i k (from k l) Hge suf (Some (c_addr x)) (Some (c_addr x))).
    - f_equal. rewrite Hd, pred_at_app. simpl. rewrite decide_True by lia. done.
    - exact Hrx.
    - erewrite get_forward_Some by done. simpl.
      by rewrite lookup_fwds, next_or_nobody by lia.
    - rewrite Hp in Hlt. by apply Forall_app in Hlt as [_ ?].
    - rewrite <- (below_from k l), Hp, !length_app in Hlen. lia. }
  destruct (pred_at_split i None _ _ _ _ Hd ltac:(lia)) as (pre' & y & suf' & Hd' & Hy & Hn & Hpa).
  destruct (Hdec _ _ _ Hd') as [Hry [py Hhy]].
  cbn [set_preds]. rewrite Hpa. cbn [mbind option_bind].
  erewrite get_forward_Some by done. cbn [forward node_of].
  rewrite lookup_fwds by done. cbn [mbind option_bind].
  rewrite next_or_nobody, next_at_app, Hn.
  (* the outcome of the test at this level *)
  match goal with |- ?m ≫= _ = _ =>
    assert (m = Some (match hit k l with
                | Some z => if decide (i < c_lvl z)%nat
                            then (true, Some (c_addr z)) else (found, node)
                | None => (found, node)
                end)) as Htest end.
  { destruct (hit k l) as [z|] eqn:Hz.
    - apply hit_Some in Hz as [Hzk [r Hzr]]. rewrite Hzr. simpl.
      destruct (decide (i < c_lvl z)%nat) as [Hl|Hl].
      + rewrite ?deref_Some. rewrite Hzr in Hry.
        apply repr_app in Hry as [_ [Hz _]]. rewrite Hz. simpl.
        by rewrite decide_True.
      + destruct (next_at i r) as [a|] eqn:Ha; [|done].
        apply next_at_Some in Ha as (w & Hw & <- & Hwl).
        assert (w ∈ from k l) as Hw' by (rewrite Hzr; by right).
        assert (w ∈ suf' ++ from k l) as Hw'' by (apply elem_of_app; by right).
        destruct (repr_elem _ _ _ _ _ Hry Hw'') as (p & t & Hhw).
        rewrite ?deref_Some, Hhw. simpl.
        destruct (decide (c_key w = k)) as [Hwk|Hwk]; [|done].
        pose proof (hit_from _ _ _ Hs Hw' Hwk) as Hhit. unfold hit in Hhit.
        rewrite Hzr, decide_True in Hhit by done. injection Hhit as ->. lia.
    - destruct (next_at i (from k l)) as [a|] eqn:Ha; [|done].
      apply next_at_Some in Ha as (w & Hw & <- & _).
      assert (w ∈ suf' ++ from k l) as Hw'' by (apply elem_of_app; by right).
      destruct (repr_elem _ _ _ _ _ Hry Hw'') as (p & t & Hhw).
      rewrite ?deref_Some, Hhw. simpl.
      destruct (decide (c_key w = k)) as [Hwk|Hwk]; [|done].
      pose proof (hit_from _ _ _ Hs Hw Hwk) as Hhit. congruence. }
  rewrite Htest. cbn [mbind option_bind].
  destruct (hit k l) as [z|] eqn:Hz.
  - assert (1 ≤ c_lvl z)%nat as Hzl.
    { apply hit_Some in Hz as [_ [r Hr']]. rewrite Forall_forall in Hlv. apply Hlv.
      rewrite <- (below_from k l), Hr'. apply elem_of_app. right. by left. }
    destruct (decide (i < c_lvl z)%nat);
      rewrite (IH pre' y suf') by (done || lia); do 2 f_equal;
      repeat case_decide; done || lia.
  - by rewrite (IH pre' y suf') by (done || lia).
Qed.

(** The result of [find] in terms of the cells. *)
Definition preds (k : K) (hd : addr) (l : list cell) : list ptr :=
  (λ j, pred_at j None (hcell hd :: below k l)) <$> seq 0 (Z.to_nat MaxLevel).

Definition found_of (o : option cell) : bool * ptr :=
  match o with
  | Some y => (true, Some (c_addr y))
  | None => (false, None)
  end.

Lemma lookup_preds k hd l j :
  (j < Z.to_nat MaxLevel)%nat →
  preds k hd l !! j = Some (pred_at j None (hcell hd :: below k l)).
Proof.
  intros Hj. unfold preds. by rewrite list_lookup_fmap, lookup_seq_lt by done.
Qed.

Lemma Inv_length_le s hd l : Inv s hd l → (length l < length (heap s))%nat.
Proof.
  intros HI. pose proof (repr_length _ _ _ _ (inv_repr _ _ _ HI)) as Hl.
  simpl in Hl. pose proof (inv_nodup _ _ _ HI). specialize (Hl ltac:(done)). lia.
Qed.

Lemma Inv_lvl_ge s hd l : Inv s hd l → Forall (λ c, 1 ≤ c_lvl c)%nat l.
Proof. intros HI. eapply Forall_impl; [apply (inv_lvl _ _ _ HI)|]. simpl. lia. Qed.

Lemma find_spec s hd l k :
  Inv s hd l → find k s = Some (found_of (hit k l), preds k hd l).
Proof.
  intros HI. unfold find. rewrite (inv_header _ _ _ HI).
  pose proof (Inv_length_le _ _ _ HI).
  rewrite (find_loop_spec (heap s) k hd l (inv_repr _ _ _ HI) (inv_sorted _ _ _ HI)
             (Inv_lvl_ge _ _ _ HI) ltac:(lia) _ [] (hcell hd) (below k l)); [|done|done].
  reflexivity.
Qed.

(** *** Updates of forward pointers *)

Lemma for_loop_inv {St} (P : nat → St → Prop) (body : nat → St → option St) cnt :
  ∀ i s,
  P i s →
  (∀ j s, (i ≤ j < i + cnt)%nat → P j s → ∃ s', body j s = Some s' ∧ P (S j) s') →
  ∃ s', for_loop i cnt body s = Some s' ∧ P (i + cnt)%nat s'.
Proof.
  induction cnt as [|cnt IH]; intros i s HP Hstep; simpl.
  - exists s. by rewrite Nat.add_0_r.
  - destruct (Hstep i s ltac:(lia) HP) as (s' & -> & HP'). simpl.
    destruct (IH (S i) s' HP') as (s'' & E & HP'').
    + intros j t Hj. apply Hstep. lia.
    + exists s''. split; [done|]. by replace (i + S cnt)%nat with (S i + cnt)%nat by lia.
Qed.

Lemma app_cons_cases {A} (pre pre' suf suf' : list A) x y :
  pre ++ y :: suf = pre' ++ x :: suf' →
  (pre = pre' ∧ y = x ∧ suf = suf') ∨
  (∃ m, pre = pre' ++ x :: m ∧ suf' = m ++ y :: suf) ∨
  (∃ m, pre' = pre ++ y :: m ∧ suf = m ++ x :: suf').
Proof.
  revert pre'. induction pre as [|a pre IH]; intros [|b pre']; simpl; intros [= -> E].
  - by left.
  - right; right. by exists pre'.
  - right; left. by exists pre.
  - destruct (IH _ E) as [(-> & -> & ->)|[(m & -> & ->)|(m & -> & ->)]].
    + by left.
    + right; left. by exists m.
    + right; right. by exists m.
Qed.

Lemma repr_intro h prev L nx :
  (∀ pre x suf, L = pre ++ x :: suf →
     h !! c_addr x = Some (node_of (last_ptr prev pre) x suf nx)) →
  repr h prev L nx.
Proof.
  revert prev. induction L as [|c r IH]; intros prev Hp; simpl; [done|]. split.
  - by apply (Hp []).
  - apply IH. intros pre x suf ->. by apply (Hp (c :: pre)).
Qed.

Definition upd (nx : nat → ptr) (j : nat) (q : ptr) : nat → ptr :=
  λ i, if decide (i = j) then q else nx i.

(** Writing [q] into the level-[j] pointer of the last cell of the segment
    that takes part in level [j] changes what follows the segment there. *)
Lemma repr_put_forward h prev P nx j q pre y suf :
  repr h prev P nx → NoDup (c_addr <$> P) →
  P = pre ++ y :: suf → (j < c_lvl y)%nat → next_at j suf = None →
  ∃ h', put_forward h (Some (c_addr y)) j q = Some h' ∧
        repr h' prev P (upd nx j q) ∧ length h' = length h ∧
        ∀ a, a ≠ c_addr y → h' !! a = h !! a.
Proof.
  intros Hr Hnd -> Hj Hn. pose proof (repr_lookup _ _ _ _ _ _ Hr) as Hy.
  erewrite put_forward_Some; [|done|simpl; by rewrite length_fwds].
  eexists. split; [done|]. split_and!.
  - apply repr_intro. intros pre' x suf' Hd.
    destruct (app_cons_cases _ _ _ _ _ _ Hd) as [(-> & -> & ->)|[(m & -> & ->)|(m & -> & ->)]].
    + rewrite list_lookup_insert_eq by by eapply lookup_lt_Some.
      f_equal. unfold set_forward, node_of. simpl. f_equal.
      apply list_eq. intros i. destruct (decide (i = j)) as [->|Hne].
      * rewrite list_lookup_insert_eq by by rewrite length_fwds.
        rewrite lookup_fwds by done. unfold next_or, upd. rewrite Hn.
        by rewrite decide_True.
      * rewrite list_lookup_insert_ne by done. destruct (decide (i < c_lvl x)%nat).
        -- rewrite !lookup_fwds by done. unfold next_or, upd. by rewrite decide_False.
        -- rewrite !lookup_ge_None_2; [done|rewrite length_fwds; lia|rewrite length_fwds; lia].
    + (* [x] comes before [y] *)
      assert (c_addr x ≠ c_addr y) as Hne.
      { rewrite <- app_assoc in Hnd. simpl in Hnd. rewrite fmap_app in Hnd.
        apply NoDup_app in Hnd as (_ & _ & Hnd). rewrite fmap_cons in Hnd.
        apply NoDup_cons in Hnd as [Hnd _]. intros E. apply Hnd. rewrite E.
        apply list_elem_of_fmap. exists y. split; [done|]. apply elem_of_app. right. by left. }
      rewrite list_lookup_insert_ne by done.
      rewrite <- app_assoc in Hr. simpl in Hr. rewrite (repr_lookup _ _ _ _ _ _ Hr).
      f_equal. unfold node_of. f_equal. apply fwds_ext. intros i Hi.
      unfold next_or, upd. rewrite !next_at_app. simpl.
      destruct (next_at i m); [done|].
      destruct (decide (i < c_lvl y)%nat); [done|].
      destruct (next_at i suf); [done|]. rewrite decide_False; [done|lia].
    + (* [x] comes after [y] *)
      assert (c_addr x ≠ c_addr y) as Hne.
      { rewrite fmap_app in Hnd. apply NoDup_app in Hnd as (_ & _ & Hnd).
        rewrite fmap_cons in Hnd. apply NoDup_cons in Hnd as [Hnd _].
        intros E. apply Hnd. rewrite <- E.
        apply list_elem_of_fmap. exists x. split; [done|]. apply elem_of_app. right. by left. }
      rewrite list_lookup_insert_ne by done.
      replace (pre ++ y :: m ++ x :: suf') with ((pre ++ y :: m) ++ x :: suf') in Hr
        by (by rewrite <- app_assoc).
      rewrite (repr_lookup _ _ _ _ _ _ Hr).
      f_equal. unfold node_of. f_equal. apply fwds_ext. intros i Hi.
      unfold next_or, upd. destruct (next_at i suf'); [done|].
      case_decide as E; [|done]. subst i.
      apply next_at_None in Hn. apply Forall_app in Hn as [_ Hn].
      apply Forall_cons in Hn as [Hn _]. lia.
  - by rewrite length_insert.
  - intros a Ha. by rewrite list_lookup_insert_ne.
Qed.

Lemma fwds_snoc j l2 (m : nat) :
  <[j := next_at j l2]> (fwds j l2 nobody ++ replicate (S m) None)
  = fwds (S j) l2 nobody ++ replicate m None.
Proof.
  apply list_eq. intros i. destruct (decide (i = j)) as [->|Hne].
  - rewrite list_lookup_insert_eq by (rewrite length_app, length_fwds; simpl; lia).
    rewrite lookup_app_l by (rewrite length_fwds; lia).
    by rewrite lookup_fwds, next_or_nobody by lia.
  - rewrite list_lookup_insert_ne by done. destruct (decide (i < j)%nat).
    + rewrite !lookup_app_l by (rewrite length_fwds; lia).
      by rewrite !lookup_fwds by lia.
    + rewrite !lookup_app_r by (rewrite length_fwds; lia). rewrite !length_fwds.
      destruct (decide (i - j < S m)%nat).
      * rewrite !lookup_replicate_2 by lia. done.
      * rewrite !lookup_ge_None_2; [done|rewrite length_replicate; lia|rewrite length_replicate; lia].
Qed.

(** The splice loop of [Put], started on a heap where the new node [n] is
    allocated with empty links. *)
Lemma Put_splice_loop (h0 : heap_t) P l2 n k v rl updates :
  repr h0 None P (λ i, next_at i l2) →
  NoDup (c_addr <$> P) →
  (∀ x, x ∈ P → c_addr x ≠ n) →
  h0 !! n = Some (mkNode k v rl (replicate (Z.to_nat rl) None) None) →
  (∀ j, (j < Z.to_nat rl)%nat →
     updates !! j = Some (pred_at j None P) ∧
     ∃ pre y suf, P = pre ++ y :: suf ∧ (j < c_lvl y)%nat ∧ next_at j suf = None ∧
       pred_at j None P = Some (c_addr y)) →
  ∃ h2, for_loop 0 (Z.to_nat rl) (Put_splice (Some n) updates) h0 = Some h2 ∧
    repr h2 None P (λ i, if decide (i < Z.to_nat rl)%nat then Some n else next_at i l2) ∧
    h2 !! n = Some (mkNode k v rl (fwds (Z.to_nat rl) l2 nobody) None) ∧
    length h2 = length h0 ∧
    (∀ a, a ≠ n → (∀ x, x ∈ P → a ≠ c_addr x) → h2 !! a = h0 !! a).
Proof.
  intros Hr Hnd Hfresh Hn Hup.
  pose (I := λ (j : nat) (h : heap_t),
    repr h None P (λ i, if decide (i < j)%nat then Some n else next_at i l2) ∧
    h !! n = Some (mkNode k v rl
               (fwds j l2 nobody ++ replicate (Z.to_nat rl - j) None) None) ∧
    length h = length h0 ∧
    (∀ a, a ≠ n → (∀ x, x ∈ P → a ≠ c_addr x) → h !! a = h0 !! a)).
  destruct (for_loop_inv I (Put_splice (Some n) updates) (Z.to_nat rl) 0 h0)
    as (h2 & E & HI).
  - unfold I. split_and!; [|by rewrite Nat.sub_0_r|done|done].
    eapply repr_nx; [|done]. intros i. by rewrite decide_False by lia.
  - intros j h Hj (Hrj & Hnj & Hlen & Hoth).
    destruct (Hup j ltac:(lia)) as (Hu & pre & y & suf & HP & Hy & Hsuf & Hpy).
    unfold Put_splice. rewrite Hu, Hpy. simpl.
    assert (y ∈ P) as HyP by (rewrite HP; apply elem_of_app; right; by left).
    pose proof Hrj as Hyh. rewrite HP in Hyh. apply repr_lookup in Hyh.
    erewrite get_forward_Some by done. simpl. rewrite lookup_fwds by done. simpl.
    unfold next_or at 1. rewrite Hsuf, decide_False by lia.
    erewrite put_forward_Some; [|done|]; last first.
    { simpl. rewrite length_app, length_fwds, length_replicate. lia. }
    simpl.
    match goal with |- context [put_forward ?h' _ _ _] => set (h1 := h') end.
    assert (repr h1 None P (λ i, if decide (i < j)%nat then Some n else next_at i l2)) as Hr1.
    { eapply repr_ext; [|done]. intros x Hx. unfold h1.
      rewrite list_lookup_insert_ne; [done|]. intros E. by apply (Hfresh x). }
    destruct (repr_put_forward h1 None P _ j (Some n) pre y suf Hr1 Hnd HP Hy Hsuf)
      as (h' & -> & Hr' & Hlen' & Hoth').
    exists h'. split; [done|]. unfold I. split_and!.
    + eapply repr_nx; [|done]. intros i. unfold upd.
      destruct (decide (i = j)) as [->|]; [by rewrite decide_True by lia|].
      destruct (decide (i < j)%nat); [by rewrite decide_True by lia|by rewrite decide_False by lia].
    + rewrite Hoth' by (intros E; by apply (Hfresh y)). unfold h1.
      rewrite list_lookup_insert_eq by by eapply lookup_lt_Some.
      unfold set_forward. simpl. do 2 f_equal.
      replace (Z.to_nat rl - j)%nat with (S (Z.to_nat rl - S j)) by lia.
      apply fwds_snoc.
    + rewrite Hlen'. unfold h1. by rewrite length_insert.
    + intros a Han HaP. rewrite Hoth' by by apply HaP. unfold h1.
      rewrite list_lookup_insert_ne by done. by apply Hoth.
  - exists h2. split; [done|]. destruct HI as (H1 & H2 & H3 & H4). simpl in *.
    split_and!; try done. rewrite H2. by rewrite Nat.sub_diag, app_nil_r.
Qed.

(** *** Facts about the invariant *)

Lemma Inv_addr_lt s hd l x :
  Inv s hd l → x ∈ hcell hd :: l → (c_addr x < length (heap s))%nat.
Proof. intros HI Hx. eapply repr_lt; [apply (inv_repr _ _ _ HI)|done]. Qed.

Lemma from_gt k l :
  StronglySorted key_lt l → hit k l = None →
  Forall (λ z, ltb k (c_key z) = true) (from k l).
Proof.
  intros Hs Hh. pose proof (from_ge k l Hs) as Hge. apply Forall_forall. intros z Hz.
  rewrite Forall_forall in Hge. specialize (Hge _ Hz).
  destruct (ltb k (c_key z)) eqn:E; [done|].
  pose proof (ltb_total _ _ Hge E) as Hk.
  pose proof (hit_from k l z Hs Hz Hk). congruence.
Qed.

Lemma sorted_insert k l c :
  StronglySorted key_lt l → hit k l = None → c_key c = k →
  StronglySorted key_lt (below k l ++ c :: from k l).
Proof.
  intros Hs Hh Hc. pose proof Hs as Hs'. rewrite <- (below_from k l) in Hs'.
  apply sorted_app_inv in Hs' as (Hb & Hf & Hbf).
  apply sorted_app; [done| |].
  - constructor; [done|]. eapply Forall_impl; [by apply from_gt|].
    intros z Hz. unfold key_lt. by rewrite Hc.
  - intros a b Ha [->|Hb']%elem_of_cons; [|by apply Hbf].
    pose proof (below_lt k l) as Hlt. rewrite Forall_forall in Hlt.
    unfold key_lt. rewrite Hc. by apply Hlt.
Qed.

Lemma preds_split k hd l j :
  (j < Z.to_nat MaxLevel)%nat →
  preds k hd l !! j = Some (pred_at j None (hcell hd :: below k l)) ∧
  ∃ pre y suf, hcell hd :: below k l = pre ++ y :: suf ∧ (j < c_lvl y)%nat ∧
    next_at j suf = None ∧ pred_at j None (hcell hd :: below k l) = Some (c_addr y).
Proof.
  intros Hj. split; [by apply lookup_preds|].
  by apply (pred_at_split j None _ [] (hcell hd) (below k l)).
Qed.

Lemma Inv_split s hd l k :
  Inv s hd l →
  repr (heap s) None (hcell hd :: below k l) (λ i, next_at i (from k l)) ∧
  repr (heap s) (last_ptr (Some hd) (below k l)) (from k l) nobody.
Proof.
  intros HI. pose proof (inv_repr _ _ _ HI) as Hr.
  rewrite <- (below_from k l) in Hr.
  apply (repr_app _ _ (hcell hd :: below k l)) in Hr as [H1 H2]. split; [|done].
  eapply repr_nx; [|done]. intros i. apply next_or_nobody.
Qed.

Lemma Inv_zero_length s hd l : Inv s hd l → sl_length (sl s) = 0 ↔ l = [].
Proof.
  intros HI. rewrite (inv_length _ _ _ HI). destruct l; simpl; [done|]. split; [lia|done].
Qed.

(** *** [Put]: insertion of a key that is not stored *)

Lemma Put_insert_spec s hd l rl k v :
  Inv s hd l → l ≠ [] → hit k l = None → 1 ≤ rl ≤ MaxLevel →
  Z.of_nat (length l) < MaxInt →
  ∃ s', Put rl k v s = Some s' ∧
    Inv s' hd (below k l ++ mkCell (length (heap s)) k v (Z.to_nat rl) :: from k l) ∧
    length (heap s') = S (length (heap s)).
Proof.
  intros HI Hne Hhit Hrl Hfit. set (n := length (heap s)).
  set (c := mkCell n k v (Z.to_nat rl)).
  destruct (Inv_split _ _ _ k HI) as [HrP Hr2].
  set (P := hcell hd :: below k l) in *.
  unfold Put. rewrite decide_False by by rewrite (Inv_zero_length _ _ _ HI).
  rewrite (find_spec _ _ _ k HI), Hhit. simpl.
  unfold make. rewrite decide_True by lia. simpl.
  set (h1 := heap s ++ [mkNode k v rl (replicate (Z.to_nat rl) None) None]).
  assert (∀ x, x ∈ hcell hd :: l → c_addr x ≠ n) as Hfresh.
  { intros x Hx. pose proof (Inv_addr_lt _ _ _ _ HI Hx). unfold n. lia. }
  assert (∀ x, x ∈ hcell hd :: l → h1 !! c_addr x = heap s !! c_addr x) as Hh1.
  { intros x Hx. pose proof (Inv_addr_lt _ _ _ _ HI Hx). unfold h1.
    by rewrite lookup_app_l. }
  assert (P ++ from k l = hcell hd :: l) as HPl.
  { unfold P. simpl. by rewrite below_from. }
  assert (NoDup (c_addr <$> P ++ from k l)) as Hnd.
  { rewrite HPl. apply (inv_nodup _ _ _ HI). }
  fold n.
  destruct (Put_splice_loop h1 P (from k l) n k v rl (preds k hd l)) as (h2 & -> & Hr2P & Hn2 & Hlen2 & Hoth2).
  { eapply repr_ext; [|done]. intros x Hx. apply Hh1. rewrite <- HPl.
    apply elem_of_app. by left. }
  { rewrite fmap_app in Hnd. by apply NoDup_app in Hnd as [? _]. }
  { intros x Hx. apply Hfresh. rewrite <- HPl. apply elem_of_app. by left. }
  { unfold h1, n. by rewrite list_lookup_middle. }
  { intros j Hj. apply preds_split. unfold MaxLevel in *. lia. }
  cbn [mbind option_bind].
  erewrite put_backward_Some by exact Hn2. cbn [mbind option_bind].
  assert (n < length h2)%nat as Hnlt by by eapply lookup_lt_Some.
  erewrite get_forward_Some by by apply list_lookup_insert_eq.
  cbn [set_backward forward]. rewrite lookup_fwds by lia.
  rewrite next_or_nobody. cbn [mbind option_bind].
  assert (Forall (λ c, 1 ≤ c_lvl c)%nat (below k l) ∧
          Forall (λ c, 1 ≤ c_lvl c)%nat (from k l)) as [Hlb Hlf].
  { apply Forall_app. rewrite below_from. by eapply Inv_lvl_ge. }
  rewrite (pred_at_0 _ _ Hlb), (next_at_0 _ Hlf).
  match goal with |- context [<[n := ?nd]> h2] =>
    replace nd with (node_of (last_ptr None P) c (from k l) nobody)
      by (unfold node_of, set_backward, c; simpl; rewrite Z2Nat.id by lia; done)
  end.
  set (h3 := <[n := node_of (last_ptr None P) c (from k l) nobody]> h2).
  assert (∀ x, x ∈ P → h3 !! c_addr x = h2 !! c_addr x) as HP3.
  { intros x Hx. unfold h3. rewrite list_lookup_insert_ne; [done|].
    intros E. apply (Hfresh x); [|done]. rewrite <- HPl. apply elem_of_app. by left. }
  assert (repr h3 None P (λ i, next_or nobody i (c :: from k l))) as F1.
  { eapply repr_ext; [exact HP3|]. eapply repr_nx; [|done].
    intros i. unfold next_or, nobody. simpl.
    destruct (decide (i < Z.to_nat rl)%nat); [done|]. by destruct (next_at i (from k l)). }
  assert (h3 !! n = Some (node_of (last_ptr None P) c (from k l) nobody)) as F2.
  { unfold h3. by rewrite list_lookup_insert_eq. }
  assert (∀ x, x ∈ from k l → h3 !! c_addr x = heap s !! c_addr x) as F3.
  { intros x Hx.
    assert (x ∈ hcell hd :: l) as Hxl by (rewrite <- HPl; apply elem_of_app; by right).
    unfold h3. rewrite list_lookup_insert_ne by (intros E; by apply (Hfresh x)).
    rewrite Hoth2; [by apply Hh1|by apply Hfresh|].
    intros y Hy E. rewrite fmap_app in Hnd. apply NoDup_app in Hnd as (_ & Hnd & _).
    apply (Hnd (c_addr y)); [|rewrite <- E]; apply list_elem_of_fmap; eauto. }
  (* the fields of the invariant that do not depend on the heap *)
  assert (NoDup (hd :: (c_addr <$> below k l ++ c :: from k l))) as Hnd'.
  { rewrite <- Permutation_middle. rewrite fmap_cons, below_from.
    rewrite (Permutation_swap (c_addr c) hd). apply NoDup_cons. split; [|apply (inv_nodup _ _ _ HI)].
    intros [E|(x & E & Hx)%list_elem_of_fmap]%elem_of_cons.
    - apply (Hfresh (hcell hd)); [by left|done].
    - apply (Hfresh x); [by right|done]. }
  assert (Forall (λ c, 1 ≤ c_lvl c ≤ Z.to_nat MaxLevel)%nat
            (below k l ++ c :: from k l)) as Hlvl'.
  { pose proof (inv_lvl _ _ _ HI) as Hl. rewrite <- (below_from k l) in Hl.
    apply Forall_app in Hl as [? ?]. apply Forall_app. split; [done|].
    constructor; [|done]. simpl. unfold MaxLevel in *. lia. }
  assert (length (below k l ++ c :: from k l) = S (length l)) as Hlen'.
  { pose proof (f_equal length (below_from k l)) as E.
    rewrite length_app in *. simpl. lia. }
  pose proof (sorted_insert k l c (inv_sorted _ _ _ HI) Hhit eq_refl) as Hs'.
  pose proof (inv_tail _ _ _ HI) as Htl. rewrite <- (below_from k l) in Htl.
  assert (length h3 = S (length (heap s))) as Hlen3.
  { unfold h3. rewrite length_insert, Hlen2. unfold h1. rewrite length_app. simpl. lia. }
  assert (wrap (sl_length (sl s) + 1) = Z.of_nat (S (length l))) as Hw.
  { rewrite (inv_length _ _ _ HI), wrap_small; unfold MinInt, MaxInt in *; lia. }
  destruct (from k l) as [|z r] eqn:Hfrom; simpl.
  - eexists. split; [done|]. split; [|done]. constructor; simpl; try done.
    + apply (inv_header _ _ _ HI).
    + apply (repr_app _ _ P [c]). split; [exact F1|]. simpl. by split.
    + by rewrite Hw, Hlen'.
    + by rewrite last_snoc.
  - simpl in Hr2. destruct Hr2 as [Hz Hr2].
    erewrite put_backward_Some by (rewrite F3 by (by left); exact Hz).
    simpl. eexists. split; [done|]. split; [|simpl; by rewrite length_insert].
    constructor; simpl; try done.
    + apply (inv_header _ _ _ HI).
    + assert (c_addr z ≠ n) as Hzn.
      { apply Hfresh. rewrite <- HPl. apply elem_of_app. right. by left. }
      assert (∀ x, x ∈ P → c_addr x ≠ c_addr z) as HPz.
      { intros x Hx E. rewrite fmap_app in Hnd. apply NoDup_app in Hnd as (_ & Hnd & _).
        apply (Hnd (c_addr x)); [by apply list_elem_of_fmap_2|].
        rewrite E. apply list_elem_of_fmap_2. by left. }
      apply (repr_app _ _ P (c :: z :: r)). split.
      * eapply repr_ext; [|exact F1]. intros x Hx.
        rewrite list_lookup_insert_ne; [done|]. intros E. by apply (HPz x).
      * simpl. split_and!.
        -- by rewrite list_lookup_insert_ne.
        -- rewrite list_lookup_insert_eq; [done|].
           eapply lookup_lt_Some. rewrite F3 by by left. done.
        -- eapply repr_ext; [|exact Hr2]. intros x Hx.
           rewrite list_lookup_insert_ne.
           ++ apply F3. by right.
           ++ intros E. rewrite fmap_app in Hnd. apply NoDup_app in Hnd as (_ & _ & Hnd).
              rewrite fmap_cons in Hnd. apply NoDup_cons in Hnd as [Hnd _].
              apply Hnd. rewrite E. by apply list_elem_of_fmap_2.
    + by rewrite Hw, Hlen'.
    + rewrite last_app_cons in Htl. by rewrite last_app_cons, last_cons_cons.
Qed.

(** *** [Put]: the first key *)

Lemma Put_first_spec s hd rl k v :
  Inv s hd [] →
  ∃ s', Put rl k v s = Some s' ∧ Inv s' hd [mkCell (length (heap s)) k v 1] ∧
        length (heap s') = S (length (heap s)).
Proof.
  intros HI. set (n := length (heap s)). set (c := mkCell n k v 1).
  pose proof (inv_repr _ _ _ HI) as Hr. pose proof (Inv_addr_lt _ _ _ (hcell hd) HI ltac:(by left)) as Hlt.
  simpl in Hlt.
  unfold Put. rewrite decide_True by by rewrite (Inv_zero_length _ _ _ HI).
  simpl. rewrite (inv_header _ _ _ HI). fold n.
  set (h1 := heap s ++ [mkNode k v 1 [None] (Some hd)]).
  assert (repr h1 None [hcell hd] nobody) as Hr1.
  { eapply repr_ext; [|exact Hr]. intros x ->%list_elem_of_singleton. unfold h1.
    by rewrite lookup_app_l. }
  destruct (repr_put_forward h1 None [hcell hd] nobody 0 (Some n) [] (hcell hd) [])
    as (h2 & E & Hr2 & Hlen & Hoth); try done.
  { simpl. apply NoDup_singleton. }
  { simpl. unfold MaxLevel. lia. }
  simpl in E, Hoth. rewrite E.
  simpl. eexists. split; [done|]. split.
  2:{ simpl. rewrite Hlen. unfold h1. rewrite length_app. simpl. lia. }
  constructor; simpl; try done.
  - apply (repr_app _ _ [hcell hd] [c]). split.
    + eapply repr_nx; [|exact Hr2]. intros i. unfold upd, next_or, nobody. simpl.
      destruct (decide (i = 0)%nat) as [->|]; [done|]. by rewrite decide_False by lia.
    + simpl. split; [|done]. rewrite Hoth by lia. unfold h1, n.
      by rewrite list_lookup_middle.
  - apply NoDup_cons. split; [|apply NoDup_singleton].
    intros ->%list_elem_of_singleton. unfold n in *. lia.
  - repeat constructor.
  - repeat constructor; simpl; unfold MaxLevel; lia.
Qed.

(** *** [Put]: a key that is stored *)

Definition with_val (a : addr) (v : V) (c : cell) : cell :=
  if decide (c_addr c = a) then mkCell (c_addr c) (c_key c) v (c_lvl c) else c.

Lemma with_val_addr a v c : c_addr (with_val a v c) = c_addr c.
Proof. unfold with_val. by case_decide. Qed.
Lemma with_val_key a v c : c_key (with_val a v c) = c_key c.
Proof. unfold with_val. by case_decide. Qed.
Lemma with_val_lvl a v c : c_lvl (with_val a v c) = c_lvl c.
Proof. unfold with_val. by case_decide. Qed.

Lemma next_at_with_val a v i s : next_at i (with_val a v <$> s) = next_at i s.
Proof.
  induction s as [|c r IH]; [done|]. rewrite fmap_cons. cbn [next_at].
  by rewrite with_val_lvl, with_val_addr, IH.
Qed.

Lemma fmap_addr_with_val a v (l : list cell) :
  c_addr <$> (with_val a v <$> l) = c_addr <$> l.
Proof. rewrite <- list_fmap_compose. apply list_fmap_ext. intros _ c _. apply with_val_addr. Qed.

Lemma below_with_val a v k l : below k (with_val a v <$> l) = with_val a v <$> below k l.
Proof.
  induction l as [|c r IH]; [done|]. rewrite fmap_cons. cbn [below]. rewrite with_val_key.
  destruct (ltb _ _); [by rewrite fmap_cons, IH|done].
Qed.

Lemma from_with_val a v k l : from k (with_val a v <$> l) = with_val a v <$> from k l.
Proof.
  induction l as [|c r IH]; [done|]. rewrite fmap_cons. cbn [from]. rewrite with_val_key.
  destruct (ltb _ _); [by rewrite IH|by rewrite fmap_cons].
Qed.

Lemma sorted_with_val a v l :
  StronglySorted key_lt l → StronglySorted key_lt (with_val a v <$> l).
Proof.
  induction 1 as [|c r Hs IH Hc]; [constructor|]. rewrite fmap_cons.
  constructor; [done|].
  apply Forall_fmap. eapply Forall_impl; [exact Hc|]. intros x Hx.
  unfold key_lt in *. simpl. by rewrite !with_val_key.
Qed.

Lemma repr_set_value h prev L nx a n v :
  repr h prev L nx → h !! a = Some n →
  repr (<[a := set_value n v]> h) prev (with_val a v <$> L) nx.
Proof.
  intros Hr Ha. revert prev Hr. induction L as [|c r IH]; intros prev; [done|].
  rewrite fmap_cons. cbn [repr].
  intros [Hc Hr]. rewrite with_val_addr. split; [|by apply IH].
  assert (fwds (c_lvl (with_val a v c)) (with_val a v <$> r) nx = fwds (c_lvl c) r nx) as Hfw.
  { rewrite with_val_lvl. apply fwds_ext. intros i _. unfold next_or.
    by rewrite next_at_with_val. }
  unfold node_of. rewrite Hfw, with_val_key. unfold with_val.
  destruct (decide (c_addr c = a)) as [<-|Hne].
  - rewrite list_lookup_insert_eq by by eapply lookup_lt_Some.
    rewrite Hc in Ha. injection Ha as <-. done.
  - by rewrite list_lookup_insert_ne.
Qed.

Lemma hit_elem k l y : hit k l = Some y → y ∈ l.
Proof.
  intros [_ [r Hr]]%hit_Some. rewrite <- (below_from k l), Hr.
  apply elem_of_app. right. by left.
Qed.

Lemma Inv_lookup s hd l y :
  Inv s hd l → y ∈ l → ∃ p t, heap s !! c_addr y = Some (node_of p y t nobody).
Proof.
  intros HI Hy. eapply repr_elem; [apply (inv_repr _ _ _ HI)|by right].
Qed.

Lemma Put_update_spec s hd l rl k v y :
  Inv s hd l → hit k l = Some y →
  ∃ n, heap s !! c_addr y = Some n ∧ key n = k ∧
    Put rl k v s = Some (mkState (<[c_addr y := set_value n v]> (heap s)) (sl s)) ∧
    Inv (mkState (<[c_addr y := set_value n v]> (heap s)) (sl s)) hd
      (with_val (c_addr y) v <$> l).
Proof.
  intros HI Hhit. pose proof (hit_elem _ _ _ Hhit) as Hy.
  destruct (Inv_lookup _ _ _ _ HI Hy) as (p & t & Hn).
  eexists. split; [exact Hn|]. split; [by apply hit_Some in Hhit as [? _]|].
  split.
  - unfold Put. rewrite decide_False.
    + rewrite (find_spec _ _ _ k HI), Hhit. simpl. by rewrite Hn.
    + rewrite (Inv_zero_length _ _ _ HI). intros ->. by apply elem_of_nil in Hy.
  - assert (hd ≠ c_addr y) as Hhd.
    { pose proof (inv_nodup _ _ _ HI) as [Hnd _]%NoDup_cons. intros ->.
      apply Hnd. by apply list_elem_of_fmap_2. }
    constructor; simpl.
    + apply (inv_header _ _ _ HI).
    + pose proof (repr_set_value _ _ _ _ _ _ v (inv_repr _ _ _ HI) Hn) as Hr.
      rewrite fmap_cons in Hr.
      assert (with_val (c_addr y) v (hcell hd) = hcell hd) as Hw
        by (unfold with_val; simpl; by rewrite decide_False).
      by rewrite Hw in Hr.
    + rewrite fmap_addr_with_val. apply (inv_nodup _ _ _ HI).
    + apply sorted_with_val, (inv_sorted _ _ _ HI).
    + apply Forall_fmap. eapply Forall_impl; [apply (inv_lvl _ _ _ HI)|].
      intros x Hx. simpl. by rewrite with_val_lvl.
    + rewrite length_fmap. apply (inv_length _ _ _ HI).
    + rewrite fmap_last. pose proof (inv_tail _ _ _ HI) as Ht.
      destruct (last l); simpl; [|done]. by rewrite with_val_addr.
Qed.

(** *** [Del] *)

(** The unlink loop of [Del] for the cell [y], which is followed by [r]. *)
Lemma Del_unlink_loop (h0 : heap_t) P y r py updates :
  repr h0 None P (λ i, next_at i (y :: r)) →
  NoDup (c_addr <$> P) →
  (∀ x, x ∈ P → c_addr x ≠ c_addr y) →
  h0 !! c_addr y = Some (node_of py y r nobody) →
  (∀ j, (j < c_lvl y)%nat →
     updates !! j = Some (pred_at j None P) ∧
     ∃ pre x suf, P = pre ++ x :: suf ∧ (j < c_lvl x)%nat ∧ next_at j suf = None ∧
       pred_at j None P = Some (c_addr x)) →
  ∃ h2, for_loop 0 (c_lvl y) (Del_unlink (Some (c_addr y)) updates) h0 = Some h2 ∧
    repr h2 None P (λ i, next_at i r) ∧
    length h2 = length h0 ∧
    (∀ a, (∀ x, x ∈ P → a ≠ c_addr x) → h2 !! a = h0 !! a).
Proof.
  intros Hr Hnd Hfresh Hy Hup.
  pose (I := λ (j : nat) (h : heap_t),
    repr h None P (λ i, if decide (i < j)%nat then next_at i r else next_at i (y :: r)) ∧
    length h = length h0 ∧
    (∀ a, (∀ x, x ∈ P → a ≠ c_addr x) → h !! a = h0 !! a)).
  destruct (for_loop_inv I (Del_unlink (Some (c_addr y)) updates) (c_lvl y) 0 h0)
    as (h2 & E & HI).
  - unfold I. split_and!; [|done|done].
    eapply repr_nx; [|done]. intros i. by rewrite decide_False by lia.
  - intros j h Hj (Hrj & Hlen & Hoth).
    destruct (Hup j ltac:(lia)) as (Hu & pre & x & suf & HP & Hx & Hsuf & Hpx).
    unfold Del_unlink. rewrite Hu, Hpx. simpl.
    erewrite get_forward_Some; last first.
    { rewrite Hoth; [exact Hy|]. intros z Hz E. by apply (Hfresh z). }
    simpl. rewrite lookup_fwds by lia. simpl. rewrite next_or_nobody.
    destruct (repr_put_forward h None P _ j (next_at j r) pre x suf Hrj Hnd HP Hx Hsuf)
      as (h' & -> & Hr' & Hlen' & Hoth').
    exists h'. split; [done|]. unfold I. split_and!.
    + eapply repr_nx; [|done]. intros i. unfold upd.
      destruct (decide (i = j)) as [->|]; [by rewrite decide_True by lia|].
      destruct (decide (i < j)%nat); [by rewrite decide_True by lia|by rewrite decide_False by lia].
    + by rewrite Hlen'.
    + intros a HaP. rewrite Hoth'; [by apply Hoth|]. apply HaP. rewrite HP.
      apply elem_of_app. right. by left.
  - exists h2. split; [done|]. destruct HI as (H1 & H2 & H3). simpl in *.
    split_and!; try done. eapply repr_nx; [|done]. intros i. simpl.
    repeat case_decide; done || lia.
Qed.

Lemma Del_absent_spec s hd l k :
  Inv s hd l → hit k l = None → Del k s = Some (s, KeyNotFound).
Proof. intros HI Hhit. unfold Del. by rewrite (find_spec _ _ _ k HI), Hhit. Qed.

Lemma Del_finish s hd l k y r h1 tl py :
  Inv s hd l → from k l = y :: r →
  repr h1 None (hcell hd :: below k l) (λ i, next_at i (y :: r)) →
  h1 !! c_addr y = Some (node_of py y r nobody) →
  repr h1 (last_ptr (Some hd) (below k l)) r nobody →
  length h1 = length (heap s) →
  match last (below k l ++ r) with
  | Some c => tl = Some (c_addr c)
  | None => tl = None ∨ tl = Some hd
  end →
  Z.of_nat (length l) ≤ MaxInt + 1 →
  ∃ h2, for_loop 0 (c_lvl y) (Del_unlink (Some (c_addr y)) (preds k hd l)) h1 = Some h2 ∧
    Inv (mkState h2 (mkSkiplist (header (sl s)) tl (sl_level (sl s))
                       (wrap (sl_length (sl s) - 1))))
      hd (below k l ++ r) ∧
    length h2 = length (heap s).
Proof.
  intros HI Hfrom HrP Hy Hr Hlen Htl Hfit.
  set (P := hcell hd :: below k l) in *.
  assert (P ++ y :: r = hcell hd :: l) as HPl.
  { unfold P. simpl. by rewrite <- Hfrom, below_from. }
  assert (NoDup (c_addr <$> P ++ y :: r)) as Hnd.
  { rewrite HPl. apply (inv_nodup _ _ _ HI). }
  pose proof Hnd as Hnd0.
  rewrite fmap_app, fmap_cons in Hnd. apply NoDup_app in Hnd as (HndP & HPyr & Hndyr).
  apply NoDup_cons in Hndyr as [Hyr Hndr].
  assert (∀ x, x ∈ P → c_addr x ≠ c_addr y) as HPy.
  { intros x Hx E. apply (HPyr (c_addr x)); [by apply list_elem_of_fmap_2|].
    rewrite E. by left. }
  pose proof (inv_lvl _ _ _ HI) as Hlvl. rewrite <- (below_from k l), Hfrom in Hlvl.
  apply Forall_app in Hlvl as [Hlb Hlf]. apply Forall_cons in Hlf as [Hly Hlr].
  destruct (Del_unlink_loop h1 P y r py (preds k hd l) HrP HndP HPy Hy)
    as (h2 & E & Hr2P & Hlen2 & Hoth2).
  { intros j Hj. apply preds_split. lia. }
  exists h2. split; [done|]. split; [|lia]. constructor; simpl.
  - apply (inv_header _ _ _ HI).
  - apply (repr_app _ _ P r). split.
    + eapply repr_nx; [|done]. intros i. by rewrite next_or_nobody.
    + eapply repr_ext; [|exact Hr]. intros z Hz. apply Hoth2.
      intros x Hx E'. apply (HPyr (c_addr x)); [by apply list_elem_of_fmap_2|].
      rewrite <- E'. right. by apply list_elem_of_fmap_2.
  - change (NoDup (c_addr <$> P ++ r)). rewrite fmap_app. apply NoDup_app.
    split_and!; [done| |done]. intros a Ha Har. apply (HPyr a Ha). by right.
  - pose proof (inv_sorted _ _ _ HI) as Hs. rewrite <- (below_from k l), Hfrom in Hs.
    apply sorted_app_inv in Hs as (Hb & Hf & Hbf).
    apply StronglySorted_inv in Hf as [Hf _].
    apply sorted_app; [done|done|]. intros a b Ha Hb'. apply Hbf; [done|by right].
  - by apply Forall_app.
  - rewrite (inv_length _ _ _ HI).
    pose proof (f_equal length (below_from k l)) as Hbf. rewrite Hfrom in Hbf.
    rewrite !length_app in *. simpl in Hbf.
    rewrite wrap_small; unfold MinInt, MaxInt in *; lia.
  - done.
Qed.

Lemma Del_present_spec s hd l k y :
  Inv s hd l → hit k l = Some y → Z.of_nat (length l) ≤ MaxInt + 1 →
  ∃ s', Del k s = Some (s', None) ∧ Inv s' hd (below k l ++ drop 1 (from k l)) ∧
        length (heap s') = length (heap s).
Proof.
  intros HI Hhit Hfit. destruct (hit_Some _ _ _ Hhit) as [Hyk [r Hfrom]].
  destruct (Inv_split _ _ _ k HI) as [HrP Hr2]. rewrite Hfrom in HrP, Hr2.
  set (P := hcell hd :: below k l) in *.
  assert (P ++ y :: r = hcell hd :: l) as HPl.
  { unfold P. simpl. by rewrite <- Hfrom, below_from. }
  assert (NoDup (c_addr <$> P ++ y :: r)) as Hnd.
  { rewrite HPl. apply (inv_nodup _ _ _ HI). }
  pose proof Hnd as Hnd0.
  rewrite fmap_app, fmap_cons in Hnd. apply NoDup_app in Hnd as (HndP & HPyr & Hndyr).
  apply NoDup_cons in Hndyr as [Hyr Hndr].
  assert (∀ x, x ∈ P → c_addr x ≠ c_addr y) as HPy.
  { intros x Hx E. apply (HPyr (c_addr x)); [by apply list_elem_of_fmap_2|].
    rewrite E. by left. }
  assert (∀ x z, x ∈ P → z ∈ r → c_addr z ≠ c_addr x) as HPr.
  { intros x z Hx Hz E. apply (HPyr (c_addr x)); [by apply list_elem_of_fmap_2|].
    rewrite <- E. right. by apply list_elem_of_fmap_2. }
  assert (Forall (λ c, 1 ≤ c_lvl c)%nat (below k l) ∧
          Forall (λ c, 1 ≤ c_lvl c)%nat (y :: r)) as [Hlb Hlf].
  { apply Forall_app. rewrite <- Hfrom, below_from. by eapply Inv_lvl_ge. }
  pose proof Hlf as [Hly Hlr]%Forall_cons.
  simpl in Hr2. destruct Hr2 as [Hy Hr2].
  unfold Del. rewrite (find_spec _ _ _ k HI), Hhit. simpl.
  erewrite get_forward_Some by exact Hy. simpl. rewrite lookup_fwds by lia.
  rewrite next_or_nobody, (next_at_0 _ Hlr). simpl. rewrite Hy. simpl.
  pose proof (inv_tail _ _ _ HI) as Htl. rewrite <- (below_from k l), Hfrom in Htl.
  rewrite Hfrom. simpl drop.
  destruct r as [|z r']; cbn [fmap option_fmap option_map head mbind option_bind].
  - rewrite Hy. cbn [mbind option_bind node_of level]. rewrite Nat2Z.id.
    destruct (Del_finish s hd l k y [] (heap s) (last_ptr (Some hd) (below k l))
      (last_ptr (Some hd) (below k l)) HI Hfrom) as (h2 & -> & HI2 & Hlen2); try done.
    { rewrite app_nil_r, last_ptr_last. destruct (last (below k l)); [done|by right]. }
    simpl. eexists. split; [done|]. by split.
  - simpl in Hr2. destruct Hr2 as [Hz Hr2].
    erewrite put_backward_Some by exact Hz. cbn [mbind option_bind].
    assert (c_addr z ≠ c_addr y) as Hzy.
    { intros E. apply Hyr. rewrite <- E. rewrite fmap_cons. by left. }
    rewrite list_lookup_insert_ne by done. rewrite Hy.
    cbn [mbind option_bind node_of level]. rewrite Nat2Z.id.
    match goal with |- context [for_loop _ _ _ ?h] => set (h1 := h) end.
    destruct (Del_finish s hd l k y (z :: r') h1 (tail (sl s))
      (last_ptr (Some hd) (below k l)) HI Hfrom) as (h2 & -> & HI2 & Hlen2).
    + eapply repr_ext; [|exact HrP]. intros x Hx. unfold h1.
      rewrite list_lookup_insert_ne; [done|]. apply (HPr x z Hx). by left.
    + unfold h1. by rewrite list_lookup_insert_ne.
    + simpl. split.
      * unfold h1. rewrite list_lookup_insert_eq by by eapply lookup_lt_Some. done.
      * eapply repr_ext; [|exact Hr2]. intros x Hx. unfold h1.
        rewrite list_lookup_insert_ne; [done|]. intros E.
        rewrite fmap_cons in Hndr. apply NoDup_cons in Hndr as [Hndr _].
        apply Hndr. rewrite E. by apply list_elem_of_fmap_2.
    + unfold h1. by rewrite length_insert.
    + rewrite last_app_cons in Htl. rewrite last_app_cons.
      by rewrite last_cons_cons in Htl.
    + exact Hfit.
    + simpl. eexists. split; [done|]. by split.
Qed.

(** *** Every reachable state satisfies the invariant *)

(** The cells after [Put] and after [Del]. *)
Definition put_cells (n : addr) (rl : Z) (k : K) (v : V) (l : list cell) : list cell :=
  match l with
  | [] => [mkCell n k v 1]
  | _ =>
      match hit k l with
      | Some y => with_val (c_addr y) v <$> l
      | None => below k l ++ mkCell n k v (Z.to_nat rl) :: from k l
      end
  end.

Definition del_cells (k : K) (l : list cell) : list cell :=
  match hit k l with
  | Some _ => below k l ++ drop 1 (from k l)
  | None => l
  end.

Lemma Inv_New : Inv New 0 [].
Proof.
  constructor; simpl; try done.
  - apply NoDup_singleton.
  - constructor.
  - by left.
Qed.

Lemma Put_spec s hd l rl k v :
  Inv s hd l → 1 ≤ rl ≤ MaxLevel → Z.of_nat (length l) < MaxInt →
  ∃ s', Put rl k v s = Some s' ∧ Inv s' hd (put_cells (length (heap s)) rl k v l) ∧
        (length (heap s') ≤ S (length (heap s)))%nat.
Proof.
  intros HI Hrl Hfit. unfold put_cells. destruct l as [|c l'] eqn:El.
  - destruct (Put_first_spec _ _ rl k v HI) as (s' & E & HI' & Hlen).
    exists s'. split_and!; [done|done|lia].
  - rewrite <- El in *. destruct (hit k l) as [y|] eqn:Hhit.
    + destruct (Put_update_spec _ _ _ rl _ v _ HI Hhit) as (n & _ & _ & E & HI').
      eexists. split_and!; [done|done|]. simpl. rewrite length_insert. lia.
    + destruct (Put_insert_spec _ _ _ rl k v HI) as (s' & E & HI' & Hlen); try done.
      { by rewrite El. }
      exists s'. split_and!; [done|done|lia].
Qed.

Lemma Del_spec s hd l k :
  Inv s hd l → Z.of_nat (length l) ≤ MaxInt + 1 →
  ∃ s', Del k s = Some (s', match hit k l with Some _ => None | None => KeyNotFound end) ∧
        Inv s' hd (del_cells k l) ∧ length (heap s') = length (heap s).
Proof.
  intros HI Hfit. unfold del_cells. destruct (hit k l) as [y|] eqn:Hhit.
  - destruct (Del_present_spec _ _ _ _ _ HI Hhit Hfit) as (s' & E & HI' & Hlen). eauto.
  - exists s. split_and!; [by eapply Del_absent_spec|done|done].
Qed.

(** The states that a program can reach with [New], [Put] and [Del];
    [randomLevel] only returns levels between 1 and [MaxLevel], and the
    nodes of a heap are fewer than the integers of an [int]. *)
Inductive reachable : state K V → Prop :=
  | reach_New : reachable New
  | reach_Put rl k v s s' :
      reachable s → 1 ≤ rl ≤ MaxLevel → Put rl k v s = Some s' →
      Z.of_nat (length (heap s')) ≤ MaxInt → reachable s'
  | reach_Del k s s' e :
      reachable s → Del k s = Some (s', e) → reachable s'.

Lemma Inv_fits s hd l :
  Inv s hd l → Z.of_nat (length (heap s)) ≤ MaxInt → Z.of_nat (length l) < MaxInt.
Proof. intros HI%Inv_length_le Hfit. lia. Qed.

Lemma reachable_Inv_fits s :
  reachable s → ∃ l, Inv s 0 l ∧ Z.of_nat (length (heap s)) ≤ MaxInt.
Proof.
  induction 1 as [|rl k v s s' _ (l & HI & Hfit) Hrl E Hfit'|k s s' e _ (l & HI & Hfit) E].
  - exists []. split; [apply Inv_New|by vm_compute].
  - destruct (Put_spec _ _ _ rl k v HI Hrl (Inv_fits _ _ _ HI Hfit)) as (s'' & E' & HI' & _).
    rewrite E in E'. injection E' as <-. eauto.
  - pose proof (Inv_fits _ _ _ HI Hfit) as Hl.
    destruct (Del_spec _ _ _ k HI ltac:(lia)) as (s'' & E' & HI' & Hlen).
    rewrite E in E'. injection E' as <- _. exists (del_cells k l). split; [done|lia].
Qed.

Lemma reachable_Inv s : reachable s → ∃ l, Inv s 0 l.
Proof. intros (l & HI & _)%reachable_Inv_fits. eauto. Qed.

(** *** The result map *)

Definition assign_cell (m : list (K * V)) (c : cell) : list (K * V) :=
  assign m (c_key c) (c_val c).

Lemma assign_fresh (m : list (K * V)) k v : k ∉ m.*1 → assign m k v = m ++ [(k, v)].
Proof.
  induction m as [|[k' v'] m IH]; simpl; intros Hk; [done|].
  rewrite decide_False by (intros ->; apply Hk; by left).
  rewrite IH; [done|]. intros ?. apply Hk. by right.
Qed.

Lemma foldl_assign (acc : list (K * V)) (l : list cell) :
  NoDup (acc.*1 ++ (c_key <$> l)) → foldl assign_cell acc l = acc ++ (kv <$> l).
Proof.
  revert acc. induction l as [|c r IH]; intros acc Hnd; simpl.
  - by rewrite app_nil_r.
  - unfold assign_cell at 2. rewrite assign_fresh.
    + rewrite IH, <- app_assoc; [done|].
      rewrite fmap_app, <- app_assoc. done.
    + apply NoDup_app in Hnd as (_ & Hnd & _). intros Hc. apply (Hnd _ Hc). by left.
Qed.

Lemma sorted_NoDup_keys l : StronglySorted key_lt l → NoDup (c_key <$> l).
Proof.
  induction 1 as [|c r Hs IH Hc]; simpl; [constructor|].
  apply NoDup_cons. split; [|done]. intros (x & E & Hx)%list_elem_of_fmap.
  rewrite Forall_forall in Hc. specialize (Hc _ Hx). unfold key_lt in Hc.
  rewrite E, ltb_irrefl in Hc. done.
Qed.

Lemma sorted_sublist (l1 l2 : list cell) :
  sublist l1 l2 → StronglySorted key_lt l2 → StronglySorted key_lt l1.
Proof.
  induction 1 as [|x l1 l2 Hsub IH|x l1 l2 Hsub IH]; intros Hs; [done| |].
  - apply StronglySorted_inv in Hs as [Hs Hx]. constructor; [by apply IH|].
    rewrite Forall_forall in Hx. apply Forall_forall. intros y Hy.
    apply Hx. by eapply elem_of_sublist.
  - apply StronglySorted_inv in Hs as [Hs _]. by apply IH.
Qed.

Lemma foldl_assign_sorted (l : list cell) :
  StronglySorted key_lt l → foldl assign_cell [] l = kv <$> l.
Proof. intros Hs. rewrite foldl_assign; [done|]. simpl. by apply sorted_NoDup_keys. Qed.

(** *** [Get] *)

Lemma Get_spec s hd l k :
  Inv s hd l →
  Get k s = Some (match hit k l with
                  | Some y => (c_val y, None)
                  | None => (zero, KeyNotFound)
                  end).
Proof.
  intros HI. unfold Get. rewrite (find_spec _ _ _ k HI).
  destruct (hit k l) as [y|] eqn:Hhit; simpl; [|done].
  destruct (Inv_lookup _ _ _ _ HI (hit_elem _ _ _ Hhit)) as (p & t & ->). done.
Qed.

(** *** Where the range queries start *)

Lemma level0_succ s hd l k :
  Inv s hd l →
  preds k hd l !! 0%nat = Some (last_ptr (Some hd) (below k l)) ∧
  get_forward (heap s) (last_ptr (Some hd) (below k l)) 0
    = Some (c_addr <$> head (from k l)).
Proof.
  intros HI. destruct (Inv_split _ _ _ k HI) as [HrP _].
  assert (Forall (λ c, 1 ≤ c_lvl c)%nat (below k l) ∧
          Forall (λ c, 1 ≤ c_lvl c)%nat (from k l)) as [Hlb Hlf].
  { apply Forall_app. rewrite below_from. by eapply Inv_lvl_ge. }
  destruct (preds_split k hd l 0) as (Hu & pre & y & suf & HP & Hy & Hsuf & Hpy).
  { unfold MaxLevel. lia. }
  assert (pred_at 0 None (hcell hd :: below k l) = last_ptr (Some hd) (below k l)) as E.
  { simpl. by apply pred_at_0. }
  rewrite E in Hu, Hpy. split; [done|]. rewrite Hpy.
  rewrite HP in HrP. apply repr_lookup in HrP.
  erewrite get_forward_Some by done. simpl. rewrite lookup_fwds by done.
  unfold next_or. rewrite Hsuf. by rewrite (next_at_0 _ Hlf).
Qed.

Lemma start_forward s hd l k :
  Inv s hd l →
  (let '(found, node) := found_of (hit k l) in
   if found : bool then Some node
   else u0 ← preds k hd l !! 0%nat; get_forward (heap s) u0 0)
  = Some (c_addr <$> head (from k l)).
Proof.
  intros HI. destruct (hit k l) as [y|] eqn:Hhit; cbn [found_of].
  - apply hit_Some in Hhit as [_ [r ->]]. done.
  - destruct (level0_succ _ _ _ k HI) as [Hu Hg]. rewrite Hu. exact Hg.
Qed.

Lemma last_ptr_snoc d q x : last_ptr d (q ++ [x]) = Some (c_addr x).
Proof. by rewrite last_ptr_app. Qed.

Lemma start_backward s hd l k :
  Inv s hd l →
  (let '(found, node) := found_of (hit k l) in
   if found : bool then Some node else preds k hd l !! 0%nat)
  = Some (last_ptr (Some hd) (below k l ++ option_list (hit k l))).
Proof.
  intros HI. destruct (hit k l) as [y|] eqn:Hhit; unfold found_of, option_list;
    cbn [option_rect].
  - by rewrite last_ptr_snoc.
  - rewrite app_nil_r. by destruct (level0_succ _ _ _ k HI) as [Hu _].
Qed.

(** *** The walks *)

Fixpoint upto (e : K) (l : list cell) : list cell :=
  match l with
  | [] => []
  | c :: r => if leb (c_key c) e then c :: upto e r else []
  end.

Lemma RangeByKey_loop_spec (h : heap_t) e :
  ∀ s prev fuel acc,
    repr h prev s nobody → Forall (λ c, 1 ≤ c_lvl c)%nat s → (length s < fuel)%nat →
    RangeByKey_loop fuel h e (c_addr <$> head s) acc
      = Some (foldl assign_cell acc (upto e s)).
Proof.
  induction s as [|x r IH]; intros prev fuel acc Hr Hl Hf;
    (destruct fuel as [|fuel]; [simpl in Hf; lia|]); simpl; [done|].
  destruct Hr as [Hx Hr]. apply Forall_cons in Hl as [Hlx Hl]. rewrite Hx. simpl.
  destruct (leb (c_key x) e); [|done]. rewrite lookup_fwds by lia. simpl.
  rewrite next_or_nobody, (next_at_0 _ Hl).
  erewrite IH; [done|done|done|simpl in Hf; lia].
Qed.

Lemma collect_forward_spec (h : heap_t) hd count :
  ∀ s prev fuel c acc,
    repr h prev s nobody → Forall (λ c, 1 ≤ c_lvl c)%nat s →
    (∀ x, x ∈ s → c_addr x ≠ hd) → (length s < fuel)%nat →
    collect fuel h (Some hd) true c count (c_addr <$> head s) acc
      = Some (foldl assign_cell acc (take (Z.to_nat (count - c)) s)).
Proof.
  induction s as [|x r IH]; intros prev fuel c acc Hr Hl Hhd Hf;
    (destruct fuel as [|fuel]; [simpl in Hf; lia|]); simpl.
  { by rewrite take_nil. }
  destruct Hr as [Hx Hr]. apply Forall_cons in Hl as [Hlx Hl].
  rewrite bool_decide_true by (intros [= E]; apply (Hhd x); [by left|done]).
  simpl. destruct (Z.ltb_spec c count) as [Hc|Hc].
  - rewrite Hx. simpl. rewrite lookup_fwds by lia. simpl.
    rewrite next_or_nobody, (next_at_0 _ Hl).
    erewrite IH; [|done|done| |simpl in Hf; lia].
    + replace (Z.to_nat (count - c)) with (S (Z.to_nat (count - (c + 1)))) by lia. done.
    + intros y Hy. apply Hhd. by right.
  - replace (Z.to_nat (count - c)) with 0%nat by lia. done.
Qed.

Lemma collect_backward_spec (h : heap_t) hd l count :
  repr h None (hcell hd :: l) nobody → NoDup (hd :: (c_addr <$> l)) →
  ∀ q suf fuel c acc,
    l = q ++ suf → (length q < fuel)%nat →
    collect fuel h (Some hd) false c count (last_ptr (Some hd) q) acc
      = Some (foldl assign_cell acc (take (Z.to_nat (count - c)) (reverse q))).
Proof.
  intros Hr Hnd. induction q as [|x q IH] using rev_ind; intros suf fuel c acc Hl Hf;
    (destruct fuel as [|fuel]; [simpl in Hf; lia|]).
  { simpl. rewrite bool_decide_false by (intros E; by apply E).
    simpl. by rewrite ?reverse_nil, ?take_nil. }
  rewrite last_ptr_snoc, reverse_snoc. cbn [collect].
  rewrite bool_decide_true by done.
  rewrite bool_decide_true.
  2:{ intros [= E]. apply NoDup_cons in Hnd as [Hnd _]. apply Hnd. rewrite <- E, Hl.
      apply list_elem_of_fmap_2. apply elem_of_app. left. apply elem_of_app. right. by left. }
  simpl. destruct (Z.ltb_spec c count) as [Hc|Hc].
  - rewrite Hl, <- app_assoc in Hr. simpl in Hr.
    pose proof (repr_lookup _ _ (hcell hd :: q) x suf _ Hr) as Hx.
    rewrite Hx. simpl.
    rewrite length_app in Hf. simpl in Hf.
    erewrite (IH (x :: suf)); [|by rewrite Hl, <- app_assoc|lia].
    replace (Z.to_nat (count - c)) with (S (Z.to_nat (count - (c + 1)))) by lia. done.
  - replace (Z.to_nat (count - c)) with 0%nat by lia. done.
Qed.

Lemma seek_forward_spec (h : heap_t) start :
  ∀ s prev fuel i,
    repr h prev s nobody → Forall (λ c, 1 ≤ c_lvl c)%nat s → (length s < fuel)%nat →
    seek_forward fuel h i start (c_addr <$> head s)
      = Some (c_addr <$> head (drop (Z.to_nat (start - i)) s)).
Proof.
  induction s as [|x r IH]; intros prev fuel i Hr Hl Hf;
    (destruct fuel as [|fuel]; [simpl in Hf; lia|]); simpl.
  { by rewrite drop_nil. }
  destruct Hr as [Hx Hr]. apply Forall_cons in Hl as [Hlx Hl].
  destruct (Z.ltb_spec i start) as [Hc|Hc].
  - rewrite Hx. simpl. rewrite lookup_fwds by lia. simpl.
    rewrite next_or_nobody, (next_at_0 _ Hl).
    erewrite IH; [|done|done|simpl in Hf; lia].
    replace (Z.to_nat (start - i)) with (S (Z.to_nat (start - (i + 1)))) by lia. done.
  - replace (Z.to_nat (start - i)) with 0%nat by lia. done.
Qed.

Lemma seek_backward_spec (h : heap_t) hd l start :
  repr h None (hcell hd :: l) nobody → NoDup (hd :: (c_addr <$> l)) →
  ∀ q suf fuel i,
    l = q ++ suf → (length q < fuel)%nat → start ≤ i →
    seek_backward fuel h (Some hd) i start (last_ptr (Some hd) q)
      = Some (last_ptr (Some hd) (take (length q - Z.to_nat (i - start)) q)).
Proof.
  intros Hr Hnd. induction q as [|x q IH] using rev_ind; intros suf fuel i Hl Hf Hi;
    (destruct fuel as [|fuel]; [simpl in Hf; lia|]).
  { simpl. rewrite bool_decide_false by (intros E; by apply E). done. }
  rewrite last_ptr_snoc. cbn [seek_backward].
  rewrite bool_decide_true.
  2:{ intros [= E]. apply NoDup_cons in Hnd as [Hnd _]. apply Hnd. rewrite <- E, Hl.
      apply list_elem_of_fmap_2. apply elem_of_app. left. apply elem_of_app. right. by left. }
  simpl. rewrite length_app in *. simpl in *.
  destruct (Z.ltb_spec start i) as [Hc|Hc].
  - rewrite Hl, <- app_assoc in Hr. simpl in Hr.
    pose proof (repr_lookup _ _ (hcell hd :: q) x suf _ Hr) as Hx.
    rewrite Hx. simpl.
    erewrite (IH (x :: suf)); [|by rewrite Hl, <- app_assoc|lia|lia].
    f_equal. rewrite take_app_le by lia. f_equal. f_equal. lia.
  - replace (Z.to_nat (i - start)) with 0%nat by lia.
    rewrite Nat.sub_0_r, take_ge by (rewrite length_app; simpl; lia).
    by rewrite last_ptr_snoc.
Qed.

(** *** The range queries in terms of the cells *)

Lemma foldl_assign_nodup (l : list cell) :
  NoDup (c_key <$> l) → foldl assign_cell [] l = kv <$> l.
Proof. intros Hs. by rewrite foldl_assign. Qed.

Lemma nodup_keys_sublist (l1 l2 : list cell) :
  sublist l1 l2 → NoDup (c_key <$> l2) → NoDup (c_key <$> l1).
Proof. intros Hsub Hnd. eapply sublist_NoDup; [done|]. by apply fmap_sublist. Qed.

Lemma nodup_keys_reverse (l : list cell) :
  NoDup (c_key <$> l) → NoDup (c_key <$> reverse l).
Proof. by rewrite fmap_reverse, reverse_Permutation. Qed.

Lemma from_sublist k l : sublist (from k l) l.
Proof. rewrite <- (below_from k l) at 2. apply sublist_inserts_l. done. Qed.

Lemma upto_sublist e l : sublist (upto e l) l.
Proof.
  induction l as [|c r IH]; simpl; [done|].
  destruct (leb _ _); [by apply sublist_skip|apply sublist_nil_l].
Qed.

(** The cells up to and including the one that holds [k], if any. *)
Definition upto_hit (k : K) (l : list cell) : list cell :=
  below k l ++ option_list (hit k l).

Lemma upto_hit_split k l : ∃ suf, l = upto_hit k l ++ suf.
Proof.
  unfold upto_hit. destruct (hit k l) as [y|] eqn:Hhit; simpl.
  - apply hit_Some in Hhit as [_ [r Hr]]. exists r.
    rewrite <- app_assoc. simpl. by rewrite <- Hr, below_from.
  - exists (from k l). by rewrite app_nil_r, below_from.
Qed.

Lemma start_node_forward s hd l k found node updates :
  Inv s hd l → find k s = Some (found, node, updates) →
  (if found : bool then Some node
   else u0 ← updates !! 0%nat; get_forward (heap s) u0 0)
  = Some (c_addr <$> head (from k l)).
Proof.
  intros HI. rewrite (find_spec _ _ _ k HI). intros [= E <-].
  pose proof (start_forward _ _ _ k HI) as Hs. by rewrite E in Hs.
Qed.

Lemma start_node_backward s hd l k found node updates :
  Inv s hd l → find k s = Some (found, node, updates) →
  (if found : bool then Some node else u0 ← updates !! 0%nat; Some u0)
  = Some (last_ptr (Some hd) (upto_hit k l)).
Proof.
  intros HI. rewrite (find_spec _ _ _ k HI). intros [= E <-].
  pose proof (start_backward _ _ _ k HI) as Hs. rewrite E in Hs.
  unfold upto_hit. destruct found; [done|]. rewrite <- Hs.
  by destruct (preds k hd l !! 0%nat).
Qed.

Lemma find_total s hd l k : Inv s hd l → ∃ found node updates, find k s = Some (found, node, updates).
Proof. intros HI. rewrite (find_spec _ _ _ k HI). destruct (found_of _). eauto. Qed.

Lemma Inv_suffix s hd l q suf :
  Inv s hd l → l = q ++ suf →
  repr (heap s) (last_ptr (Some hd) q) suf nobody ∧
  Forall (λ c, 1 ≤ c_lvl c)%nat suf ∧
  (∀ x, x ∈ suf → c_addr x ≠ hd) ∧
  (length suf < S (length (heap s)))%nat.
Proof.
  intros HI ->. pose proof (inv_repr _ _ _ HI) as Hr.
  apply (repr_app _ _ (hcell hd :: q)) in Hr as [_ Hr]. split; [done|].
  pose proof (Inv_lvl_ge _ _ _ HI) as [_ Hl]%Forall_app. split; [done|].
  pose proof (Inv_length_le _ _ _ HI) as Hlen. rewrite length_app in Hlen.
  split; [|lia]. intros x Hx E. pose proof (inv_nodup _ _ _ HI) as [Hnd _]%NoDup_cons.
  apply Hnd. rewrite <- E. apply list_elem_of_fmap_2. apply elem_of_app. by right.
Qed.

Lemma RangeByKey_spec s hd l a b :
  Inv s hd l →
  RangeByKey a b s =
    Some (if gtb a b then ([], InvalidRange) else (kv <$> upto b (from a l), None)).
Proof.
  intros HI. unfold RangeByKey. destruct (gtb a b); [done|].
  destruct (find_total _ _ _ a HI) as (found & node & updates & Ef). rewrite Ef.
  cbn [mbind option_bind]. rewrite (start_node_forward _ _ _ _ _ _ _ HI Ef).
  cbn [mbind option_bind].
  destruct (Inv_suffix _ _ _ (below a l) (from a l) HI) as (Hr & Hl & _ & Hf).
  { by rewrite below_from. }
  erewrite RangeByKey_loop_spec by done. simpl. do 2 f_equal.
  apply foldl_assign_nodup. eapply nodup_keys_sublist.
  - etrans; [apply upto_sublist|apply from_sublist].
  - apply sorted_NoDup_keys, (inv_sorted _ _ _ HI).
Qed.

(** The count that the collecting loop works with, and its direction. *)
Definition count_abs (count : Z) : Z :=
  if decide (count < 0) then wrap (0 - count) else count.

Definition count_cells (start : K) (count : Z) (l : list cell) : list cell :=
  if decide (count < 0)
  then take (Z.to_nat (count_abs count)) (reverse (upto_hit start l))
  else take (Z.to_nat (count_abs count)) (from start l).

Lemma RangeByCount_spec s hd l start count :
  Inv s hd l →
  RangeByCount start count s =
    Some (if decide (count = 0) then ([], ZeroCount)
          else (kv <$> count_cells start count l, None)).
Proof.
  intros HI. unfold RangeByCount, count_cells, count_abs.
  rewrite (inv_header _ _ _ HI).
  destruct (decide (count = 0)); [done|].
  destruct (find_total _ _ _ start HI) as (found & node & updates & Ef).
  pose proof (sorted_NoDup_keys _ (inv_sorted _ _ _ HI)) as Hnd.
  destruct (decide (count < 0)); rewrite Ef; cbn [mbind option_bind].
  - rewrite (start_node_backward _ _ _ _ _ _ _ HI Ef). cbn [mbind option_bind].
    destruct (upto_hit_split start l) as [suf Hsuf].
    erewrite (collect_backward_spec _ hd l _ (inv_repr _ _ _ HI) (inv_nodup _ _ _ HI) _ suf);
      [|done|].
    + simpl. do 2 f_equal. rewrite Z.sub_0_r. apply foldl_assign_nodup.
      eapply nodup_keys_sublist; [apply sublist_take|]. apply nodup_keys_reverse.
      eapply nodup_keys_sublist; [|exact Hnd]. rewrite Hsuf at 2.
      by apply sublist_inserts_r.
    + pose proof (Inv_length_le _ _ _ HI) as Hlen. rewrite Hsuf, length_app in Hlen. lia.
  - rewrite (start_node_forward _ _ _ _ _ _ _ HI Ef). cbn [mbind option_bind].
    destruct (Inv_suffix _ _ _ (below start l) (from start l) HI) as (Hr & Hl & Hhd & Hf).
    { by rewrite below_from. }
    erewrite collect_forward_spec by done. simpl. do 2 f_equal. rewrite Z.sub_0_r.
    apply foldl_assign_nodup.
    eapply nodup_keys_sublist; [|exact Hnd]. etrans; [apply sublist_take|apply from_sublist].
Qed.

(** The position that [RangeByIndex] resolves [start] to. *)
Definition index_pos (start : Z) (l : list cell) : nat :=
  Z.to_nat (if decide (0 ≤ start) then start else Z.of_nat (length l) + start).

Definition index_cells (start count : Z) (l : list cell) : list cell :=
  if decide (count < 0)
  then take (Z.to_nat (count_abs count)) (reverse (take (S (index_pos start l)) l))
  else take (Z.to_nat (count_abs count)) (drop (index_pos start l) l).

Lemma node_at d (l : list cell) p :
  (p < length l)%nat → c_addr <$> head (drop p l) = last_ptr d (take (S p) l).
Proof.
  intros Hp. destruct (lookup_lt_is_Some_2 l p Hp) as [x Hx].
  rewrite (drop_S _ _ _ Hx), (take_S_r _ _ _ Hx), last_ptr_snoc. done.
Qed.

Lemma RangeByIndex_spec s hd l start count :
  Inv s hd l →
  RangeByIndex start count s =
    Some (if decide (count = 0) then ([], ZeroCount)
          else if decide (Z.of_nat (length l) ≤ start ∨ start < 0 - Z.of_nat (length l))
          then ([], IndexOutOfRange)
          else (kv <$> index_cells start count l, None)).
Proof.
  intros HI. unfold RangeByIndex.
  rewrite (inv_header _ _ _ HI), (inv_length _ _ _ HI).
  destruct (decide (count = 0)); [done|].
  destruct (decide (Z.of_nat (length l) ≤ start ∨ start < 0 - Z.of_nat (length l)))
    as [|Hin]; [done|].
  pose proof (sorted_NoDup_keys _ (inv_sorted _ _ _ HI)) as Hnd.
  pose proof (inv_repr _ _ _ HI) as Hr. pose proof Hr as [Hh _].
  pose proof (Inv_length_le _ _ _ HI) as Hlen.
  set (p := index_pos start l).
  assert (p < length l)%nat as Hp.
  { unfold p, index_pos. case_decide; lia. }
  (* the start node *)
  assert (get_forward (heap s) (Some hd) 0 = Some (c_addr <$> head l)) as ->.
  { erewrite get_forward_Some by exact Hh. cbn [node_of forward hcell c_lvl].
    rewrite lookup_fwds by (unfold MaxLevel; lia).
    by rewrite next_or_nobody, (next_at_0 _ (Inv_lvl_ge _ _ _ HI)). }
  cbn [mbind option_bind].
  assert ((if decide (0 ≤ start)
           then seek_forward (S (length (heap s))) (heap s) 0 start (c_addr <$> head l)
           else seek_backward (S (length (heap s))) (heap s) (Some hd) (-1) start
                  (tail (sl s)))
          = Some (last_ptr (Some hd) (take (S p) l))) as Hnode.
  { destruct (decide (0 ≤ start)) as [Hs|Hs].
    - destruct (Inv_suffix _ _ _ [] l HI eq_refl) as (Hrl & Hl & _ & Hf).
      erewrite seek_forward_spec by done. f_equal. rewrite Z.sub_0_r.
      replace (Z.to_nat start) with p by (unfold p, index_pos; by rewrite decide_True).
      by apply node_at.
    - pose proof (inv_tail _ _ _ HI) as Htl.
      assert (tail (sl s) = last_ptr (Some hd) l) as ->.
      { rewrite last_ptr_last. destruct (last l) eqn:El; [done|].
        apply last_None in El. subst l. simpl in *. lia. }
      erewrite (seek_backward_spec _ hd l start Hr (inv_nodup _ _ _ HI) l []);
        [|by rewrite app_nil_r|lia|lia].
      do 3 f_equal. unfold p, index_pos. rewrite decide_False by done. lia. }
  rewrite Hnode. cbn [mbind option_bind]. unfold index_cells, count_abs. fold p.
  destruct (decide (count < 0)).
  - erewrite (collect_backward_spec _ hd l _ Hr (inv_nodup _ _ _ HI) _ (drop (S p) l));
      [|by rewrite take_drop|rewrite length_take; lia].
    simpl. do 2 f_equal. rewrite Z.sub_0_r. apply foldl_assign_nodup.
    eapply nodup_keys_sublist; [apply sublist_take|]. apply nodup_keys_reverse.
    eapply nodup_keys_sublist; [apply sublist_take|exact Hnd].
  - rewrite <- (node_at (Some hd) l p Hp).
    destruct (Inv_suffix _ _ _ (take p l) (drop p l) HI) as (Hrl & Hl & Hhd & Hf).
    { by rewrite take_drop. }
    erewrite collect_forward_spec by done. simpl. do 2 f_equal. rewrite Z.sub_0_r.
    apply foldl_assign_nodup.
    eapply nodup_keys_sublist; [|exact Hnd]. etrans; [apply sublist_take|apply sublist_drop].
Qed.

(** *** The level-0 chain as an observation of the state *)

(** The addresses met when following [forward[0]] from [node]. *)
Fixpoint chain (fuel : nat) (h : heap_t) (node : ptr) : option (list addr) :=
  match fuel with
  | O => None
  | S fuel' =>
      match node with
      | None => Some []
      | Some a =>
          n ← h !! a;
          nx ← forward n !! 0%nat;
          r ← chain fuel' h nx;
          Some (a :: r)
      end
  end.

Definition level0 (s : state K V) : option (list addr) :=
  first ← get_forward (heap s) (header (sl s)) 0;
  chain (S (length (heap s))) (heap s) first.

Lemma chain_spec (h : heap_t) :
  ∀ s prev fuel,
    repr h prev s nobody → Forall (λ c, 1 ≤ c_lvl c)%nat s → (length s < fuel)%nat →
    chain fuel h (c_addr <$> head s) = Some (c_addr <$> s).
Proof.
  induction s as [|x r IH]; intros prev fuel Hr Hl Hf;
    (destruct fuel as [|fuel]; [simpl in Hf; lia|]); simpl; [done|].
  destruct Hr as [Hx Hr]. apply Forall_cons in Hl as [Hlx Hl]. rewrite Hx. simpl.
  rewrite lookup_fwds by lia. simpl. rewrite next_or_nobody, (next_at_0 _ Hl).
  erewrite IH; [done|done|done|simpl in Hf; lia].
Qed.

Lemma level0_spec s hd l : Inv s hd l → level0 s = Some (c_addr <$> l).
Proof.
  intros HI. unfold level0. rewrite (inv_header _ _ _ HI).
  pose proof (inv_repr _ _ _ HI) as [Hh _].
  erewrite get_forward_Some by exact Hh. cbn [node_of forward hcell c_lvl].
  rewrite lookup_fwds by (unfold MaxLevel; lia).
  rewrite next_or_nobody, (next_at_0 _ (Inv_lvl_ge _ _ _ HI)).
  destruct (Inv_suffix _ _ _ [] l HI eq_refl) as (Hrl & Hl & _ & Hf).
  cbn [mbind option_bind]. by erewrite chain_spec.
Qed.

(** *** Membership in the results *)

Lemma elem_below_lt k l c : c ∈ below k l → ltb (c_key c) k = true.
Proof. intros Hc. pose proof (below_lt k l) as Hl. rewrite Forall_forall in Hl. auto. Qed.

Lemma elem_from k l c : c ∈ l → ltb (c_key c) k = false → c ∈ from k l.
Proof.
  intros Hc Hk. rewrite <- (below_from k l) in Hc.
  apply elem_of_app in Hc as [Hc|Hc]; [|done].
  apply elem_below_lt in Hc. congruence.
Qed.

Lemma hit_self l c : StronglySorted key_lt l → c ∈ l → hit (c_key c) l = Some c.
Proof.
  intros Hs Hc. apply hit_from; [done| |done]. apply elem_from; [done|]. apply ltb_irrefl.
Qed.

Lemma hit_None_elem k l c : StronglySorted key_lt l → hit k l = None → c ∈ l → c_key c ≠ k.
Proof. intros Hs Hh Hc <-. rewrite hit_self in Hh; done. Qed.

Lemma upto_le e s : Forall (λ c, leb (c_key c) e = true) (upto e s).
Proof.
  induction s as [|c r IH]; simpl; [constructor|].
  destruct (leb _ _) eqn:E; by constructor.
Qed.

Lemma elem_upto e s c :
  StronglySorted key_lt s → c ∈ s → leb (c_key c) e = true → c ∈ upto e s.
Proof.
  induction 1 as [|x r Hs IH Hx]; intros Hc He; [by apply elem_of_nil in Hc|].
  simpl. apply elem_of_cons in Hc as [->|Hc].
  - rewrite He. by left.
  - rewrite Forall_forall in Hx. specialize (Hx _ Hc). unfold key_lt in Hx.
    assert (leb (c_key x) e = true) as ->.
    { apply leb_true. left. by eapply ltb_leb_trans. }
    right. by apply IH.
Qed.

Lemma sorted_kv l :
  StronglySorted key_lt l → StronglySorted (λ x y : K * V, ltb x.1 y.1 = true) (kv <$> l).
Proof.
  induction 1 as [|c r Hs IH Hc]; [constructor|]. rewrite fmap_cons.
  constructor; [done|]. apply Forall_fmap. eapply Forall_impl; [exact Hc|]. done.
Qed.

Lemma Get_Some s hd l k v :
  Inv s hd l → Get k s = Some (v, None) ↔ ∃ c, c ∈ l ∧ c_key c = k ∧ c_val c = v.
Proof.
  intros HI. rewrite (Get_spec _ _ _ k HI). split.
  - destruct (hit k l) as [y|] eqn:Hhit; [|done]. intros [= <-].
    exists y. split_and!; [by eapply hit_elem|by apply hit_Some in Hhit as [? _]|done].
  - intros (c & Hc & <- & <-). by rewrite (hit_self _ _ (inv_sorted _ _ _ HI) Hc).
Qed.

Lemma Get_absent s hd l k x :
  Inv s hd l → Get k s = Some (x, KeyNotFound) → hit k l = None.
Proof.
  intros HI. rewrite (Get_spec _ _ _ k HI). by destruct (hit k l).
Qed.

(** ** The claims *)

(** C1. [RangeByKey(a, b)] with [a <= b] returns exactly the stored keys
    [k] with [a <= k <= b], each with its current value, collected in
    ascending key order; with [a > b] it returns the error of an invalid
    range and no item. *)
Theorem RangeByKey_exact s a b :
  reachable s →
  (gtb a b = true → RangeByKey a b s = Some ([], InvalidRange)) ∧
  (leb a b = true →
     ∃ items, RangeByKey a b s = Some (items, None) ∧
       StronglySorted (λ x y : K * V, ltb x.1 y.1 = true) items ∧
       ∀ k v, (k, v) ∈ items ↔
              leb a k = true ∧ leb k b = true ∧ Get k s = Some (v, None)).
Proof.
  intros [l HI]%reachable_Inv. pose proof (inv_sorted _ _ _ HI) as Hs.
  rewrite (RangeByKey_spec _ _ _ a b HI). unfold leb, gtb. split.
  - by intros ->.
  - intros Hab%negb_true_iff. rewrite Hab. eexists. split; [done|]. split.
    + apply sorted_kv. eapply sorted_sublist; [|exact Hs].
      etrans; [apply upto_sublist|apply from_sublist].
    + intros k v. rewrite (Get_Some _ _ _ _ _ HI). split.
      * intros (c & [= -> ->] & Hc)%list_elem_of_fmap.
        pose proof (upto_le b (from a l)) as Hle. rewrite Forall_forall in Hle.
        specialize (Hle _ Hc). unfold leb in Hle.
        pose proof (elem_of_sublist _ _ _ Hc (upto_sublist _ _)) as Hcf.
        pose proof (from_ge a l Hs) as Hge. rewrite Forall_forall in Hge.
        rewrite (Hge _ Hcf). split_and!; [done|done|].
        exists c. split_and!; [|done|done]. by eapply elem_of_sublist, from_sublist.
      * intros (Hak%negb_true_iff & Hkb & c & Hc & <- & <-).
        apply list_elem_of_fmap. exists c. split; [done|].
        apply elem_upto; [|by apply elem_from|done].
        eapply sorted_sublist; [apply from_sublist|done].
Qed.

(** C3. The level-0 chain from the header visits as many nodes as the
    container counts, in strictly ascending key order, and the backward
    link of each of them is the node before it on the chain, the header
    for the first. *)
Theorem level0_sorted_and_mirrored s :
  reachable s →
  ∃ nodes, level0 s = Some nodes ∧ Z.of_nat (length nodes) = Length s ∧
    (∀ i a, nodes !! i = Some a →
       ∃ n, heap s !! a = Some n ∧
            backward n = match i with O => header (sl s) | S j => nodes !! j end) ∧
    (∀ i j a b, (i < j)%nat → nodes !! i = Some a → nodes !! j = Some b →
       ∃ na nb, heap s !! a = Some na ∧ heap s !! b = Some nb ∧
                ltb (key na) (key nb) = true).
Proof.
  intros [l HI]%reachable_Inv. exists (c_addr <$> l).
  pose proof (inv_repr _ _ _ HI) as Hr.
  assert (∀ i c, l !! i = Some c →
    heap s !! c_addr c = Some (node_of (last_ptr (Some 0%nat) (take i l)) c (drop (S i) l) nobody)) as Hat.
  { intros i c Hc. rewrite <- (take_drop_middle _ _ _ Hc) in Hr.
    by apply (repr_lookup _ _ (hcell 0 :: take i l)) in Hr. }
  split_and!.
  - by eapply level0_spec.
  - rewrite length_fmap. symmetry. apply (inv_length _ _ _ HI).
  - intros i a Ha. rewrite list_lookup_fmap in Ha.
    destruct (l !! i) as [c|] eqn:Hc; [|done]. injection Ha as <-.
    eexists. split; [by apply Hat|]. simpl. destruct i as [|j].
    + by rewrite (inv_header _ _ _ HI).
    + rewrite list_lookup_fmap.
      destruct (lookup_lt_is_Some_2 l j) as [x Hx].
      { apply lookup_lt_Some in Hc. lia. }
      rewrite Hx, (take_S_r _ _ _ Hx), last_ptr_snoc. done.
  - intros i j a b Hij Ha Hb. rewrite list_lookup_fmap in Ha, Hb.
    destruct (l !! i) as [ca|] eqn:Hca; [|done]. injection Ha as <-.
    destruct (l !! j) as [cb|] eqn:Hcb; [|done]. injection Hb as <-.
    eexists _, _. split_and!; [by apply Hat|by apply Hat|]. simpl.
    pose proof (inv_sorted _ _ _ HI) as Hs.
    rewrite <- (take_drop_middle _ _ _ Hca) in Hs.
    apply sorted_app_inv in Hs as (_ & Hs & _).
    apply StronglySorted_inv in Hs as [_ Hs]. rewrite Forall_forall in Hs.
    apply Hs. apply list_elem_of_lookup. exists (j - S i)%nat.
    rewrite lookup_drop. rewrite <- Hcb. f_equal. lia.
Qed.

(** C2, as the code has it.  The tail is the node with the greatest key
    as long as there is a node; in an empty container it is [nil] or, once
    the last node has been deleted, the header. *)
Theorem tail_is_maximum s :
  reachable s →
  (Length s = 0 ↔ tail (sl s) = None ∨ tail (sl s) = header (sl s)) ∧
  (Length s ≠ 0 →
     ∃ a n nodes, tail (sl s) = Some a ∧ heap s !! a = Some n ∧
       level0 s = Some nodes ∧ last nodes = Some a ∧
       ∀ b, b ∈ nodes → b ≠ a →
            ∃ nb, heap s !! b = Some nb ∧ ltb (key nb) (key n) = true).
Proof.
  intros [l HI]%reachable_Inv. unfold Length.
  rewrite (inv_length _ _ _ HI), (inv_header _ _ _ HI).
  pose proof (inv_tail _ _ _ HI) as Htl.
  destruct l as [|c0 l0 _] using rev_ind.
  { simpl in *. split; [done|lia]. }
  rewrite last_snoc in Htl. set (l := l0 ++ [c0]) in *.
  assert (c0 ∈ l) as Hc0 by (apply elem_of_app; right; by left).
  assert (c_addr c0 ≠ 0%nat) as Hhd.
  { pose proof (inv_nodup _ _ _ HI) as [Hnd _]%NoDup_cons. intros E. apply Hnd.
    rewrite <- E. by apply list_elem_of_fmap_2. }
  assert (Z.of_nat (length l) ≠ 0) as Hlen by (unfold l; rewrite length_app; simpl; lia).
  split.
  - rewrite Htl. split; [done|]. intros [?|[= ?]]; done.
  - intros _. destruct (Inv_lookup _ _ _ _ HI Hc0) as (p & t & Hn).
    exists (c_addr c0), (node_of p c0 t nobody), (c_addr <$> l).
    split_and!; [done|done|by eapply level0_spec|by unfold l; rewrite fmap_last, last_snoc|].
    intros b (x & -> & Hx)%list_elem_of_fmap Hb.
    destruct (Inv_lookup _ _ _ _ HI Hx) as (px & tx & Hnx).
    eexists. split; [done|]. simpl.
    apply elem_of_app in Hx as [Hx|Hx%list_elem_of_singleton]; [|by subst].
    pose proof (inv_sorted _ _ _ HI) as Hs. apply sorted_app_inv in Hs as (_ & _ & Hs).
    apply Hs; [done|by left].
Qed.

Lemma below_app k p r :
  Forall (λ c, ltb (c_key c) k = true) p → below k (p ++ r) = p ++ below k r.
Proof. induction 1 as [|c p Hc _ IH]; simpl; [done|]. by rewrite Hc, IH. Qed.

Lemma from_app k p r :
  Forall (λ c, ltb (c_key c) k = true) p → from k (p ++ r) = from k r.
Proof. induction 1 as [|c p Hc _ IH]; simpl; [done|]. by rewrite Hc, IH. Qed.

Lemma del_put_cells n rl k v l :
  hit k l = None → del_cells k (put_cells n rl k v l) = l.
Proof.
  intros Hhit. unfold put_cells.
  assert (∀ c, c_key c = k →
    del_cells k (below k l ++ c :: from k l) = l) as Hgen.
  { intros c Hc. unfold del_cells, hit.
    rewrite (below_app _ _ _ (below_lt k l)), (from_app _ _ _ (below_lt k l)).
    simpl. rewrite Hc, ltb_irrefl, decide_True by done. simpl.
    by rewrite app_nil_r, below_from. }
  destruct l as [|c0 l0]; [|rewrite Hhit; by apply Hgen].
  by apply (Hgen (mkCell n k v 1)).
Qed.

(** C6. Putting a key that is not stored and deleting it again leaves a
    container with the same length and the same answers to [Get] and to
    all three range queries. *)
Theorem Put_Del_roundtrip s rl k v :
  reachable s → 1 ≤ rl ≤ MaxLevel → Get k s = Some (zero, KeyNotFound) →
  ∃ s1 s2, Put rl k v s = Some s1 ∧ Del k s1 = Some (s2, None) ∧
    Length s2 = Length s ∧
    (∀ k', Get k' s2 = Get k' s) ∧
    (∀ a b, RangeByKey a b s2 = RangeByKey a b s) ∧
    (∀ a n, RangeByCount a n s2 = RangeByCount a n s) ∧
    (∀ i n, RangeByIndex i n s2 = RangeByIndex i n s).
Proof.
  intros (l & HI & Hfit)%reachable_Inv_fits Hrl Hk.
  pose proof (Get_absent _ _ _ _ _ HI Hk) as Hhit.
  destruct (Put_spec _ _ _ rl k v HI Hrl (Inv_fits _ _ _ HI Hfit)) as (s1 & E1 & HI1 & Hlen1).
  pose proof (Inv_length_le _ _ _ HI1) as Hl1.
  destruct (Del_spec _ _ _ k HI1 ltac:(lia)) as (s2 & E2 & HI2 & _).
  rewrite (del_put_cells _ _ _ _ _ Hhit) in HI2.
  assert (hit k (put_cells (length (heap s)) rl k v l) ≠ None) as Hhit1.
  { intros E. pose proof (del_put_cells (length (heap s)) rl k v l Hhit) as Hd.
    unfold del_cells in Hd. rewrite E in Hd.
    pose proof (f_equal length Hd) as Hlen. unfold put_cells in Hlen.
    destruct l; [done|]. rewrite Hhit in Hlen.
    pose proof (f_equal length (below_from k (c :: l))) as Hbf.
    rewrite length_app in *. simpl in *. lia. }
  destruct (hit k (put_cells _ _ _ _ _)); [|done].
  exists s1, s2. split_and!; [done|done| | | | |].
  - unfold Length. by rewrite (inv_length _ _ _ HI), (inv_length _ _ _ HI2).
  - intros k'. by rewrite (Get_spec _ _ _ k' HI), (Get_spec _ _ _ k' HI2).
  - intros a b. by rewrite (RangeByKey_spec _ _ _ a b HI), (RangeByKey_spec _ _ _ a b HI2).
  - intros a n. by rewrite (RangeByCount_spec _ _ _ a n HI), (RangeByCount_spec _ _ _ a n HI2).
  - intros i n. by rewrite (RangeByIndex_spec _ _ _ i n HI), (RangeByIndex_spec _ _ _ i n HI2).
Qed.

(** C7. [Put] of a key that is stored writes the value of the node that
    holds the key and nothing else: the container struct, the size of the
    heap and all other nodes stay as they are, and so do the key, the level
    and the links of that node. *)
Theorem Put_existing_overwrites_value s rl k v v0 :
  reachable s → Get k s = Some (v0, None) →
  ∃ a n, heap s !! a = Some n ∧ key n = k ∧ value n = v0 ∧
    Put rl k v s = Some (mkState (<[a := set_value n v]> (heap s)) (sl s)).
Proof.
  intros [l HI]%reachable_Inv Hg. rewrite (Get_spec _ _ _ k HI) in Hg.
  destruct (hit k l) as [y|] eqn:Hhit; [|done]. injection Hg as <-.
  destruct (Put_update_spec _ _ _ rl _ v _ HI Hhit) as (n & Hn & Hk & E & _).
  exists (c_addr y), n. split_and!; try done.
  destruct (Inv_lookup _ _ _ _ HI (hit_elem _ _ _ Hhit)) as (p & t & Hn').
  rewrite Hn in Hn'. by injection Hn' as ->.
Qed.

(** C8. A call that returns an error leaves the state as it was; [Del] of
    a key that is not stored returns the error of a missing key. *)
Theorem errors_leave_state s :
  reachable s →
  (∀ c s' e, run c s = Some (s', e) → e ≠ None → s' = s) ∧
  (∀ k x, Get k s = Some (x, KeyNotFound) → Del k s = Some (s, KeyNotFound)).
Proof.
  intros (l & HI & Hfit)%reachable_Inv_fits. pose proof (Inv_fits _ _ _ HI Hfit) as Hl.
  split.
  - intros [k|k|a b|a n|i n] s' e; simpl.
    + destruct (Get k s) as [[? ?]|]; simpl; [|done]. by intros [= <- <-].
    + destruct (hit k l) as [y|] eqn:Hhit.
      * destruct (Del_present_spec _ _ _ _ _ HI Hhit ltac:(lia)) as (s'' & -> & _).
        by intros [= <- <-].
      * rewrite (Del_absent_spec _ _ _ _ HI Hhit). by intros [= <- <-].
    + destruct (RangeByKey a b s) as [[? ?]|]; simpl; [|done]. by intros [= <- <-].
    + destruct (RangeByCount a n s) as [[? ?]|]; simpl; [|done]. by intros [= <- <-].
    + destruct (RangeByIndex i n s) as [[? ?]|]; simpl; [|done]. by intros [= <- <-].
  - intros k x Hk. eapply Del_absent_spec; [done|]. by eapply Get_absent.
Qed.

(** C10. [RangeByIndex] with count 0 returns the error of a zero count
    whatever [start] is, so the error of an index out of range only comes
    with a count that is not 0. *)
Theorem RangeByIndex_zero_count_first (s : state K V) start :
  RangeByIndex start 0 s = Some ([], ZeroCount) ∧
  ∀ count r, RangeByIndex start count s = Some (r, IndexOutOfRange) → count ≠ 0.
Proof.
  assert (RangeByIndex start 0 s = Some ([], ZeroCount)) as H0.
  { unfold RangeByIndex. by rewrite decide_True. }
  split; [done|]. intros count r E ->. rewrite H0 in E. discriminate.
Qed.

(** ** The contents of a container and what the operations do to them *)

(** The key and value of each node of a list of nodes. *)
Fixpoint read_all (h : heap_t) (nodes : list addr) : option (list (K * V)) :=
  match nodes with
  | [] => Some []
  | a :: r => n ← h !! a; its ← read_all h r; Some ((key n, value n) :: its)
  end.

(** The pairs held by the nodes of the level-0 chain, in chain order. *)
Definition contents (s : state K V) : option (list (K * V)) :=
  nodes ← level0 s; read_all (heap s) nodes.

Lemma read_all_spec (h : heap_t) prev L nx l :
  repr h prev L nx → sublist l L → read_all h (c_addr <$> l) = Some (kv <$> l).
Proof.
  intros Hr. induction l as [|c r IH]; intros Hsub; [done|].
  rewrite !fmap_cons. cbn [read_all].
  assert (c ∈ L) as Hc by (eapply elem_of_sublist; [by left|done]).
  destruct (repr_elem _ _ _ _ _ Hr Hc) as (p & t & ->). simpl.
  rewrite IH; [done|]. etrans; [|done]. by apply sublist_cons.
Qed.

Lemma contents_spec s hd l : Inv s hd l → contents s = Some (kv <$> l).
Proof.
  intros HI. unfold contents. rewrite (level0_spec _ _ _ HI). simpl.
  eapply read_all_spec; [apply (inv_repr _ _ _ HI)|]. by apply sublist_cons.
Qed.

Lemma filter_all {A} (P : A → Prop) `{∀ x, Decision (P x)} (l : list A) :
  Forall P l → filter P l = l.
Proof.
  induction 1 as [|x l Hx _ IH]; [done|]. by rewrite filter_cons_True, IH.
Qed.

Lemma filter_none {A} (P : A → Prop) `{∀ x, Decision (P x)} (l : list A) :
  Forall (λ x, ¬ P x) l → filter P l = [].
Proof.
  induction 1 as [|x l Hx _ IH]; [done|]. by rewrite filter_cons_False.
Qed.

Lemma sorted_tail_gt c r k :
  StronglySorted key_lt (c :: r) → ltb (c_key c) k = false →
  Forall (λ x, ltb k (c_key x) = true) r.
Proof.
  intros [_ Hc]%StronglySorted_inv Hk. eapply Forall_impl; [exact Hc|].
  intros x Hx. unfold key_lt in Hx. simpl.
  destruct (ltb k (c_key x)) eqn:E; [done|].
  destruct (ltb (c_key x) k) eqn:E'.
  - by rewrite (ltb_trans _ _ _ Hx E') in Hk.
  - rewrite (ltb_total _ _ E E') in Hk. congruence.
Qed.

(** The cells from [k] on are the cells with keys [>= k]. *)
Lemma from_filter k l :
  StronglySorted key_lt l → from k l = filter (λ c, leb k (c_key c) = true) l.
Proof.
  induction 1 as [|c r Hs IH Hc]; [done|]. simpl.
  destruct (ltb (c_key c) k) eqn:E.
  - rewrite filter_cons_False; [done|]. unfold leb. by rewrite E.
  - rewrite filter_cons_True by (unfold leb; by rewrite E). f_equal.
    symmetry. apply filter_all.
    eapply Forall_impl; [apply (sorted_tail_gt c r k); [by constructor|done]|].
    intros x Hx. simpl in *. apply leb_true. by left.
Qed.

(** The cells up to the one that holds [k] are the cells with keys [<= k]. *)
Lemma upto_hit_filter k l :
  StronglySorted key_lt l → upto_hit k l = filter (λ c, leb (c_key c) k = true) l.
Proof.
  unfold upto_hit, hit. induction 1 as [|c r Hs IH Hc]; [done|]. simpl.
  destruct (ltb (c_key c) k) eqn:E.
  - rewrite filter_cons_True by (apply leb_true; by left). simpl. by rewrite IH.
  - pose proof (sorted_tail_gt c r k ltac:(by constructor) E) as Hgt.
    assert (filter (λ c0, leb (c_key c0) k = true) r = []) as Hr.
    { apply filter_none. eapply Forall_impl; [exact Hgt|]. intros x Hx. simpl in *.
      unfold leb. by rewrite Hx. }
    destruct (decide (c_key c = k)) as [Hk|Hk]; simpl.
    + rewrite filter_cons_True by (apply leb_true; by right). by rewrite Hr.
    + rewrite filter_cons_False, Hr; [done|].
      intros [?|?]%leb_true; [congruence|done].
Qed.

Lemma filter_kv (P : K → Prop) `{∀ k, Decision (P k)} (l : list cell) :
  kv <$> filter (λ c, P (c_key c)) l = filter (λ x : K * V, P x.1) (kv <$> l).
Proof.
  induction l as [|c r IH]; [done|]. rewrite fmap_cons.
  destruct (decide (P (c_key c))).
  - rewrite !filter_cons_True by done. by rewrite fmap_cons, IH.
  - by rewrite !filter_cons_False.
Qed.

Lemma filter_kv_ge k (l : list cell) :
  kv <$> filter (λ c, leb k (c_key c) = true) l
  = filter (λ x : K * V, leb k x.1 = true) (kv <$> l).
Proof. exact (filter_kv (λ k', leb k k' = true) l). Qed.

Lemma filter_kv_le k (l : list cell) :
  kv <$> filter (λ c, leb (c_key c) k = true) l
  = filter (λ x : K * V, leb x.1 k = true) (kv <$> l).
Proof. exact (filter_kv (λ k', leb k' k = true) l). Qed.

(** [RangeByCount] for every count but 0 and [MinInt]: the first [count]
    pairs with keys [>= start] in ascending order, or the first [-count]
    pairs with keys [<= start] in descending order. *)
Theorem RangeByCount_collects s start count :
  reachable s → count ≠ 0 → MinInt < count ≤ MaxInt →
  ∃ its, contents s = Some its ∧
    RangeByCount start count s =
      Some (if decide (0 < count)
            then take (Z.to_nat count) (filter (λ x, leb start x.1 = true) its)
            else take (Z.to_nat (- count))
                   (reverse (filter (λ x, leb x.1 start = true) its)), None).
Proof.
  intros [l HI]%reachable_Inv Hc Hint. exists (kv <$> l).
  pose proof (inv_sorted _ _ _ HI) as Hs.
  split; [by eapply contents_spec|].
  rewrite (RangeByCount_spec _ _ _ start count HI), decide_False by done.
  do 2 f_equal. unfold count_cells, count_abs.
  destruct (decide (count < 0)).
  - rewrite decide_False by lia.
    rewrite wrap_small by (unfold MinInt, MaxInt in *; lia).
    rewrite fmap_take, fmap_reverse, (upto_hit_filter _ _ Hs).
    rewrite filter_kv_le. f_equal; lia.
  - rewrite decide_True by lia.
    rewrite fmap_take, (from_filter _ _ Hs).
    by rewrite filter_kv_ge.
Qed.

(** [RangeByIndex] for every count but 0 and [MinInt] and every start in
    range: the pairs from the position that [start] denotes on, forward or
    backward, up to the magnitude of [count]. *)
Theorem RangeByIndex_collects s start count :
  reachable s → count ≠ 0 → MinInt < count ≤ MaxInt →
  - Length s ≤ start < Length s →
  ∃ its, contents s = Some its ∧ Z.of_nat (length its) = Length s ∧
    RangeByIndex start count s =
      Some (let p := Z.to_nat (if decide (0 ≤ start) then start else Length s + start) in
            if decide (0 < count)
            then take (Z.to_nat count) (drop p its)
            else take (Z.to_nat (- count)) (reverse (take (S p) its)), None).
Proof.
  intros [l HI]%reachable_Inv Hc Hint Hstart. exists (kv <$> l).
  unfold Length in *. rewrite (inv_length _ _ _ HI) in *.
  split; [by eapply contents_spec|]. split; [by rewrite length_fmap|].
  rewrite (RangeByIndex_spec _ _ _ start count HI), decide_False by done.
  rewrite (decide_False (P := Z.of_nat (length l) ≤ start ∨ _)) by lia. do 2 f_equal.
  unfold index_cells, count_abs, index_pos. cbv zeta.
  destruct (decide (count < 0)); destruct (decide (0 < count)); try lia.
  - rewrite wrap_small by (unfold MinInt, MaxInt in *; lia).
    rewrite fmap_take, fmap_reverse, fmap_take. f_equal; lia.
  - by rewrite fmap_take, fmap_drop.
Qed.

(** No operation panics or runs on for ever in a reachable state. *)
Theorem operations_return s :
  reachable s →
  (∀ rl k v, 1 ≤ rl ≤ MaxLevel → is_Some (Put rl k v s)) ∧
  (∀ k, is_Some (Get k s)) ∧ (∀ k, is_Some (Del k s)) ∧
  (∀ a b, is_Some (RangeByKey a b s)) ∧
  (∀ a n, is_Some (RangeByCount a n s)) ∧
  (∀ i n, is_Some (RangeByIndex i n s)).
Proof.
  intros (l & HI & Hfit)%reachable_Inv_fits. pose proof (Inv_fits _ _ _ HI Hfit) as Hl.
  split_and!.
  - intros rl k v Hrl. destruct (Put_spec _ _ _ rl k v HI Hrl Hl) as (s' & -> & _). eauto.
  - intros k. rewrite (Get_spec _ _ _ k HI). eauto.
  - intros k. destruct (Del_spec _ _ _ k HI ltac:(lia)) as (s' & -> & _). eauto.
  - intros a b. rewrite (RangeByKey_spec _ _ _ a b HI). eauto.
  - intros a n. rewrite (RangeByCount_spec _ _ _ a n HI). eauto.
  - intros i n. rewrite (RangeByIndex_spec _ _ _ i n HI). eauto.
Qed.

(** *** The container as a sorted association list *)

Lemma below_filter k l :
  StronglySorted key_lt l → below k l = filter (λ c, ltb (c_key c) k = true) l.
Proof.
  induction 1 as [|c r Hs IH Hc]; [done|]. simpl.
  destruct (ltb (c_key c) k) eqn:E.
  - by rewrite filter_cons_True, IH.
  - rewrite filter_cons_False by congruence. symmetry. apply filter_none.
    eapply Forall_impl; [apply (sorted_tail_gt c r k); [by constructor|done]|].
    intros x Hx. simpl in *. rewrite (ltb_asym _ _ Hx). done.
Qed.

(** The cells after the one that holds [k], or after where it would be. *)
Definition above (k : K) (l : list cell) : list cell :=
  match hit k l with
  | Some _ => drop 1 (from k l)
  | None => from k l
  end.

Lemma above_filter k l :
  StronglySorted key_lt l → above k l = filter (λ c, ltb k (c_key c) = true) l.
Proof.
  unfold above, hit. induction 1 as [|c r Hs IH Hc]; [done|]. simpl.
  destruct (ltb (c_key c) k) eqn:E.
  - rewrite filter_cons_False by (rewrite (ltb_asym _ _ E); done). exact IH.
  - pose proof (sorted_tail_gt c r k ltac:(by constructor) E) as Hgt.
    pose proof (filter_all (λ c0, ltb k (c_key c0) = true) r Hgt) as Hr.
    destruct (decide (c_key c = k)) as [Hk|Hk]; simpl.
    + rewrite filter_cons_False, Hr; [done|]. by rewrite Hk, ltb_irrefl.
    + rewrite filter_cons_True, Hr; [done|].
      destruct (ltb k (c_key c)) eqn:E'; [done|]. by rewrite (ltb_total _ _ E E') in Hk.
Qed.

Lemma kv_with_val_other a v (l : list cell) :
  (∀ c, c ∈ l → c_addr c ≠ a) → kv <$> (with_val a v <$> l) = kv <$> l.
Proof.
  intros Hl. rewrite <- list_fmap_compose. apply list_fmap_ext.
  intros i c Hc. simpl. unfold with_val. rewrite decide_False; [done|].
  apply Hl. by eapply list_elem_of_lookup_2.
Qed.

Lemma kv_put_cells n rl k v l :
  StronglySorted key_lt l → NoDup (c_addr <$> l) →
  kv <$> put_cells n rl k v l = (kv <$> below k l) ++ (k, v) :: (kv <$> above k l).
Proof.
  intros Hs Hnd. unfold put_cells, above. destruct l as [|c0 l0] eqn:El; [done|].
  rewrite <- El in *. clear El c0 l0.
  destruct (hit k l) as [y|] eqn:Hhit.
  - destruct (hit_Some _ _ _ Hhit) as [Hyk [r Hfrom]]. rewrite Hfrom. simpl.
    rewrite <- (below_from k l), Hfrom in Hnd |- *.
    rewrite fmap_app, fmap_cons in Hnd. apply NoDup_app in Hnd as (_ & Hby & Hyr).
    apply NoDup_cons in Hyr as [Hyr _].
    rewrite (below_app _ _ _ (below_lt k l)). simpl. rewrite Hyk, ltb_irrefl, app_nil_r.
    rewrite !fmap_app, !fmap_cons. rewrite !kv_with_val_other.
    + do 2 f_equal. unfold with_val, kv. rewrite decide_True by done. simpl. by rewrite Hyk.
    + intros c Hc E. apply Hyr. rewrite <- E. by apply list_elem_of_fmap_2.
    + intros c Hc E. apply (Hby (c_addr c)); [by apply list_elem_of_fmap_2|].
      rewrite E. by left.
  - by rewrite fmap_app, fmap_cons.
Qed.

Lemma kv_del_cells k l :
  kv <$> del_cells k l = (kv <$> below k l) ++ (kv <$> above k l).
Proof.
  unfold del_cells, above. destruct (hit k l); [by rewrite fmap_app|].
  by rewrite <- fmap_app, below_from.
Qed.

Lemma filter_kv_lt k (l : list cell) :
  kv <$> filter (λ c, ltb (c_key c) k = true) l
  = filter (λ x : K * V, ltb x.1 k = true) (kv <$> l).
Proof. exact (filter_kv (λ k', ltb k' k = true) l). Qed.

Lemma filter_kv_gt k (l : list cell) :
  kv <$> filter (λ c, ltb k (c_key c) = true) l
  = filter (λ x : K * V, ltb k x.1 = true) (kv <$> l).
Proof. exact (filter_kv (λ k', ltb k k' = true) l). Qed.

(** The contents are sorted by key, [Length] counts them and [Get] looks a
    key up in them. *)
Theorem contents_sorted_Get s :
  reachable s →
  ∃ its, contents s = Some its ∧
    StronglySorted (λ x y : K * V, ltb x.1 y.1 = true) its ∧
    Z.of_nat (length its) = Length s ∧
    ∀ k, Get k s = Some (match list_find (λ x, x.1 = k) its with
                         | Some (_, (_, v)) => (v, None)
                         | None => (zero, KeyNotFound)
                         end).
Proof.
  intros [l HI]%reachable_Inv. exists (kv <$> l).
  pose proof (inv_sorted _ _ _ HI) as Hs.
  split_and!; [by eapply contents_spec|by apply sorted_kv| |].
  { unfold Length. by rewrite length_fmap, (inv_length _ _ _ HI). }
  intros k. rewrite (Get_spec _ _ _ k HI). f_equal.
  destruct (list_find (λ x : K * V, x.1 = k) (kv <$> l)) as [[i [k' v]]|] eqn:Hf.
  - apply list_find_Some in Hf as (Hi & Hk & _). simpl in Hk. subst k'.
    rewrite list_lookup_fmap in Hi. destruct (l !! i) as [c|] eqn:Hc; [|done].
    injection Hi as <- <-.
    by rewrite (hit_self _ _ Hs (list_elem_of_lookup_2 _ _ _ Hc)).
  - destruct (hit k l) as [y|] eqn:Hhit; [|done].
    apply list_find_None in Hf. rewrite Forall_forall in Hf.
    exfalso. apply (Hf (kv y)); [|by apply hit_Some in Hhit as [? _]].
    apply list_elem_of_fmap_2. by eapply hit_elem.
Qed.

(** [Put] returns, and the contents after it are the pairs with smaller
    keys, the pair put, and the pairs with greater keys. *)
Theorem Put_contents s rl k v :
  reachable s → 1 ≤ rl ≤ MaxLevel →
  ∃ s' its, Put rl k v s = Some s' ∧ contents s = Some its ∧
    contents s' = Some (filter (λ x, ltb x.1 k = true) its ++
                        (k, v) :: filter (λ x, ltb k x.1 = true) its).
Proof.
  intros (l & HI & Hfit)%reachable_Inv_fits Hrl.
  pose proof (inv_sorted _ _ _ HI) as Hs.
  destruct (Put_spec _ _ _ rl k v HI Hrl (Inv_fits _ _ _ HI Hfit)) as (s' & E & HI' & _).
  exists s', (kv <$> l). split_and!; [done|by eapply contents_spec|].
  rewrite (contents_spec _ _ _ HI'). f_equal.
  rewrite kv_put_cells; [|done|by apply (NoDup_cons_1_2 _ _ (inv_nodup _ _ _ HI))].
  by rewrite (below_filter _ _ Hs), (above_filter _ _ Hs), filter_kv_lt, filter_kv_gt.
Qed.

(** [Del] returns; it fails for a key that is not stored, and the contents
    after it are the pairs with other keys. *)
Theorem Del_contents s k :
  reachable s →
  ∃ s' its, contents s = Some its ∧
    Del k s = Some (s', if decide (k ∈ its.*1) then None else KeyNotFound) ∧
    contents s' = Some (filter (λ x, ltb x.1 k = true) its ++
                        filter (λ x, ltb k x.1 = true) its).
Proof.
  intros (l & HI & Hfit)%reachable_Inv_fits. pose proof (Inv_fits _ _ _ HI Hfit) as Hl.
  pose proof (inv_sorted _ _ _ HI) as Hs.
  destruct (Del_spec _ _ _ k HI ltac:(lia)) as (s' & E & HI' & _).
  exists s', (kv <$> l). split_and!; [by eapply contents_spec| |].
  - rewrite E. do 2 f_equal. destruct (hit k l) as [y|] eqn:Hhit.
    + rewrite decide_True; [done|]. apply list_elem_of_fmap. exists (kv y).
      split; [by apply hit_Some in Hhit as [? _]|].
      apply list_elem_of_fmap_2. by eapply hit_elem.
    + rewrite decide_False; [done|].
      intros ([k' v'] & -> & (c & [= -> ->] & Hc)%list_elem_of_fmap)%list_elem_of_fmap.
      by apply (hit_None_elem _ _ _ Hs Hhit Hc).
  - rewrite (contents_spec _ _ _ HI'). f_equal. rewrite kv_del_cells.
    by rewrite (below_filter _ _ Hs), (above_filter _ _ Hs), filter_kv_lt, filter_kv_gt.
Qed.

(** ** Further properties of the operations *)

(** *** The pairs after [Put] and [Del] *)

(** Insertion into and removal from a list of pairs sorted by key. *)
Definition pairs_put (k : K) (v : V) (its : list (K * V)) : list (K * V) :=
  filter (λ x, ltb x.1 k = true) its ++ (k, v) :: filter (λ x, ltb k x.1 = true) its.

Definition pairs_del (k : K) (its : list (K * V)) : list (K * V) :=
  filter (λ x, x.1 ≠ k) its.

Lemma elem_of_pairs_put k v its k' v' :
  (k', v') ∈ pairs_put k v its ↔ (k' = k ∧ v' = v) ∨ (k' ≠ k ∧ (k', v') ∈ its).
Proof.
  unfold pairs_put. rewrite elem_of_app, elem_of_cons, !list_elem_of_filter. simpl.
  split.
  - intros [[Hlt ?]|[[= -> ->]|[Hlt ?]]]; [right|by left|right].
    + split; [by apply ltb_neq|done].
    + split; [|done]. intros ->. by apply ltb_neq in Hlt.
  - intros [[-> ->]|[Hne Hin]]; [right; by left|].
    destruct (ltb k' k) eqn:E; [by left|]. right. right. split; [|done].
    destruct (ltb k k') eqn:E'; [done|]. by rewrite (ltb_total _ _ E E') in Hne.
Qed.

Lemma elem_of_pairs_del k its k' v' :
  (k', v') ∈ pairs_del k its ↔ k' ≠ k ∧ (k', v') ∈ its.
Proof. unfold pairs_del. by rewrite list_elem_of_filter. Qed.

Lemma del_cells_filter k l :
  StronglySorted key_lt l → del_cells k l = filter (λ c, c_key c ≠ k) l.
Proof.
  intros Hs. unfold del_cells, hit. induction Hs as [|c r Hs IH Hc]; [done|]. simpl.
  destruct (ltb (c_key c) k) eqn:E.
  - rewrite filter_cons_True by (by apply ltb_neq). rewrite <- IH.
    by destruct (from k r) as [|y t]; [|case_decide].
  - pose proof (sorted_tail_gt c r k ltac:(by constructor) E) as Hgt.
    assert (filter (λ c0, c_key c0 ≠ k) r = r) as Hr.
    { apply filter_all. eapply Forall_impl; [exact Hgt|]. intros x Hx. simpl in *.
      intros Hk. by rewrite Hk, ltb_irrefl in Hx. }
    destruct (decide (c_key c = k)) as [Hk|Hk]; simpl.
    + rewrite filter_cons_False by (intros ?; done). by rewrite Hr.
    + by rewrite filter_cons_True, Hr.
Qed.

Lemma length_put_cells n rl k v l :
  length (put_cells n rl k v l)
  = match hit k l with Some _ => length l | None => S (length l) end.
Proof.
  unfold put_cells. destruct l as [|c0 l0] eqn:El; [done|]. rewrite <- El. clear El.
  destruct (hit k l); [by rewrite length_fmap|].
  rewrite <- (below_from k l) at 3. rewrite !length_app. simpl. lia.
Qed.

Lemma length_del_cells k l :
  length (del_cells k l)
  = match hit k l with Some _ => pred (length l) | None => length l end.
Proof.
  unfold del_cells. destruct (hit k l) as [y|] eqn:Hh; [|done].
  apply hit_Some in Hh as [_ [r Hr]].
  assert (length l = length (below k l) + S (length r))%nat as ->.
  { rewrite <- (below_from k l) at 1. by rewrite Hr, length_app. }
  rewrite Hr, length_app. simpl. rewrite ?drop_0. lia.
Qed.

Lemma Put_pairs s hd l rl k v :
  Inv s hd l → 1 ≤ rl ≤ MaxLevel → Z.of_nat (length l) < MaxInt →
  ∃ s' l', Put rl k v s = Some s' ∧ Inv s' hd l' ∧
    kv <$> l' = pairs_put k v (kv <$> l) ∧
    length l' = match hit k l with Some _ => length l | None => S (length l) end ∧
    (length (heap s') ≤ S (length (heap s)))%nat.
Proof.
  intros HI Hrl Hfit. pose proof (inv_sorted _ _ _ HI) as Hs.
  destruct (Put_spec _ _ _ rl k v HI Hrl Hfit) as (s' & E & HI' & Hlen).
  exists s', (put_cells (length (heap s)) rl k v l).
  split_and!; [done|done| |apply length_put_cells|done].
  rewrite kv_put_cells; [|done|by apply (NoDup_cons_1_2 _ _ (inv_nodup _ _ _ HI))].
  unfold pairs_put.
  by rewrite (below_filter _ _ Hs), (above_filter _ _ Hs), filter_kv_lt, filter_kv_gt.
Qed.

Lemma Del_pairs s hd l k :
  Inv s hd l → Z.of_nat (length l) ≤ MaxInt + 1 →
  ∃ s' l', Del k s = Some (s', match hit k l with Some _ => None | None => KeyNotFound end) ∧
    Inv s' hd l' ∧ kv <$> l' = pairs_del k (kv <$> l) ∧
    length l' = match hit k l with Some _ => pred (length l) | None => length l end ∧
    length (heap s') = length (heap s).
Proof.
  intros HI Hfit. pose proof (inv_sorted _ _ _ HI) as Hs.
  destruct (Del_spec _ _ _ k HI Hfit) as (s' & E & HI' & Hlen).
  exists s', (del_cells k l).
  split_and!; [done|done| |apply length_del_cells|done].
  rewrite (del_cells_filter _ _ Hs). unfold pairs_del.
  exact (filter_kv (λ k', k' ≠ k) l).
Qed.

(** *** [Get] after [Put] and [Del] *)

Lemma elem_kv (l : list cell) k v :
  (k, v) ∈ kv <$> l ↔ ∃ c, c ∈ l ∧ c_key c = k ∧ c_val c = v.
Proof.
  rewrite list_elem_of_fmap. split.
  - intros (c & [= -> ->] & Hc). eauto.
  - intros (c & Hc & <- & <-). eauto.
Qed.

Lemma Get_in s hd l k v : Inv s hd l → (k, v) ∈ kv <$> l → Get k s = Some (v, None).
Proof. intros HI Hin. apply (Get_Some _ _ _ _ _ HI). by apply elem_kv. Qed.

Lemma Get_out s hd l k :
  Inv s hd l → (∀ v, (k, v) ∉ kv <$> l) → Get k s = Some (zero, KeyNotFound).
Proof.
  intros HI Hout. rewrite (Get_spec _ _ _ k HI).
  destruct (hit k l) as [y|] eqn:Hh; [|done]. exfalso.
  apply (Hout (c_val y)), elem_kv. exists y.
  split_and!; [by eapply hit_elem|by apply hit_Some in Hh as [? _]|done].
Qed.

Lemma Get_cases s hd l k :
  Inv s hd l →
  (∃ v, (k, v) ∈ kv <$> l ∧ Get k s = Some (v, None)) ∨
  ((∀ v, (k, v) ∉ kv <$> l) ∧ Get k s = Some (zero, KeyNotFound)).
Proof.
  intros HI. rewrite (Get_spec _ _ _ k HI).
  destruct (hit k l) as [y|] eqn:Hh.
  - left. exists (c_val y). split; [|done]. apply elem_kv. exists y.
    split_and!; [by eapply hit_elem|by apply hit_Some in Hh as [? _]|done].
  - right. split; [|done]. intros v (c & Hc & Hk & _)%elem_kv.
    by apply (hit_None_elem _ _ _ (inv_sorted _ _ _ HI) Hh Hc).
Qed.

Lemma Get_same_pairs s s' hd hd' l l' k :
  Inv s hd l → Inv s' hd' l' →
  (∀ v, (k, v) ∈ kv <$> l' ↔ (k, v) ∈ kv <$> l) → Get k s' = Get k s.
Proof.
  intros HI HI' Hiff. destruct (Get_cases _ _ _ k HI) as [(v & Hin & ->)|[Hout ->]].
  - apply (Get_in _ _ _ _ _ HI'). by apply Hiff.
  - apply (Get_out _ _ _ _ HI'). intros v Hv. apply (Hout v). by apply Hiff.
Qed.

(** After [Put(k, v)] the key [k] reads as [v], and every other key reads
    as before. *)
Theorem Put_then_Get s rl k v :
  reachable s → 1 ≤ rl ≤ MaxLevel →
  ∃ s', Put rl k v s = Some s' ∧ Get k s' = Some (v, None) ∧
        ∀ k', k' ≠ k → Get k' s' = Get k' s.
Proof.
  intros (l & HI & Hfit)%reachable_Inv_fits Hrl.
  destruct (Put_pairs _ _ _ rl k v HI Hrl (Inv_fits _ _ _ HI Hfit))
    as (s' & l' & E & HI' & Hkv & _).
  exists s'. split_and!; [done| |].
  - apply (Get_in _ _ _ _ _ HI'). rewrite Hkv. apply elem_of_pairs_put. by left.
  - intros k' Hk'. apply (Get_same_pairs _ _ _ _ _ _ _ HI HI').
    intros v'. rewrite Hkv, elem_of_pairs_put.
    split; [intros [[? _]|[_ ?]]; done|intros ?; by right].
Qed.

(** After [Del(k)] the key [k] is not found, by [Get] and by a second
    [Del], which changes nothing; every other key reads as before. *)
Theorem Del_then_Get s k :
  reachable s →
  ∃ s' e, Del k s = Some (s', e) ∧ Get k s' = Some (zero, KeyNotFound) ∧
          Del k s' = Some (s', KeyNotFound) ∧
          ∀ k', k' ≠ k → Get k' s' = Get k' s.
Proof.
  intros (l & HI & Hfit)%reachable_Inv_fits. pose proof (Inv_fits _ _ _ HI Hfit) as Hl.
  destruct (Del_pairs _ _ _ k HI ltac:(lia)) as (s' & l' & E & HI' & Hkv & _).
  assert (∀ v, (k, v) ∉ kv <$> l') as Hout.
  { intros v. rewrite Hkv, elem_of_pairs_del. by intros [? _]. }
  eexists s', _. split_and!; [done|by eapply Get_out| |].
  - assert (hit k l' = None) as Hh.
    { destruct (hit k l') as [y|] eqn:Hh; [|done]. exfalso.
      apply (Hout (c_val y)), elem_kv. exists y.
      split_and!; [by eapply hit_elem|by apply hit_Some in Hh as [? _]|done]. }
    by apply (Del_absent_spec _ _ _ _ HI').
  - intros k' Hk'. apply (Get_same_pairs _ _ _ _ _ _ _ HI HI').
    intros v'. rewrite Hkv, elem_of_pairs_del. split; [by intros [_ ?]|done].
Qed.

(** [Put] of a key adds one to the length when [Get] does not find the key
    and leaves the length as it is when it does; [Del] returns the error of
    [Get] and takes one from the length when there is none. *)
Theorem Length_Put_Del s k :
  reachable s →
  ∃ x e, Get k s = Some (x, e) ∧
    (∀ rl v, 1 ≤ rl ≤ MaxLevel →
       ∃ s', Put rl k v s = Some s' ∧
             Length s' = if decide (e = None) then Length s else Length s + 1) ∧
    (∃ s', Del k s = Some (s', e) ∧
           Length s' = if decide (e = None) then Length s - 1 else Length s).
Proof.
  intros (l & HI & Hfit)%reachable_Inv_fits. pose proof (Inv_fits _ _ _ HI Hfit) as Hl.
  rewrite (Get_spec _ _ _ k HI). unfold Length. rewrite (inv_length _ _ _ HI).
  exists (match hit k l with Some y => c_val y | None => zero end),
    (match hit k l with Some _ => None | None => KeyNotFound end).
  split_and!.
  - by destruct (hit k l).
  - intros rl v Hrl.
    destruct (Put_pairs _ _ _ rl k v HI Hrl Hl) as (s' & l' & E & HI' & _ & Hlen & _).
    exists s'. split; [done|]. rewrite (inv_length _ _ _ HI'), Hlen.
    destruct (hit k l); [by rewrite decide_True|rewrite decide_False by done; lia].
  - destruct (Del_pairs _ _ _ k HI ltac:(lia)) as (s' & l' & E & HI' & _ & Hlen & _).
    exists s'. split; [done|]. rewrite (inv_length _ _ _ HI'), Hlen.
    destruct (hit k l) as [y|] eqn:Hh; [|by rewrite decide_False].
    rewrite decide_True by done. apply hit_elem in Hh. destruct l; [by apply elem_of_nil in Hh|].
    simpl. lia.
Qed.

(** *** Sequences of updates *)

(** What a call does to the sorted list of pairs. *)
Definition pairs_op (its : list (K * V)) (o : op K V) : list (K * V) :=
  match o with
  | PutOp _ k v => pairs_put k v its
  | DelOp k => pairs_del k its
  end.

Definition level_ok (o : op K V) : Prop :=
  match o with
  | PutOp rl _ _ => 1 ≤ rl ≤ MaxLevel
  | DelOp _ => True
  end.

Lemma exec_Inv ops :
  ∀ s l, Inv s 0 l → reachable s → Forall level_ok ops →
    Z.of_nat (length (heap s) + length ops) ≤ MaxInt →
    ∃ s' l', exec ops s = Some s' ∧ Inv s' 0 l' ∧ reachable s' ∧
             kv <$> l' = foldl pairs_op (kv <$> l) ops.
Proof.
  induction ops as [|o ops IH]; intros s l HI Hs Hok Hfit.
  { exists s, l. by split_and!. }
  apply Forall_cons in Hok as [Ho Hok]. simpl in Hfit.
  assert (Z.of_nat (length l) < MaxInt) as Hl.
  { apply (Inv_fits _ _ _ HI). lia. }
  destruct o as [rl k v|k]; simpl.
  - destruct (Put_pairs _ _ _ rl k v HI Ho Hl) as (s1 & l1 & E & HI1 & Hkv & _ & Hlen).
    rewrite E. simpl. rewrite <- Hkv. apply IH; [done| |done|lia].
    eapply reach_Put; [done|done|done|lia].
  - destruct (Del_pairs _ _ _ k HI ltac:(lia)) as (s1 & l1 & E & HI1 & Hkv & _ & Hlen).
    rewrite E. simpl. rewrite <- Hkv. apply IH; [done| |done|lia].
    by eapply reach_Del.
Qed.

(** A sequence of [Put] and [Del] calls on a new container runs to its
    end, and leaves the pairs that the same insertions and removals leave
    in a sorted list: the levels drawn have no part in the outcome. *)
Theorem exec_contents ops :
  Forall level_ok ops → Z.of_nat (length ops) < MaxInt →
  ∃ s, exec ops New = Some s ∧ reachable s ∧
       contents s = Some (foldl pairs_op [] ops).
Proof.
  intros Hok Hfit.
  destruct (exec_Inv ops New [] Inv_New reach_New Hok) as (s & l & E & HI & Hs & Hkv).
  { simpl. lia. }
  exists s. split_and!; [done|done|]. rewrite (contents_spec _ _ _ HI). by rewrite Hkv.
Qed.

Lemma pairs_put_del k v l y :
  StronglySorted key_lt l → hit k l = Some y → c_val y = v →
  pairs_put k v (pairs_del k (kv <$> l)) = kv <$> l.
Proof.
  intros Hs Hh Hv. destruct (hit_Some _ _ _ Hh) as [Hk [r Hr]].
  unfold pairs_put, pairs_del. rewrite !list_filter_filter.
  rewrite (list_filter_iff _ (λ x, ltb x.1 k = true)).
  2:{ intros x. split; [by intros [? _]|]. intros Hx. split; [done|]. by apply ltb_neq. }
  rewrite (list_filter_iff (λ x, ltb k x.1 = true ∧ _) (λ x, ltb k x.1 = true)).
  2:{ intros x. split; [by intros [? _]|]. intros Hx. split; [done|].
      intros E. by rewrite E, ltb_irrefl in Hx. }
  rewrite <- filter_kv_lt, <- filter_kv_gt, <- (below_filter _ _ Hs), <- (above_filter _ _ Hs).
  unfold above. rewrite Hh, Hr. simpl. rewrite ?drop_0.
  rewrite <- (below_from k l) at 2. rewrite Hr, fmap_app, fmap_cons.
  change (kv y) with (c_key y, c_val y). by rewrite Hk, Hv.
Qed.

(** Deleting a stored key and putting it back with its value restores the
    pairs and the length. *)
Theorem Del_Put_restores s rl k v :
  reachable s → 1 ≤ rl ≤ MaxLevel → Get k s = Some (v, None) →
  ∃ s1 s2 its, Del k s = Some (s1, None) ∧ Put rl k v s1 = Some s2 ∧
    contents s = Some its ∧ contents s2 = Some its ∧ Length s2 = Length s.
Proof.
  intros (l & HI & Hfit)%reachable_Inv_fits Hrl HG.
  pose proof (Inv_fits _ _ _ HI Hfit) as Hl. pose proof (inv_sorted _ _ _ HI) as Hs.
  rewrite (Get_spec _ _ _ k HI) in HG.
  destruct (hit k l) as [y|] eqn:Hh; [|done]. injection HG as Hv.
  destruct (Del_pairs _ _ _ k HI ltac:(lia)) as (s1 & l1 & E1 & HI1 & Hkv1 & Hlen1 & Hh1).
  rewrite Hh in E1, Hlen1.
  destruct (Put_pairs _ _ _ rl k v HI1 Hrl ltac:(lia))
    as (s2 & l2 & E2 & HI2 & Hkv2 & _).
  exists s1, s2, (kv <$> l). split_and!; [done|done|by eapply contents_spec| |].
  - rewrite (contents_spec _ _ _ HI2), Hkv2, Hkv1. f_equal. by eapply pairs_put_del.
  - unfold Length. rewrite (inv_length _ _ _ HI2), (inv_length _ _ _ HI).
    rewrite <- (length_fmap kv l2), Hkv2, Hkv1, (pairs_put_del _ _ _ _ Hs Hh Hv).
    by rewrite length_fmap.
Qed.

(** *** The chains of the higher levels *)

(** The addresses met when following [forward[i]] from [node]. *)
Fixpoint chain_at (fuel : nat) (h : heap_t) (i : nat) (node : ptr)
  : option (list addr) :=
  match fuel with
  | O => None
  | S fuel' =>
      match node with
      | None => Some []
      | Some a =>
          n ← h !! a;
          nx ← forward n !! i;
          r ← chain_at fuel' h i nx;
          Some (a :: r)
      end
  end.

Definition level_chain (i : nat) (s : state K V) : option (list addr) :=
  first ← get_forward (heap s) (header (sl s)) i;
  chain_at (S (length (heap s))) (heap s) i first.

(** The level of the node at an address. *)
Definition level_at (h : heap_t) (a : addr) : Z :=
  match h !! a with
  | Some n => level n
  | None => 0
  end.

Lemma chain_at_spec (h : heap_t) i :
  ∀ s prev fuel,
    repr h prev s nobody → (length s < fuel)%nat →
    chain_at fuel h i (next_at i s)
    = Some (c_addr <$> filter (λ c, (i < c_lvl c)%nat) s).
Proof.
  induction s as [|x r IH]; intros prev fuel Hr Hf;
    (destruct fuel as [|fuel]; [simpl in Hf; lia|]); [done|].
  destruct Hr as [Hx Hr]. simpl in Hf. cbn [next_at].
  destruct (decide (i < c_lvl x)%nat) as [Hi|Hi].
  - rewrite filter_cons_True by done. cbn [chain_at]. rewrite Hx. simpl.
    rewrite lookup_fwds by done. simpl. rewrite next_or_nobody.
    erewrite IH; [done|done|lia].
  - rewrite filter_cons_False by done. eapply IH; [done|lia].
Qed.

Lemma filter_addr_level (h : heap_t) (i : nat) (l : list cell) :
  (∀ c, c ∈ l → level_at h (c_addr c) = Z.of_nat (c_lvl c)) →
  c_addr <$> filter (λ c, (i < c_lvl c)%nat) l
  = filter (λ a, Z.of_nat i < level_at h a) (c_addr <$> l).
Proof.
  induction l as [|c r IH]; intros Hl; [done|]. rewrite fmap_cons.
  pose proof (Hl c ltac:(by left)) as Hc.
  assert (∀ x, x ∈ r → level_at h (c_addr x) = Z.of_nat (c_lvl x)) as Hr.
  { intros x ?. apply Hl. by right. }
  destruct (decide (i < c_lvl c)%nat).
  - rewrite !filter_cons_True by (done || lia). by rewrite fmap_cons, IH.
  - rewrite !filter_cons_False by (done || lia). by apply IH.
Qed.

(** Every node has between 1 and [MaxLevel] levels and as many forward
    pointers; the chain of level [i] visits the nodes of the level-0 chain
    that have more than [i] levels, in the same order. *)
Theorem level_chains s :
  reachable s →
  ∃ nodes, level0 s = Some nodes ∧
    (∀ a, a ∈ nodes →
       ∃ n, heap s !! a = Some n ∧ 1 ≤ level n ≤ MaxLevel ∧
            Z.of_nat (length (forward n)) = level n) ∧
    ∀ i, (i < Z.to_nat MaxLevel)%nat →
      level_chain i s = Some (filter (λ a, Z.of_nat i < level_at (heap s) a) nodes).
Proof.
  intros [l HI]%reachable_Inv. exists (c_addr <$> l).
  pose proof (inv_repr _ _ _ HI) as Hr. pose proof Hr as [Hh Hrl].
  assert (∀ c, c ∈ l → ∃ p t, heap s !! c_addr c = Some (node_of p c t nobody)) as Hat.
  { intros c Hc. apply (repr_elem _ _ _ _ _ Hr). by right. }
  split_and!.
  - by eapply level0_spec.
  - intros a (c & -> & Hc)%list_elem_of_fmap. destruct (Hat c Hc) as (p & t & E).
    eexists. split; [exact E|]. simpl. rewrite length_fwds.
    pose proof (inv_lvl _ _ _ HI) as Hl. rewrite Forall_forall in Hl.
    specialize (Hl _ Hc). unfold MaxLevel in *. lia.
  - intros i Hi. unfold level_chain. rewrite (inv_header _ _ _ HI).
    erewrite get_forward_Some by exact Hh. cbn [node_of forward hcell c_lvl].
    rewrite lookup_fwds by done. rewrite next_or_nobody. cbn [mbind option_bind].
    pose proof (Inv_length_le _ _ _ HI) as Hlen.
    erewrite chain_at_spec; [|exact Hrl|lia]. f_equal.
    apply filter_addr_level. intros c Hc. destruct (Hat c Hc) as (p & t & E).
    unfold level_at. by rewrite E.
Qed.

(** *** The sentinel and the level of the container *)

Lemma Put_container rl k v (s s' : state K V) :
  Put rl k v s = Some s' →
  header (sl s') = header (sl s) ∧ sl_level (sl s') = sl_level (sl s).
Proof.
  unfold Put. destruct s as [h [hdr tl lvl len]]. simpl. intros E.
  repeat (case_match; simplify_option_eq); done.
Qed.

Lemma Del_container k (s s' : state K V) e :
  Del k s = Some (s', e) →
  header (sl s') = header (sl s) ∧ sl_level (sl s') = sl_level (sl s).
Proof.
  unfold Del. destruct s as [h [hdr tl lvl len]]. simpl. intros E.
  destruct (find k _) as [[[[] node] updates]|]; simpl in E; [| |done].
  - apply bind_Some in E as (f0 & _ & E). apply bind_Some in E as (nn & _ & E).
    apply bind_Some in E as ([h1 tl'] & _ & E). apply bind_Some in E as (nn1 & _ & E).
    apply bind_Some in E as (h2 & _ & E). by injection E as <- <-.
  - by injection E as <- <-.
Qed.

Lemma reachable_container s :
  reachable s → header (sl s) = Some 0%nat ∧ sl_level (sl s) = 1.
Proof.
  induction 1 as [|rl k v s s' _ [IHh IHl] _ E _|k s s' e _ [IHh IHl] E]; [done| |].
  - apply Put_container in E as [-> ->]. done.
  - apply Del_container in E as [-> ->]. done.
Qed.

(** No operation replaces the sentinel, writes to its key, value, level or
    backward pointer, links it into the level-0 chain, or writes to the
    level of the container, which stays at the 1 that [New] gives it
    whatever the levels of the nodes are. *)
Theorem sentinel_and_level_fixed s :
  reachable s →
  header (sl s) = Some 0%nat ∧ sl_level (sl s) = 1 ∧
  (∃ n, heap s !! 0%nat = Some n ∧ key n = zero ∧ value n = zero ∧
        level n = MaxLevel ∧ length (forward n) = Z.to_nat MaxLevel ∧
        backward n = None) ∧
  ∃ nodes, level0 s = Some nodes ∧ 0%nat ∉ nodes.
Proof.
  intros Hs. destruct (reachable_container _ Hs) as [Hh Hl].
  destruct (reachable_Inv _ Hs) as [l HI].
  pose proof (inv_repr _ _ _ HI) as [Hn _]. split_and!; [done|done| |].
  - eexists. split; [exact Hn|].
    cbn [node_of key value level forward backward hcell c_key c_val c_lvl].
    rewrite length_fwds. by split_and!.
  - exists (c_addr <$> l). split; [by eapply level0_spec|].
    by apply (NoDup_cons_1_1 _ _ (inv_nodup _ _ _ HI)).
Qed.

(** *** Edge cases of the queries *)

(** A container that holds nothing, new or emptied by [Del]: no key is
    found, the ranges by key and by count are empty without an error, and
    every index is out of range. *)
Theorem empty_container s :
  reachable s → Length s = 0 →
  contents s = Some [] ∧
  (∀ k, Get k s = Some (zero, KeyNotFound)) ∧
  (∀ k, Del k s = Some (s, KeyNotFound)) ∧
  (∀ a b, leb a b = true → RangeByKey a b s = Some ([], None)) ∧
  (∀ a n, n ≠ 0 → RangeByCount a n s = Some ([], None)) ∧
  (∀ i n, n ≠ 0 → RangeByIndex i n s = Some ([], IndexOutOfRange)).
Proof.
  intros [l HI]%reachable_Inv Hlen. apply (Inv_zero_length _ _ _ HI) in Hlen. subst l.
  split_and!.
  - by rewrite (contents_spec _ _ _ HI).
  - intros k. by rewrite (Get_spec _ _ _ k HI).
  - intros k. by apply (Del_absent_spec _ _ _ _ HI).
  - intros a b Hab. rewrite (RangeByKey_spec _ _ _ a b HI).
    unfold leb, gtb in *. apply negb_true_iff in Hab. by rewrite Hab.
  - intros a n Hn. rewrite (RangeByCount_spec _ _ _ a n HI).
    rewrite decide_False by done. unfold count_cells, upto_hit. simpl.
    by destruct (decide (n < 0)); rewrite ?reverse_nil, ?take_nil.
  - intros i n Hn. rewrite (RangeByIndex_spec _ _ _ i n HI).
    rewrite decide_False by done. simpl. by rewrite decide_True by lia.
Qed.

(** The errors of the range queries, all of them: an inverted range of
    keys, a count of 0, and an index outside [-Length(), Length() - 1];
    each comes with the [nil] map, and every other call returns a map and
    no error. *)
Theorem range_errors s :
  reachable s →
  (∀ a b, ∃ r, RangeByKey a b s
                 = Some (r, if gtb a b then InvalidRange else None) ∧
               (gtb a b = true → r = [])) ∧
  (∀ a n, ∃ r, RangeByCount a n s
                 = Some (r, if decide (n = 0) then ZeroCount else None) ∧
               (n = 0 → r = [])) ∧
  (∀ i n, ∃ r, RangeByIndex i n s
                 = Some (r, if decide (n = 0) then ZeroCount
                            else if decide (Length s ≤ i ∨ i < - Length s)
                                 then IndexOutOfRange else None) ∧
               (n = 0 ∨ Length s ≤ i ∨ i < - Length s → r = [])).
Proof.
  intros [l HI]%reachable_Inv. split_and!.
  - intros a b. rewrite (RangeByKey_spec _ _ _ a b HI).
    destruct (gtb a b); eexists; (split; [done|]); done.
  - intros a n. rewrite (RangeByCount_spec _ _ _ a n HI).
    destruct (decide (n = 0)); eexists; (split; [done|]); done.
  - intros i n. rewrite (RangeByIndex_spec _ _ _ i n HI).
    unfold Length. rewrite (inv_length _ _ _ HI).
    destruct (decide (n = 0)); [eexists; by split|].
    destruct (decide (Z.of_nat (length l) ≤ i ∨ i < 0 - Z.of_nat (length l)))
      as [Ho|Hi].
    + rewrite decide_True by lia. eexists; by split.
    + rewrite decide_False by lia. eexists. split; [done|]. lia.
Qed.

(** The count [MinInt] is its own negation: the collecting loops do not
    run, and both queries by count return an empty map and no error. *)
Theorem MinInt_count_collects_nothing s :
  reachable s →
  (∀ a, RangeByCount a MinInt s = Some ([], None)) ∧
  (∀ i, - Length s ≤ i < Length s → RangeByIndex i MinInt s = Some ([], None)).
Proof.
  intros [l HI]%reachable_Inv.
  assert (Z.to_nat (count_abs MinInt) = 0%nat) as Hc by (by vm_compute).
  split.
  - intros a. rewrite (RangeByCount_spec _ _ _ a MinInt HI).
    rewrite decide_False by done. unfold count_cells.
    rewrite decide_True by done. by rewrite Hc.
  - intros i. unfold Length. rewrite (inv_length _ _ _ HI). intros Hi.
    rewrite (RangeByIndex_spec _ _ _ i MinInt HI).
    rewrite decide_False by done. rewrite decide_False by lia.
    unfold index_cells. rewrite decide_True by done. by rewrite Hc.
Qed.

(** *** [find] *)

(** What [find] returns: whether the key is stored, the node that holds it
    if it is, and for each level [i] the last node of that level's chain with
    a key below [k] (the sentinel if there is none): its forward pointer of
    level [i] is [nil] or leads to a key that is not below [k]. *)
Theorem find_predecessors s k :
  reachable s →
  ∃ found node updates its,
    find k s = Some (found, node, updates) ∧ contents s = Some its ∧
    found = bool_decide (k ∈ its.*1) ∧
    match node with
    | Some a => found = true ∧ ∃ n, heap s !! a = Some n ∧ key n = k
    | None => found = false
    end ∧
    length updates = Z.to_nat MaxLevel ∧
    ∀ i, (i < Z.to_nat MaxLevel)%nat →
      ∃ u n, updates !! i = Some (Some u) ∧ heap s !! u = Some n ∧
        Z.of_nat i < level n ∧
        (Some u = header (sl s) ∨ ltb (key n) k = true) ∧
        ∃ nx, forward n !! i = Some nx ∧
          match nx with
          | Some a => ∃ m, heap s !! a = Some m ∧ ltb (key m) k = false
          | None => True
          end.
Proof.
  intros [l HI]%reachable_Inv. pose proof (inv_repr _ _ _ HI) as Hr.
  pose proof (inv_sorted _ _ _ HI) as Hs.
  exists (found_of (hit k l)).1, (found_of (hit k l)).2, (preds k 0 l), (kv <$> l).
  split_and!.
  - rewrite (find_spec _ _ _ k HI). by destruct (found_of _).
  - by eapply contents_spec.
  - destruct (hit k l) as [y|] eqn:Hh; simpl; symmetry.
    + apply bool_decide_eq_true. apply list_elem_of_fmap. exists (kv y).
      split; [by apply hit_Some in Hh as [? _]|].
      apply list_elem_of_fmap_2. by eapply hit_elem.
    + apply bool_decide_eq_false.
      intros ([k' v'] & -> & (c & [= -> ->] & Hc)%list_elem_of_fmap)%list_elem_of_fmap.
      by apply (hit_None_elem _ _ _ Hs Hh Hc).
  - destruct (hit k l) as [y|] eqn:Hh; simpl; [|done]. split; [done|].
    destruct (repr_elem _ _ _ _ y Hr) as (p & t & E).
    { right. by eapply hit_elem. }
    eexists. split; [exact E|]. simpl. by apply hit_Some in Hh as [? _].
  - unfold preds. by rewrite length_fmap, length_seq.
  - intros i Hi. rewrite (lookup_preds _ _ _ _ Hi).
    destruct (pred_at_split i None (hcell 0 :: below k l) [] (hcell 0) (below k l))
      as (pre & y & suf & E & Hy & Hn & Hp); [done|done|].
    assert (hcell 0 :: l = pre ++ y :: (suf ++ from k l)) as El.
    { rewrite <- (below_from k l) at 1. rewrite app_comm_cons, E.
      by rewrite <- app_assoc. }
    rewrite El in Hr. pose proof (repr_lookup _ _ _ _ _ _ Hr) as Ey.
    exists (c_addr y). eexists. split_and!; [by rewrite Hp|exact Ey|simpl; lia| |].
    + destruct pre as [|c pre]; simpl in E; injection E as E1 E2.
      * left. subst y. by rewrite (inv_header _ _ _ HI).
      * right. simpl. apply (elem_below_lt k l). rewrite E2.
        apply elem_of_app. right. by left.
    + simpl. rewrite lookup_fwds by done. eexists. split; [done|].
      rewrite next_or_nobody, next_at_app, Hn.
      destruct (next_at i (from k l)) as [a|] eqn:Ea; [|done].
      apply next_at_Some in Ea as (c & Hc & <- & _).
      destruct (repr_elem _ _ _ _ c Hr) as (p & t & E').
      { apply elem_of_app. right. right. apply elem_of_app. by right. }
      eexists. split; [exact E'|]. simpl.
      pose proof (from_ge k l Hs) as Hge. rewrite Forall_forall in Hge. by apply Hge.
Qed.

(** *** The queries as functions of the pairs *)

Definition pairs_get (k : K) (its : list (K * V)) : V * error :=
  match list_find (λ x, x.1 = k) its with
  | Some (_, (_, v)) => (v, None)
  | None => (zero, KeyNotFound)
  end.

Definition pairs_by_key (a b : K) (its : list (K * V)) : list (K * V) * error :=
  if gtb a b then ([], InvalidRange)
  else (filter (λ x, leb x.1 b = true) (filter (λ x, leb a x.1 = true) its), None).

Definition pairs_by_count (start : K) (count : Z) (its : list (K * V))
  : list (K * V) * error :=
  if decide (count = 0) then ([], ZeroCount)
  else if decide (count < 0)
  then (take (Z.to_nat (count_abs count))
          (reverse (filter (λ x, leb x.1 start = true) its)), None)
  else (take (Z.to_nat count) (filter (λ x, leb start x.1 = true) its), None).

Definition pairs_by_index (start count : Z) (its : list (K * V))
  : list (K * V) * error :=
  let n := Z.of_nat (length its) in
  if decide (count = 0) then ([], ZeroCount)
  else if decide (n ≤ start ∨ start < 0 - n) then ([], IndexOutOfRange)
  else
    let p := Z.to_nat (if decide (0 ≤ start) then start else n + start) in
    if decide (count < 0)
    then (take (Z.to_nat (count_abs count)) (reverse (take (S p) its)), None)
    else (take (Z.to_nat count) (drop p its), None).

Lemma upto_filter e l :
  StronglySorted key_lt l → upto e l = filter (λ c, leb (c_key c) e = true) l.
Proof.
  induction 1 as [|c r Hs IH Hc]; [done|]. simpl.
  destruct (leb (c_key c) e) eqn:E.
  - by rewrite filter_cons_True, IH.
  - rewrite filter_cons_False by congruence. symmetry. apply filter_none.
    eapply Forall_impl; [exact Hc|]. intros x Hx. unfold key_lt in Hx. simpl.
    intros Hxe. assert (leb (c_key c) e = true) as E'; [|congruence].
    apply leb_true. left. by eapply ltb_leb_trans.
Qed.

Lemma hit_error_pairs k l :
  StronglySorted key_lt l →
  match hit k l with Some _ => None | None => KeyNotFound end
  = if decide (k ∈ (kv <$> l).*1) then None else KeyNotFound.
Proof.
  intros Hs. destruct (hit k l) as [y|] eqn:Hh.
  - rewrite decide_True; [done|]. apply list_elem_of_fmap. exists (kv y).
    split; [by apply hit_Some in Hh as [? _]|].
    apply list_elem_of_fmap_2. by eapply hit_elem.
  - rewrite decide_False; [done|].
    intros ([k' v'] & -> & (c & [= -> ->] & Hc)%list_elem_of_fmap)%list_elem_of_fmap.
    by apply (hit_None_elem _ _ _ Hs Hh Hc).
Qed.

Lemma Get_pairs s hd l k : Inv s hd l → Get k s = Some (pairs_get k (kv <$> l)).
Proof.
  intros HI. pose proof (inv_sorted _ _ _ HI) as Hs.
  rewrite (Get_spec _ _ _ k HI). f_equal. unfold pairs_get.
  destruct (list_find (λ x : K * V, x.1 = k) (kv <$> l)) as [[i [k' v]]|] eqn:Hf.
  - apply list_find_Some in Hf as (Hi & Hk & _). simpl in Hk. subst k'.
    rewrite list_lookup_fmap in Hi. destruct (l !! i) as [c|] eqn:Hc; [|done].
    injection Hi as <- <-.
    by rewrite (hit_self _ _ Hs (list_elem_of_lookup_2 _ _ _ Hc)).
  - destruct (hit k l) as [y|] eqn:Hhit; [|done].
    apply list_find_None in Hf. rewrite Forall_forall in Hf.
    exfalso. apply (Hf (kv y)); [|by apply hit_Some in Hhit as [? _]].
    apply list_elem_of_fmap_2. by eapply hit_elem.
Qed.

Lemma RangeByKey_pairs s hd l a b :
  Inv s hd l → RangeByKey a b s = Some (pairs_by_key a b (kv <$> l)).
Proof.
  intros HI. pose proof (inv_sorted _ _ _ HI) as Hs.
  rewrite (RangeByKey_spec _ _ _ a b HI). unfold pairs_by_key.
  destruct (gtb a b); [done|]. do 2 f_equal.
  rewrite upto_filter by (eapply sorted_sublist; [apply from_sublist|done]).
  by rewrite filter_kv_le, (from_filter _ _ Hs), filter_kv_ge.
Qed.

Lemma RangeByCount_pairs s hd l start count :
  Inv s hd l → RangeByCount start count s = Some (pairs_by_count start count (kv <$> l)).
Proof.
  intros HI. pose proof (inv_sorted _ _ _ HI) as Hs.
  rewrite (RangeByCount_spec _ _ _ start count HI). unfold pairs_by_count, count_cells.
  destruct (decide (count = 0)); [done|]. destruct (decide (count < 0)).
  - by rewrite fmap_take, fmap_reverse, (upto_hit_filter _ _ Hs), filter_kv_le.
  - unfold count_abs. rewrite decide_False by done.
    by rewrite fmap_take, (from_filter _ _ Hs), filter_kv_ge.
Qed.

Lemma RangeByIndex_pairs s hd l start count :
  Inv s hd l → RangeByIndex start count s = Some (pairs_by_index start count (kv <$> l)).
Proof.
  intros HI. rewrite (RangeByIndex_spec _ _ _ start count HI).
  unfold pairs_by_index, index_cells, index_pos. cbv zeta. rewrite length_fmap.
  destruct (decide (count = 0)); [done|].
  destruct (decide (Z.of_nat (length l) ≤ start ∨ _)); [done|].
  destruct (decide (count < 0)).
  - by rewrite fmap_take, fmap_reverse, fmap_take.
  - unfold count_abs. rewrite decide_False by done. by rewrite fmap_take, fmap_drop.
Qed.

Lemma Del_pairs_of s hd l k its :
  Inv s hd l → kv <$> l = its → Z.of_nat (length its) ≤ MaxInt + 1 →
  ∃ s' l', Del k s = Some (s', if decide (k ∈ its.*1) then None else KeyNotFound) ∧
    Inv s' hd l' ∧ kv <$> l' = pairs_del k its.
Proof.
  intros HI <- Hfit. rewrite length_fmap in Hfit.
  destruct (Del_pairs _ _ _ k HI Hfit) as (s' & l' & E & HI' & Hkv & _).
  rewrite (hit_error_pairs _ _ (inv_sorted _ _ _ HI)) in E. eauto.
Qed.

End Abstraction.

(** ** The scenario of the test suite, with one choice of the levels *)

Definition sample : state string string :=
  Eval vm_compute in default New (buildSkiplist 1 2 3 1 2 5 1).

Lemma puts_reachable kvs :
  ∀ s s', reachable s → Forall (λ x, 1 ≤ x.1.1 ≤ MaxLevel) kvs →
          Z.of_nat (length (heap s) + length kvs) ≤ MaxInt →
          puts kvs s = Some s' → reachable s'.
Proof.
  induction kvs as [|[[rl k] v] kvs IH]; intros s s' Hs Hl Hfit; simpl.
  - by intros [= <-].
  - apply Forall_cons in Hl as [Hrl Hl]. simpl in Hrl, Hfit.
    destruct (reachable_Inv_fits _ Hs) as (l & HI & Hfit0).
    destruct (Put_spec _ _ _ rl k v HI Hrl (Inv_fits _ _ _ HI Hfit0)) as (s1 & E & _ & Hlen).
    rewrite E. simpl. apply IH; [|done|lia].
    eapply reach_Put; [done|done|done|lia].
Qed.

Lemma sample_reachable : reachable sample.
Proof.
  apply (puts_reachable (scenario 1 2 3 1 2 5 1) New); [apply reach_New| | |].
  - repeat constructor; simpl; unfold MaxLevel; lia.
  - by vm_compute.
  - vm_compute. reflexivity.
Qed.

(** The container of the scenario answers the queries of the tests. *)
Example sample_queries :
  Length sample = 8 ∧
  Get "004" sample = Some ("004-rewrite", None) ∧
  Get "009" sample = Some ("", KeyNotFound) ∧
  RangeByKey "001" "003" sample = Some ([("001", "001"); ("003", "003")], None) ∧
  RangeByCount "002" 2 sample = Some ([("003", "003"); ("004", "004-rewrite")], None) ∧
  RangeByCount "002" (-2) sample = Some ([("001", "001"); ("000", "000")], None) ∧
  RangeByIndex (-3) 2 sample = Some ([("006", "006"); ("007", "007")], None).
Proof. vm_compute. repeat split; reflexivity. Qed.

(** *** C1 *)

Lemma RangeByKey_exact_witness :
  ∃ items, RangeByKey "001" "003" sample = Some (items, None) ∧
    StronglySorted (λ x y : string * string, ltb x.1 y.1 = true) items ∧
    ∀ k v, (k, v) ∈ items ↔
           leb "001" k = true ∧ leb k "003" = true ∧ Get k sample = Some (v, None).
Proof.
  apply (RangeByKey_exact sample "001" "003" sample_reachable). reflexivity.
Defined.

(** *** C2 *)

(** The container in which one key was put and deleted again. *)
Definition emptied : state string string :=
  Eval vm_compute in
    default New (s1 ← Put 1 "000" "000" New; r ← Del "000" s1; Some r.1).

(** C2 fails on the code: after the only key was deleted the length is 0
    and the tail is the header, not [nil]. *)
Lemma tail_after_last_Del :
  ∃ s1 : state string string,
    Put 1 "000" "000" New = Some s1 ∧ Del "000" s1 = Some (emptied, None) ∧
    reachable emptied ∧ Length emptied = 0 ∧ tail (sl emptied) = Some 0%nat ∧
    tail (sl emptied) = header (sl emptied).
Proof.
  pose (s1 := default (New : state string string) (Put 1 "000" "000" New)).
  assert (Put 1 "000" "000" New = Some s1) as E1 by (vm_compute; reflexivity).
  assert (Del "000" s1 = Some (emptied, None)) as E2 by (vm_compute; reflexivity).
  exists s1. split_and!; try done.
  eapply reach_Del; [|exact E2]. eapply reach_Put; [apply reach_New| |exact E1|].
  - unfold MaxLevel. lia.
  - by vm_compute.
Qed.

Lemma tail_is_maximum_witness :
  ∃ a n nodes, tail (sl sample) = Some a ∧ heap sample !! a = Some n ∧
    level0 sample = Some nodes ∧ last nodes = Some a ∧
    ∀ b, b ∈ nodes → b ≠ a →
         ∃ nb, heap sample !! b = Some nb ∧ ltb (key nb) (key n) = true.
Proof. apply (tail_is_maximum sample sample_reachable). by vm_compute. Defined.

(** *** C3 *)

Lemma level0_sorted_and_mirrored_witness :
  ∃ nodes, level0 sample = Some nodes ∧ Z.of_nat (length nodes) = Length sample ∧
    (∀ i a, nodes !! i = Some a →
       ∃ n, heap sample !! a = Some n ∧
            backward n = match i with O => header (sl sample) | S j => nodes !! j end) ∧
    (∀ i j a b, (i < j)%nat → nodes !! i = Some a → nodes !! j = Some b →
       ∃ na nb, heap sample !! a = Some na ∧ heap sample !! b = Some nb ∧
                ltb (key na) (key nb) = true).
Proof. exact (level0_sorted_and_mirrored sample sample_reachable). Defined.

(** *** C4 *)

(** C4, at the count where the code departs from it.  "008" is stored and
    a backward query from it for two items returns it first; the same query for [MinInt] items returns nothing, because
    [0 - count] wraps around to [MinInt] and the loop test [c < count]
    fails at once. *)
Theorem RangeByCount_MinInt_collects_nothing :
  Get "008" sample = Some ("008", None) ∧
  RangeByCount "008" (-2) sample = Some ([("008", "008"); ("007", "007")], None) ∧
  RangeByCount "008" MinInt sample = Some ([], None).
Proof. vm_compute. repeat split; reflexivity. Qed.

(** *** C5 *)

(** C5, at the count where the code departs from it.  The query of the
    test returns its four items and a backward query for one item from
    index -1 returns the last key; the same query for [MinInt] items
    returns nothing. *)
Theorem RangeByIndex_MinInt_collects_nothing :
  RangeByIndex (-5) (-5) sample
    = Some ([("004", "004-rewrite"); ("003", "003"); ("001", "001"); ("000", "000")], None) ∧
  RangeByIndex (-1) (-1) sample = Some ([("008", "008")], None) ∧
  RangeByIndex (-1) MinInt sample = Some ([], None).
Proof. vm_compute. repeat split; reflexivity. Qed.

(** *** C6 *)

Lemma Put_Del_roundtrip_witness :
  ∃ s1 s2, Put 2 "002" "002" sample = Some s1 ∧ Del "002" s1 = Some (s2, None) ∧
    Length s2 = Length sample ∧
    (∀ k', Get k' s2 = Get k' sample) ∧
    (∀ a b, RangeByKey a b s2 = RangeByKey a b sample) ∧
    (∀ a n, RangeByCount a n s2 = RangeByCount a n sample) ∧
    (∀ i n, RangeByIndex i n s2 = RangeByIndex i n sample).
Proof.
  apply (Put_Del_roundtrip sample 2 "002" "002" sample_reachable).
  - unfold MaxLevel. lia.
  - reflexivity.
Defined.

(** *** C7 *)

Lemma Put_existing_overwrites_value_witness :
  ∃ a n, heap sample !! a = Some n ∧ key n = "004"%string ∧
    value n = "004-rewrite"%string ∧
    Put 7 "004" "004 again" sample
      = Some (mkState (<[a := set_value n "004 again"%string]> (heap sample)) (sl sample)).
Proof.
  apply (Put_existing_overwrites_value sample 7 "004" "004 again" "004-rewrite"
           sample_reachable).
  reflexivity.
Defined.

(** *** C8 *)

Lemma errors_leave_state_witness :
  (∀ c s' e, run c sample = Some (s', e) → e ≠ None → s' = sample) ∧
  (∀ k x, Get k sample = Some (x, KeyNotFound) → Del k sample = Some (sample, KeyNotFound)).
Proof. exact (errors_leave_state sample sample_reachable). Defined.

(** *** The behaviour of the operations on the scenario *)

Lemma RangeByCount_collects_witness :
  ∃ its, contents sample = Some its ∧
    RangeByCount "002" (-2) sample =
      Some (if decide (0 < -2)
            then take (Z.to_nat (-2)) (filter (λ x, leb "002" x.1 = true) its)
            else take (Z.to_nat (- -2))
                   (reverse (filter (λ x, leb x.1 "002" = true) its)), None).
Proof.
  apply (RangeByCount_collects sample "002" (-2) sample_reachable); [done|].
  by vm_compute.
Defined.

Lemma RangeByIndex_collects_witness :
  ∃ its, contents sample = Some its ∧ Z.of_nat (length its) = Length sample ∧
    RangeByIndex (-5) (-5) sample =
      Some (let p := Z.to_nat (if decide (0 ≤ -5) then -5 else Length sample + -5) in
            if decide (0 < -5)
            then take (Z.to_nat (-5)) (drop p its)
            else take (Z.to_nat (- -5)) (reverse (take (S p) its)), None).
Proof.
  apply (RangeByIndex_collects sample (-5) (-5) sample_reachable); [done| |];
    by vm_compute.
Defined.

Lemma operations_return_witness :
  (∀ rl k v, 1 ≤ rl ≤ MaxLevel → is_Some (Put rl k v sample)) ∧
  (∀ k, is_Some (Get k sample)) ∧ (∀ k, is_Some (Del k sample)) ∧
  (∀ a b, is_Some (RangeByKey a b sample)) ∧
  (∀ a n, is_Some (RangeByCount a n sample)) ∧
  (∀ i n, is_Some (RangeByIndex i n sample)).
Proof. exact (operations_return sample sample_reachable). Defined.

Lemma contents_sorted_Get_witness :
  ∃ its, contents sample = Some its ∧
    StronglySorted (λ x y : string * string, ltb x.1 y.1 = true) its ∧
    Z.of_nat (length its) = Length sample ∧
    ∀ k, Get k sample = Some (match list_find (λ x, x.1 = k) its with
                              | Some (_, (_, v)) => (v, None)
                              | None => (zero, KeyNotFound)
                              end).
Proof. exact (contents_sorted_Get sample sample_reachable). Defined.

Lemma Put_contents_witness :
  ∃ s' its, Put 3 "002" "002" sample = Some s' ∧ contents sample = Some its ∧
    contents s' = Some (filter (λ x, ltb x.1 "002" = true) its ++
                        ("002", "002") :: filter (λ x, ltb "002" x.1 = true) its).
Proof.
  apply (Put_contents sample 3 "002" "002" sample_reachable). unfold MaxLevel. lia.
Defined.

Lemma Del_contents_witness :
  ∃ s' its, contents sample = Some its ∧
    Del "005" sample = Some (s', if decide ("005" ∈ its.*1) then None else KeyNotFound) ∧
    contents s' = Some (filter (λ x, ltb x.1 "005" = true) its ++
                        filter (λ x, ltb "005" x.1 = true) its).
Proof. exact (Del_contents sample "005" sample_reachable). Defined.

(** *** The tests, for every choice of the levels *)

Lemma puts_exec kvs s :
  puts kvs s = exec ((λ x, PutOp x.1.1 x.1.2 x.2) <$> kvs) s.
Proof.
  revert s. induction kvs as [|[[rl k] v] kvs IH]; intros s; simpl; [done|].
  destruct (Put rl k v s); simpl; [apply IH|done].
Qed.

Lemma buildSkiplist_pairs l1 l2 l3 l4 l5 l6 l7 :
  Forall (λ l, 1 ≤ l ≤ MaxLevel) [l1; l2; l3; l4; l5; l6; l7] →
  ∃ s l, buildSkiplist l1 l2 l3 l4 l5 l6 l7 = Some s ∧ Inv s 0 l ∧ reachable s ∧
    kv <$> l = [("000", "000"); ("001", "001"); ("003", "003");
                ("004", "004-rewrite"); ("005", "005"); ("006", "006");
                ("007", "007"); ("008", "008")].
Proof.
  intros Hl. unfold buildSkiplist. rewrite puts_exec.
  destruct (exec_Inv ((λ x, PutOp x.1.1 x.1.2 x.2) <$> scenario l1 l2 l3 l4 l5 l6 l7)
              New [] Inv_New reach_New) as (s & l & E & HI & Hs & Hkv).
  - repeat (apply Forall_cons in Hl as [? Hl]).
    repeat (apply Forall_cons; split; [assumption || (unfold MaxLevel; simpl; lia)|]).
    constructor.
  - by vm_compute.
  - exists s, l. split_and!; [done|done|done|]. rewrite Hkv. vm_compute. reflexivity.
Qed.

(** The four tests report no failure, whatever levels [randomLevel]
    returns while [buildSkiplist] fills the container. *)
Theorem tests_pass l1 l2 l3 l4 l5 l6 l7 :
  Forall (λ l, 1 ≤ l ≤ MaxLevel) [l1; l2; l3; l4; l5; l6; l7] →
  TestLength l1 l2 l3 l4 l5 l6 l7 [] = Some [] ∧
  TestGet l1 l2 l3 l4 l5 l6 l7 [] = Some [] ∧
  TestDel l1 l2 l3 l4 l5 l6 l7 [] = Some [] ∧
  TestRange l1 l2 l3 l4 l5 l6 l7 [] = Some [].
Proof.
  intros (s & l & E & HI & Hs & Hkv)%buildSkiplist_pairs.
  unfold TestLength, TestGet, TestDel, TestRange. rewrite E. cbn [mbind option_bind].
  split_and!.
  - unfold Length. rewrite (inv_length _ _ _ HI), <- (length_fmap kv), Hkv. reflexivity.
  - rewrite !(Get_pairs _ _ _ _ HI), Hkv. vm_compute. reflexivity.
  - destruct (Del_pairs_of _ _ _ "009" _ HI Hkv) as (s1 & m1 & E1 & HI1 & Hkv1);
      [by vm_compute|].
    destruct (Del_pairs_of _ _ _ "005" _ HI1 Hkv1) as (s2 & m2 & E2 & HI2 & Hkv2);
      [by vm_compute|].
    destruct (Del_pairs_of _ _ _ "005" _ HI2 Hkv2) as (s3 & m3 & E3 & HI3 & Hkv3);
      [by vm_compute|].
    rewrite E1. cbn [mbind option_bind]. rewrite E2. cbn [mbind option_bind].
    rewrite E3. cbn [mbind option_bind].
    rewrite (Get_pairs _ _ _ _ HI3), Hkv3. vm_compute. reflexivity.
  - rewrite (RangeByKey_pairs _ _ _ _ _ HI), !(RangeByCount_pairs _ _ _ _ _ HI),
      !(RangeByIndex_pairs _ _ _ _ _ HI), Hkv.
    vm_compute. reflexivity.
Qed.

Lemma tests_pass_witness :
  TestLength 1 2 3 1 2 5 1 [] = Some [] ∧ TestGet 1 2 3 1 2 5 1 [] = Some [] ∧
  TestDel 1 2 3 1 2 5 1 [] = Some [] ∧ TestRange 1 2 3 1 2 5 1 [] = Some [].
Proof.
  apply (tests_pass 1 2 3 1 2 5 1).
  repeat (apply Forall_cons; split; [unfold MaxLevel; lia|]). constructor.
Defined.

(** *** Further properties, on the container of the scenario *)

Lemma emptied_reachable : reachable emptied.
Proof.
  pose (s1 := default (New : state string string) (Put 1 "000" "000" New)).
  assert (Put 1 "000" "000" New = Some s1) as E1 by (vm_compute; reflexivity).
  assert (Del "000" s1 = Some (emptied, None)) as E2 by (vm_compute; reflexivity).
  eapply reach_Del; [|exact E2]. eapply reach_Put; [apply reach_New| |exact E1|].
  - unfold MaxLevel. lia.
  - by vm_compute.
Qed.

Lemma Put_then_Get_witness :
  ∃ s', Put 4 "002" "two" sample = Some s' ∧ Get "002" s' = Some ("two", None) ∧
        ∀ k', k' ≠ "002" → Get k' s' = Get k' sample.
Proof.
  apply (Put_then_Get sample 4 "002" "two" sample_reachable). unfold MaxLevel. lia.
Defined.

Lemma Del_then_Get_witness :
  ∃ s' e, Del "005" sample = Some (s', e) ∧ Get "005" s' = Some (zero, KeyNotFound) ∧
          Del "005" s' = Some (s', KeyNotFound) ∧
          ∀ k', k' ≠ "005" → Get k' s' = Get k' sample.
Proof. exact (Del_then_Get sample "005" sample_reachable). Defined.

Lemma Length_Put_Del_witness :
  ∃ x e, Get "005" sample = Some (x, e) ∧
    (∀ rl v, 1 ≤ rl ≤ MaxLevel →
       ∃ s', Put rl "005" v sample = Some s' ∧
             Length s' = if decide (e = None) then Length sample else Length sample + 1) ∧
    (∃ s', Del "005" sample = Some (s', e) ∧
           Length s' = if decide (e = None) then Length sample - 1 else Length sample).
Proof. exact (Length_Put_Del sample "005" sample_reachable). Defined.

Lemma Del_Put_restores_witness :
  ∃ s1 s2 its, Del "005" sample = Some (s1, None) ∧ Put 7 "005" "005" s1 = Some s2 ∧
    contents sample = Some its ∧ contents s2 = Some its ∧ Length s2 = Length sample.
Proof.
  apply (Del_Put_restores sample 7 "005" "005" sample_reachable).
  - unfold MaxLevel. lia.
  - vm_compute. reflexivity.
Defined.

Lemma exec_contents_witness :
  ∃ s, exec [PutOp 1 "b" "1"; PutOp 3 "a" "2"; DelOp "b"; PutOp 12 "c" "3";
             PutOp 2 "a" "4"; DelOp "z"] New = Some s ∧ reachable s ∧
       contents s = Some (foldl pairs_op []
                            [PutOp 1 "b" "1"; PutOp 3 "a" "2"; DelOp "b";
                             PutOp 12 "c" "3"; PutOp 2 "a" "4"; DelOp "z"]).
Proof.
  apply exec_contents.
  - repeat (apply Forall_cons; split; [simpl; unfold MaxLevel; lia|]). constructor.
  - by vm_compute.
Defined.

Lemma level_chains_witness :
  ∃ nodes, level0 sample = Some nodes ∧
    (∀ a, a ∈ nodes →
       ∃ n, heap sample !! a = Some n ∧ 1 ≤ level n ≤ MaxLevel ∧
            Z.of_nat (length (forward n)) = level n) ∧
    ∀ i, (i < Z.to_nat MaxLevel)%nat →
      level_chain i sample
      = Some (filter (λ a, Z.of_nat i < level_at (heap sample) a) nodes).
Proof. exact (level_chains sample sample_reachable). Defined.

Lemma sentinel_and_level_fixed_witness :
  header (sl sample) = Some 0%nat ∧ sl_level (sl sample) = 1 ∧
  (∃ n, heap sample !! 0%nat = Some n ∧ key n = zero ∧ value n = zero ∧
        level n = MaxLevel ∧ length (forward n) = Z.to_nat MaxLevel ∧
        backward n = None) ∧
  ∃ nodes, level0 sample = Some nodes ∧ 0%nat ∉ nodes.
Proof. exact (sentinel_and_level_fixed sample sample_reachable). Defined.

Lemma empty_container_witness :
  contents emptied = Some [] ∧
  (∀ k, Get k emptied = Some (zero, KeyNotFound)) ∧
  (∀ k, Del k emptied = Some (emptied, KeyNotFound)) ∧
  (∀ a b, leb a b = true → RangeByKey a b emptied = Some ([], None)) ∧
  (∀ a n, n ≠ 0 → RangeByCount a n emptied = Some ([], None)) ∧
  (∀ i n, n ≠ 0 → RangeByIndex i n emptied = Some ([], IndexOutOfRange)).
Proof. exact (empty_container emptied emptied_reachable eq_refl). Defined.

Lemma range_errors_witness :
  (∀ a b, ∃ r, RangeByKey a b sample
                 = Some (r, if gtb a b then InvalidRange else None) ∧
               (gtb a b = true → r = [])) ∧
  (∀ a n, ∃ r, RangeByCount a n sample
                 = Some (r, if decide (n = 0) then ZeroCount else None) ∧
               (n = 0 → r = [])) ∧
  (∀ i n, ∃ r, RangeByIndex i n sample
                 = Some (r, if decide (n = 0) then ZeroCount
                            else if decide (Length sample ≤ i ∨ i < - Length sample)
                                 then IndexOutOfRange else None) ∧
               (n = 0 ∨ Length sample ≤ i ∨ i < - Length sample → r = [])).
Proof. exact (range_errors sample sample_reachable). Defined.

Lemma MinInt_count_collects_nothing_witness :
  (∀ a, RangeByCount a MinInt sample = Some ([], None)) ∧
  (∀ i, - Length sample ≤ i < Length sample →
        RangeByIndex i MinInt sample = Some ([], None)).
Proof. exact (MinInt_count_collects_nothing sample sample_reachable). Defined.

Lemma find_predecessors_witness :
  ∃ found node updates its,
    find "004" sample = Some (found, node, updates) ∧ contents sample = Some its ∧
    found = bool_decide ("004" ∈ its.*1) ∧
    match node with
    | Some a => found = true ∧ ∃ n, heap sample !! a = Some n ∧ key n = "004"
    | None => found = false
    end ∧
    length updates = Z.to_nat MaxLevel ∧
    ∀ i, (i < Z.to_nat MaxLevel)%nat →
      ∃ u n, updates !! i = Some (Some u) ∧ heap sample !! u = Some n ∧
        Z.of_nat i < level n ∧
        (Some u = header (sl sample) ∨ ltb (key n) "004" = true) ∧
        ∃ nx, forward n !! i = Some nx ∧
          match nx with
          | Some a => ∃ m, heap sample !! a = Some m ∧ ltb (key m) "004" = false
          | None => True
          end.
Proof. exact (find_predecessors sample "004" sample_reachable). Defined.

(** *** [randomLevel] and C9 *)

Section RandomLevelFacts.
Variable Rand : Type.
Variable NewSource : Z → Rand.
Variable Uint32 : Rand → Z * Rand.

Lemma randomLevel_loop_ge fuel :
  ∀ r level l tr,
    randomLevel_loop Rand Uint32 fuel r level = Some (l, tr) →
    1 ≤ level → level + Z.of_nat fuel ≤ MaxInt → level ≤ l.
Proof.
  induction fuel as [|fuel IH]; intros r level l tr; simpl; [done|].
  destruct (Uint32 r) as [v r']. case_decide.
  - intros [= <- <-]. lia.
  - destruct (randomLevel_loop _ _ _ _ _) as [[l' tr']|] eqn:E; simpl; [|done].
    intros [= <- <-] Hl Hf. rewrite wrap_small in E by (unfold MinInt, MaxInt in *; lia).
    apply IH in E; lia.
Qed.

(** What [randomLevel] returns is a level between 1 and [MaxLevel]. *)
Lemma randomLevel_range fuel now l tr :
  randomLevel Rand NewSource Uint32 fuel now = Some (l, tr) →
  Z.of_nat fuel < MaxInt → 1 ≤ l ≤ MaxLevel.
Proof.
  unfold randomLevel.
  destruct (randomLevel_loop _ _ _ _ _) as [[l' tr']|] eqn:E; simpl; [|done].
  intros [= <- <-] Hf. apply randomLevel_loop_ge in E; [|lia|lia].
  unfold MaxLevel in *. case_decide; lia.
Qed.

Lemma seeds_loop fuel :
  ∀ r level l tr,
    randomLevel_loop Rand Uint32 fuel r level = Some (l, tr) → seeds tr = [].
Proof.
  induction fuel as [|fuel IH]; intros r level l tr; simpl; [done|].
  destruct (Uint32 r) as [v r']. case_decide.
  - by intros [= <- <-].
  - destruct (randomLevel_loop _ _ _ _ _) as [[l' tr']|] eqn:E; simpl; [|done].
    intros [= <- <-]. unfold seeds. simpl. by apply IH in E.
Qed.

Lemma seeds_randomLevel fuel now l tr :
  randomLevel Rand NewSource Uint32 fuel now = Some (l, tr) → seeds tr = [now].
Proof.
  unfold randomLevel.
  destruct (randomLevel_loop _ _ _ _ _) as [[l' tr']|] eqn:E; simpl; [|done].
  intros [= <- <-]. unfold seeds. simpl. f_equal. by apply seeds_loop in E.
Qed.

Lemma seeds_app tr1 tr2 : seeds (tr1 ++ tr2) = seeds tr1 ++ seeds tr2.
Proof. unfold seeds. apply omap_app. Qed.

Lemma randomLevel_calls_lookup fuel :
  ∀ clock ls tr i t l,
    randomLevel_calls Rand NewSource Uint32 fuel clock = Some (ls, tr) →
    clock !! i = Some t → ls !! i = Some l →
    ∃ tr', randomLevel Rand NewSource Uint32 fuel t = Some (l, tr').
Proof.
  induction clock as [|now clock IH]; intros ls tr i t l; simpl; [done|].
  destruct (randomLevel _ _ _ _ now) as [[l0 tr0]|] eqn:E0; simpl; [|done].
  destruct (randomLevel_calls _ _ _ _ clock) as [[ls' tr']|] eqn:E; simpl; [|done].
  intros [= <- <-]. destruct i as [|i]; simpl.
  - intros [= <-] [= <-]. eauto.
  - by eapply IH.
Qed.

(** C9, as the code has it.  Every call of [randomLevel] builds a generator
    of its own from the clock reading of the call: over a sequence of calls
    the seeds are the clock readings, one for each call, and two calls that
    read the same clock value return the same level. *)
Theorem randomLevel_seeds_every_call fuel clock ls tr :
  randomLevel_calls Rand NewSource Uint32 fuel clock = Some (ls, tr) →
  seeds tr = clock ∧ length ls = length clock ∧
  ∀ i j t li lj,
    clock !! i = Some t → clock !! j = Some t →
    ls !! i = Some li → ls !! j = Some lj → li = lj.
Proof.
  intros Hc. split_and!.
  - revert ls tr Hc. induction clock as [|now clock IH]; intros ls tr; simpl.
    + by intros [= <- <-].
    + destruct (randomLevel _ _ _ _ now) as [[l0 tr0]|] eqn:E0; simpl; [|done].
      destruct (randomLevel_calls _ _ _ _ clock) as [[ls' tr']|] eqn:E; simpl; [|done].
      intros [= <- <-]. rewrite seeds_app, (seeds_randomLevel _ _ _ _ E0).
      simpl. f_equal. by eapply IH.
  - revert ls tr Hc. induction clock as [|now clock IH]; intros ls tr; simpl.
    + by intros [= <- <-].
    + destruct (randomLevel _ _ _ _ now) as [[l0 tr0]|] eqn:E0; simpl; [|done].
      destruct (randomLevel_calls _ _ _ _ clock) as [[ls' tr']|] eqn:E; simpl; [|done].
      intros [= <- <-]. simpl. f_equal. by eapply IH.
  - intros i j t li lj Hi Hj Hli Hlj.
    destruct (randomLevel_calls_lookup _ _ _ _ _ _ _ Hc Hi Hli) as [tri Ei].
    destruct (randomLevel_calls_lookup _ _ _ _ _ _ _ Hc Hj Hlj) as [trj Ej].
    rewrite Ei in Ej. by injection Ej.
Qed.

(** The first [n] values that a generator yields. *)
Fixpoint draws (n : nat) (r : Rand) : list Z :=
  match n with
  | O => []
  | S n' => let '(v, r') := Uint32 r in v :: draws n' r'
  end.

Lemma randomLevel_loop_draws v :
  ∀ vs r level fuel,
    draws (S (length vs)) r = vs ++ [v] →
    Forall (λ x, 2 * Z.land x 65535 ≤ 39321) vs → 39321 < 2 * Z.land v 65535 →
    (length vs < fuel)%nat → MinInt ≤ level → level + Z.of_nat (length vs) ≤ MaxInt →
    randomLevel_loop Rand Uint32 fuel r level
    = Some (level + Z.of_nat (length vs), Drawn <$> vs ++ [v]).
Proof.
  induction vs as [|x vs IH]; intros r level fuel Hd Hlow Hhigh Hf Hmin Hmax;
    (destruct fuel as [|fuel]; [simpl in Hf; lia|]);
    cbn [draws length] in Hd; cbn [randomLevel_loop];
    destruct (Uint32 r) as [v0 r'].
  - injection Hd as ->. rewrite decide_True by done. simpl. do 2 f_equal. lia.
  - injection Hd as -> Hd. apply Forall_cons in Hlow as [Hx Hlow].
    rewrite decide_False by lia. simpl in Hf, Hmax.
    rewrite wrap_small by (unfold MinInt, MaxInt in *; lia).
    rewrite (IH r' (level + 1) fuel Hd Hlow Hhigh) by (unfold MinInt in *; lia).
    simpl. do 2 f_equal. lia.
Qed.

(** [randomLevel] draws until the low 16 bits of a draw exceed 19660: with
    [n] draws before that one it returns [n + 1], or [MaxLevel] if that is
    less, having seeded one generator and drawn [n + 1] values from it. *)
Theorem randomLevel_stops_at_first_high fuel now vs v :
  draws (S (length vs)) (NewSource now) = vs ++ [v] →
  Forall (λ x, 2 * Z.land x 65535 ≤ 39321) vs → 39321 < 2 * Z.land v 65535 →
  (length vs < fuel)%nat → Z.of_nat (length vs) < MaxInt →
  randomLevel Rand NewSource Uint32 fuel now
  = Some (Z.min (Z.of_nat (length vs) + 1) MaxLevel,
          Seeded now :: (Drawn <$> vs ++ [v])).
Proof.
  intros Hd Hlow Hhigh Hf Hmax. unfold randomLevel.
  rewrite (randomLevel_loop_draws v vs _ 1 fuel Hd Hlow Hhigh Hf)
    by (unfold MinInt in *; lia).
  simpl. do 2 f_equal. unfold MaxLevel. case_decide; lia.
Qed.

End RandomLevelFacts.

(** C9 fails on the code.  Two calls in the same clock tick: the generator
    is built twice, from the same seed, and the second call repeats the draws and the level of
    the first. *)
Lemma randomLevel_restarts_stream :
  ∃ l draws,
    randomLevel_calls Z lcg_NewSource lcg_Uint32 64
      [1730000000000000000; 1730000000000000000]
    = Some ([l; l], (Seeded 1730000000000000000 :: draws) ++
                    (Seeded 1730000000000000000 :: draws)) ∧
    seeds ((Seeded 1730000000000000000 :: draws) ++
           (Seeded 1730000000000000000 :: draws))
    = [1730000000000000000; 1730000000000000000].
Proof.
  exists 2, [Drawn 539832233; Drawn 1115326837]. split; vm_compute; reflexivity.
Qed.

Lemma randomLevel_seeds_every_call_witness :
  ∃ ls tr,
    randomLevel_calls Z lcg_NewSource lcg_Uint32 64 [1730000000000000000; 42] = Some (ls, tr) ∧
    seeds tr = [1730000000000000000; 42] ∧ length ls = 2%nat ∧
    ∀ i j t li lj,
      [1730000000000000000; 42] !! i = Some t → [1730000000000000000; 42] !! j = Some t →
      ls !! i = Some li → ls !! j = Some lj → li = lj.
Proof.
  eexists _, _. split; [vm_compute; reflexivity|].
  apply (randomLevel_seeds_every_call Z lcg_NewSource lcg_Uint32 64). vm_compute. reflexivity.
Defined.

Lemma randomLevel_range_witness :
  ∃ l tr, randomLevel Z lcg_NewSource lcg_Uint32 64 1730000000000000000 = Some (l, tr) ∧
          1 ≤ l ≤ MaxLevel.
Proof.
  eexists _, _. split; [vm_compute; reflexivity|].
  apply (randomLevel_range Z lcg_NewSource lcg_Uint32 64 1730000000000000000
           2 [Seeded 1730000000000000000; Drawn 539832233; Drawn 1115326837]);
    by vm_compute.
Defined.

Lemma randomLevel_stops_at_first_high_witness :
  randomLevel Z lcg_NewSource lcg_Uint32 64 1730000000000000000
  = Some (Z.min (Z.of_nat (length [539832233]) + 1) MaxLevel,
          Seeded 1730000000000000000 :: (Drawn <$> [539832233] ++ [1115326837])).
Proof.
  apply (randomLevel_stops_at_first_high Z lcg_NewSource lcg_Uint32 64
           1730000000000000000 [539832233] 1115326837).
  - vm_compute. reflexivity.
  - repeat constructor. by vm_compute.
  - by vm_compute.
  - simpl. lia.
  - by vm_compute.
Defined.
